(** * active-portfolio-jobs: scrape and build passes

    A shallow embedding of [src/scrape.mjs] (the Orchestrator and its
    provider adapters) and [src/build_site.mjs] (the Text Normalizer and
    the Build Pass), with the properties of the specification stated and
    settled against it.

    JavaScript strings are sequences of UTF-16 code units; they are
    modelled as [list N].  Regular expressions are modelled by a small
    backtracking matcher that follows the ECMAScript semantics for the
    constructs these two files use. *)

From Stdlib Require Import NArith String Ascii Bool Lia.
From stdpp Require Import base option list gmap.

Local Open Scope N_scope.
Local Open Scope nat_scope.

(** ** JavaScript strings *)

Module Js.

Definition jsstring := list N.

(** An ASCII literal as a JavaScript string. *)
Definition str (s : string) : jsstring :=
  List.map N_of_ascii (list_ascii_of_string s).

(** Code units outside ASCII that occur in the sources. *)
Definition EM_DASH : N := 8212%N.   (* U+2014 *)
Definition EN_DASH : N := 8211%N.   (* U+2013 *)
Definition BULLET  : N := 8226%N.   (* U+2022 *)
Definition POUND   : N := 163%N.    (* U+00A3 *)

Fixpoint eqb (a b : jsstring) : bool :=
  match a, b with
  | [], [] => true
  | x :: a', y :: b' => N.eqb x y && eqb a' b'
  | _, _ => false
  end.

(** [WhiteSpace] and [LineTerminator] of ECMAScript: the class [\s], and
    what [String.prototype.trim] strips. *)
Definition is_space (c : N) : bool :=
  ((9 <=? c) && (c <=? 13) || (c =? 32) || (c =? 160) || (c =? 5760)
   || (8192 <=? c) && (c <=? 8202) || (c =? 8232) || (c =? 8233)
   || (c =? 8239) || (c =? 8287) || (c =? 12288) || (c =? 65279))%N.

Definition is_line_terminator (c : N) : bool :=
  ((c =? 10) || (c =? 13) || (c =? 8232) || (c =? 8233))%N.

Definition is_digit (c : N) : bool := ((48 <=? c) && (c <=? 57))%N.
Definition is_upper (c : N) : bool := ((65 <=? c) && (c <=? 90))%N.
Definition is_lower (c : N) : bool := ((97 <=? c) && (c <=? 122))%N.

(** The class [\w]. *)
Definition is_word (c : N) : bool :=
  is_upper c || is_lower c || is_digit c || (c =? 95)%N.

(** [String.prototype.trim]. *)
Fixpoint trimStart (s : jsstring) : jsstring :=
  match s with
  | c :: s' => if is_space c then trimStart s' else s
  | [] => []
  end.

Definition trimEnd (s : jsstring) : jsstring := rev (trimStart (rev s)).

Definition trim (s : jsstring) : jsstring := trimEnd (trimStart s).

(** [String.prototype.toLowerCase].  Exact on ASCII.  Outside ASCII only
    U+0130 and U+212A have a lower-case form that contains an ASCII code
    unit; every other code unit above 127 stays above 127, and is left as
    it is here: the sources only ever compare a lower-cased string with
    ASCII literals. *)
Definition lower_unit (c : N) : jsstring :=
  if is_upper c then [(c + 32)%N]
  else if (c =? 304)%N then [105%N; 775%N]
  else if (c =? 8490)%N then [107%N]
  else [c].

Definition toLowerCase (s : jsstring) : jsstring := flat_map lower_unit s.

(** [a.startsWith(b)] with [a] the second argument. *)
Fixpoint startsWith (pre s : jsstring) : bool :=
  match pre, s with
  | [], _ => true
  | p :: pre', c :: s' => N.eqb p c && startsWith pre' s'
  | _ :: _, [] => false
  end.

(** [s.indexOf(pat)]: the first index at which [pat] occurs. *)
Fixpoint indexOf (pat s : jsstring) : option nat :=
  if startsWith pat s then Some 0
  else match s with
       | [] => None
       | _ :: s' => S <$> indexOf pat s'
       end.

(** [s.includes(pat)]. *)
Definition includes (pat s : jsstring) : bool :=
  match indexOf pat s with Some _ => true | None => false end.

(** [s.split(sep)[0]] for a non-empty string [sep]: the part of [s] before
    the first occurrence of [sep], the whole of [s] when there is none. *)
Definition splitHead (sep s : jsstring) : jsstring :=
  match indexOf sep s with
  | Some i => take i s
  | None => s
  end.

End Js.

(** ** Regular expressions

    A backtracking matcher in continuation-passing style, after the
    pattern semantics of ECMAScript (without the [u], [m] and [s] flags):
    alternatives are tried left to right, quantifiers are greedy, an
    iteration of a quantifier that consumes nothing is rejected, [$]
    holds at the end of the input only, and [.] excludes line
    terminators.  A position is the code unit before it (if any) and the
    input that remains. *)

Module Re.
Import Js.

Inductive citem :=
| Unit (c : N)
| Range (lo hi : N)
| Space
| Digit
| Word.

Inductive regex :=
| Eps
| Set_ (items : list citem)
| NSet (items : list citem)
| Dot
| Seq (r1 r2 : regex)
| Alt (r1 r2 : regex)
| Star (r : regex)
| Group (i : nat) (r : regex)
| Bol
| Eol
| WordB.

(** Abbreviations for the remaining pattern syntax. *)
Definition Chr (a : ascii) : regex := Set_ [Unit (N_of_ascii a)].
Definition Lit (s : string) : regex :=
  fold_right (fun c r => Seq (Set_ [Unit c]) r) Eps (str s).
Definition Plus (r : regex) : regex := Seq r (Star r).
Definition Opt (r : regex) : regex := Alt r Eps.
Fixpoint Times (n : nat) (r : regex) : regex :=
  match n with O => Eps | S n' => Seq r (Times n' r) end.
Fixpoint UpTo (n : nat) (r : regex) : regex :=
  match n with O => Eps | S n' => Opt (Seq r (UpTo n' r)) end.
(** [r{lo,hi}] and [r{lo,}]. *)
Definition Between (lo hi : nat) (r : regex) : regex :=
  Seq (Times lo r) (UpTo (hi - lo) r).
Definition AtLeast (lo : nat) (r : regex) : regex := Seq (Times lo r) (Star r).
Fixpoint AltL (rs : list regex) : regex :=
  match rs with
  | [] => NSet [Range 0 65535]
  | [r] => r
  | r :: rs' => Alt r (AltL rs')
  end.
Definition rng (a b : ascii) : citem := Range (N_of_ascii a) (N_of_ascii b).
Definition chr (a : ascii) : citem := Unit (N_of_ascii a).

(** [Canonicalize] under the [i] flag.  Exact on ASCII; the patterns of
    the sources that carry the flag are made of ASCII code units and
    [\s] only, which no code unit above 127 can match under it. *)
Definition canon (c : N) : N := if is_lower c then (c - 32)%N else c.

Definition in_range (lo hi c : N) : bool := ((lo <=? c) && (c <=? hi))%N.

Definition item_match (ic : bool) (it : citem) (c : N) : bool :=
  match it with
  | Unit a => if ic then (canon a =? canon c)%N else (a =? c)%N
  | Range lo hi =>
      if ic then
        in_range lo hi c
        || (is_lower c && in_range lo hi (c - 32))
        || (is_upper c && in_range lo hi (c + 32))
      else in_range lo hi c
  | Space => is_space c
  | Digit => is_digit c
  | Word => is_word c
  end.

Definition set_match (ic : bool) (items : list citem) (c : N) : bool :=
  existsb (fun it => item_match ic it c) items.

Record pos := Pos { prev : option N; rest : jsstring }.

Definition step (c : N) (tl : jsstring) : pos := Pos (Some c) tl.

(** A capture is kept as the pair of the lengths of the input remaining
    at its start and at its end. *)
Definition caps := list (nat * (nat * nat)).
Definition cont := pos -> caps -> option (pos * caps).

Definition word_before (p : pos) : bool :=
  match prev p with Some c => is_word c | None => false end.
Definition word_after (p : pos) : bool :=
  match rest p with c :: _ => is_word c | [] => false end.

Definition one (ok : N -> bool) (k : cont) (p : pos) (c : caps) : option (pos * caps) :=
  match rest p with
  | ch :: tl => if ok ch then k (step ch tl) c else None
  | [] => None
  end.

(** The greedy loop of [r*], given the matcher of [r]: at most [n] more
    iterations, each of which has to consume something.  Started with
    [n] the length of the remaining input, the bound is never met. *)
Definition star_loop (mr : cont -> pos -> caps -> option (pos * caps))
    (k : cont) : nat -> pos -> caps -> option (pos * caps) :=
  fix loop (n : nat) (p : pos) (c : caps) : option (pos * caps) :=
    match n with
    | O => k p c
    | S n' =>
        match mr (fun p' c' =>
                if length (rest p') =? length (rest p) then None
                else loop n' p' c') p c with
        | Some res => Some res
        | None => k p c
        end
    end.

Fixpoint m (ic : bool) (r : regex) (k : cont) (p : pos) (c : caps)
  : option (pos * caps) :=
  match r with
  | Eps => k p c
  | Set_ items => one (set_match ic items) k p c
  | NSet items => one (fun ch => negb (set_match ic items ch)) k p c
  | Dot => one (fun ch => negb (is_line_terminator ch)) k p c
  | Seq r1 r2 => m ic r1 (fun p' c' => m ic r2 k p' c') p c
  | Alt r1 r2 =>
      match m ic r1 k p c with
      | Some res => Some res
      | None => m ic r2 k p c
      end
  | Star r1 => star_loop (m ic r1) k (length (rest p)) p c
  | Group i r1 =>
      m ic r1 (fun p' c' =>
        k p' ((i, (length (rest p), length (rest p'))) :: c')) p c
  | Bol => match prev p with None => k p c | Some _ => None end
  | Eol => match rest p with [] => k p c | _ :: _ => None end
  | WordB => if xorb (word_before p) (word_after p) then k p c else None
  end.

(** The continuation that accepts. *)
Definition accept : cont := fun e c => Some (e, c).

(** A match: what remains of the input at its start and at its end, and
    the captures. *)
Record found := Found { at_start : pos; at_end : pos; groups : caps }.

(** The first match at or after a position (what [RegExp.prototype.exec]
    finds from [lastIndex]). *)
Fixpoint search (ic : bool) (r : regex) (pv : option N) (s : jsstring)
  : option found :=
  match m ic r accept (Pos pv s) [] with
  | Some (e, c) => Some (Found (Pos pv s) e c)
  | None =>
      match s with
      | [] => None
      | ch :: tl => search ic r (Some ch) tl
      end
  end.

(** [re.test(s)]. *)
Definition test (ic : bool) (r : regex) (s : jsstring) : bool :=
  match search ic r None s with Some _ => true | None => false end.

(** The text between two remaining lengths of [s]. *)
Definition slice (s : jsstring) (from_rem to_rem : nat) : jsstring :=
  take (from_rem - to_rem) (drop (length s - from_rem) s).

Definition matched (s : jsstring) (f : found) : jsstring :=
  slice s (length (rest (at_start f))) (length (rest (at_end f))).

(** The text of capture group [i] of a match, if the group took part. *)
Definition group (s : jsstring) (f : found) (i : nat) : option jsstring :=
  match List.find (fun g => Nat.eqb (fst g) i) (groups f) with
  | Some (_, (a, b)) => Some (slice s a b)
  | None => None
  end.

(** [s.match(re)?.[i]] for a pattern without the [g] flag. *)
Definition match_group (ic : bool) (r : regex) (i : nat) (s : jsstring)
  : option jsstring :=
  match search ic r None s with
  | Some f => group s f i
  | None => None
  end.

(** [s.replace(re, ...)] without the [g] flag: the first match is
    replaced by [repl], which may use the captures. *)
Definition replace (ic : bool) (r : regex) (repl : jsstring -> found -> jsstring)
    (s : jsstring) : jsstring :=
  match search ic r None s with
  | Some f =>
      take (length s - length (rest (at_start f))) s
      ++ repl s f ++ rest (at_end f)
  | None => s
  end.

(** [s.replace(re, ...)] with the [g] flag: matches are found one after
    the other, each search starting where the last match ended, one code
    unit further after an empty match. *)
Fixpoint replaceAll_from (fuel : nat) (ic : bool) (r : regex)
    (repl : jsstring -> found -> jsstring) (whole : jsstring)
    (pv : option N) (s : jsstring) : jsstring :=
  match fuel with
  | O => s
  | S fuel' =>
      match search ic r pv s with
      | None => s
      | Some f =>
          let b := at_start f in
          let e := at_end f in
          take (length s - length (rest b)) s ++ repl whole f ++
          (if length (rest e) =? length (rest b) then
             match rest e with
             | [] => []
             | ch :: tl =>
                 ch :: replaceAll_from fuel' ic r repl whole (Some ch) tl
             end
           else replaceAll_from fuel' ic r repl whole (prev e) (rest e))
      end
  end.

Definition replaceAll (ic : bool) (r : regex)
    (repl : jsstring -> found -> jsstring) (s : jsstring) : jsstring :=
  replaceAll_from (S (length s)) ic r repl s None s.

(** [s.split(re)] for a pattern without capture groups whose matches are
    never empty. *)
Fixpoint split_from (fuel : nat) (ic : bool) (r : regex)
    (pv : option N) (s : jsstring) : list jsstring :=
  match fuel with
  | O => [s]
  | S fuel' =>
      match search ic r pv s with
      | None => [s]
      | Some f =>
          take (length s - length (rest (at_start f))) s
          :: split_from fuel' ic r (prev (at_end f)) (rest (at_end f))
      end
  end.

Definition split (ic : bool) (r : regex) (s : jsstring) : list jsstring :=
  split_from (S (length s)) ic r None s.

(** [s.split(re)[0]] for a pattern whose matches are never empty: the
    text before the first match, all of [s] when there is none. *)
Definition splitHead (ic : bool) (r : regex) (s : jsstring) : jsstring :=
  match search ic r None s with
  | Some f => take (length s - length (rest (at_start f))) s
  | None => s
  end.

End Re.

(** ** Records shared by the two passes *)

(** A raw job record as the scrape pass writes it and the build pass reads
    it back.  A field is [None] when the object does not carry it. *)
Record Job := mkJob {
  portfolio : option Js.jsstring;
  company_name : option Js.jsstring;
  company_careers_url : option Js.jsstring;
  job_title : option Js.jsstring;
  job_location : option Js.jsstring;
  job_url : option Js.jsstring;
  source_type : option Js.jsstring;
  source_job_id : option Js.jsstring;
  job_key : option Js.jsstring;
  status : option Js.jsstring;
  last_seen_utc : option Js.jsstring
}.

(** A roster row, as [readCompanies] returns it. *)
Record Company := mkCompany {
  c_company_name : Js.jsstring;
  c_careers_url : Js.jsstring
}.

(** Truthiness of a string-valued field: present and not empty. *)
Definition truthy (v : option Js.jsstring) : bool :=
  match v with Some (_ :: _) => true | _ => false end.

(** ** [src/build_site.mjs] *)

Module BuildSite.
Import Js Re.

Definition Cat (rs : list regex) : regex := fold_right Seq Eps rs.
Definition sp : regex := Set_ [Space].
Definition digit : regex := Set_ [Digit].

(** [cleanText(s)]: a missing [s] is the empty string; each run of
    white space becomes one space; the result is trimmed. *)
Definition cleanText (s : option jsstring) : jsstring :=
  trim (replaceAll false (Plus sp) (fun _ _ => str " ") (default [] s)).

Definition denylist : list jsstring :=
  [ str "careers"; str "get in touch"; str "get started"; str "log in";
    str "login"; str "privacy policy"; str "security";
    str "vulnerability disclosure"; str "powered by ashby" ].

Definition looksLikeJobTitle (title : jsstring) : bool :=
  let t := toLowerCase title in
  negb (existsb (Js.eqb t) denylist).

(** The patterns of [normalizeJob], in the order of the source. *)

(** [/(privacy|security|disclosure|login|signup|ashbyhq\.com\/?$)/i] *)
Definition junkUrlRe : regex :=
  Group 1 (AltL [ Lit "privacy"; Lit "security"; Lit "disclosure";
                  Lit "login"; Lit "signup";
                  Cat [Lit "ashbyhq.com"; Opt (Chr "/"); Eol] ]).

(** [/%[A-Z0-9_]+%/] *)
Definition placeholderRe : regex :=
  Cat [Chr "%"; Plus (Set_ [rng "A" "Z"; rng "0" "9"; chr "_"]); Chr "%"].

(** [(Engineering|Marketing|Sales|Product|Operations|Finance|People|Legal|Design|Support)] *)
Definition department : regex :=
  Group 1 (AltL [ Lit "Engineering"; Lit "Marketing"; Lit "Sales";
                  Lit "Product"; Lit "Operations"; Lit "Finance";
                  Lit "People"; Lit "Legal"; Lit "Design"; Lit "Support" ]).

(** [/\s+\b(...)\b\s*$/i] *)
Definition deptSpaceRe : regex :=
  Cat [Plus sp; WordB; department; WordB; Star sp; Eol].

(** [/\s*-\s*\b(...)\b\s*$/i] *)
Definition deptDashRe : regex :=
  Cat [Star sp; Chr "-"; Star sp; WordB; department; WordB; Star sp; Eol].

(** [/\bforward deployed\b/i] *)
Definition forwardDeployedRe : regex :=
  Cat [WordB; Lit "forward deployed"; WordB].

(** [/\bremote\b/], [/\bhybrid\b/], [/\bon[-\s]?site\b|\bonsite\b/] *)
Definition remoteRe : regex := Cat [WordB; Lit "remote"; WordB].
Definition hybridRe : regex := Cat [WordB; Lit "hybrid"; WordB].
Definition onsiteRe : regex :=
  Alt (Cat [WordB; Lit "on"; Opt (Set_ [chr "-"; Space]); Lit "site"; WordB])
      (Cat [WordB; Lit "onsite"; WordB]).

(** [/\$?\d{2,3}\s?[kK]\s?[–-]\s?\$?\d{2,3}\s?[kK].*$/g] *)
Definition salaryRangeRe : regex :=
  Cat [ Opt (Chr "$"); Between 2 3 digit; Opt sp; Set_ [chr "k"; chr "K"];
        Opt sp; Set_ [Unit EN_DASH; chr "-"]; Opt sp;
        Opt (Chr "$"); Between 2 3 digit; Opt sp; Set_ [chr "k"; chr "K"];
        Star Dot; Eol ].

(** [/£\s?\d.*$/g] *)
Definition poundRe : regex :=
  Cat [Set_ [Unit POUND]; Opt sp; digit; Star Dot; Eol].

(** [/\bOffers Equity\b.*$/i] *)
Definition equityRe : regex :=
  Cat [WordB; Lit "Offers Equity"; WordB; Star Dot; Eol].

(** [/\bFull[-\s]?time\b.*$/i] *)
Definition fullTimeRe : regex :=
  Cat [ WordB; Lit "Full"; Opt (Set_ [chr "-"; Space]); Lit "time"; WordB;
        Star Dot; Eol ].

(** [/-\s*([A-Za-z .()]{3,40})$/] *)
Definition geoDashRe : regex :=
  Cat [ Chr "-"; Star sp;
        Group 1 (Between 3 40
          (Set_ [rng "A" "Z"; rng "a" "z"; chr " "; chr "."; chr "("; chr ")"]));
        Eol ].

(** [/\(([^)]+)\)\s*$/] *)
Definition geoParenRe : regex :=
  Cat [Chr "("; Group 1 (Plus (NSet [chr ")"])); Chr ")"; Star sp; Eol].

(** [/\b(...)\b$/i] *)
Definition deptEndRe : regex := Cat [WordB; department; WordB; Eol].

Definition erase : jsstring -> found -> jsstring := fun _ _ => [].

Definition NOT_LISTED : jsstring := str "Not listed".

(** [`${a} — ${b}`] *)
Definition dashed (a b : jsstring) : jsstring :=
  a ++ [32%N; EM_DASH; 32%N] ++ b.

(** [s.match(re)?.[1]?.trim()], as a truthy value or nothing. *)
Definition hint (r : regex) (s : jsstring) : option jsstring :=
  match match_group false r 1 s with
  | Some g => match trim g with [] => None | t => Some t end
  | None => None
  end.

Definition normalizeJob (job : Job) : option Job :=
  let title := cleanText (job_title job) in
  let location := cleanText (job_location job) in
  (* Drop obvious junk titles + junk URLs *)
  if (length title <? 3) then None
  else if negb (looksLikeJobTitle title) then None
  else if truthy (job_url job) && test true junkUrlRe (default [] (job_url job))
  then None
  (* Drop templating/placeholder junk *)
  else if test false placeholderRe title then None
  else
  (* If title looks like a paragraph, cut aggressively *)
  let title := trim (Js.splitHead [10%N] title) in
  let title := trim (Js.splitHead (str "Responsibilities") title) in
  let title := trim (Js.splitHead (str "Description") title) in
  let title := trim (Js.splitHead (str "About the role") title) in
  (* If still long, cut after common separators *)
  let title :=
    if 90 <? length title then
      trim (Js.splitHead (str " | ")
             (Js.splitHead (str " - ")
               (Js.splitHead [32%N; EM_DASH; 32%N] title)))
    else title in
  (* Remove trailing department labels that get appended *)
  let title := trim (replace true deptSpaceRe erase title) in
  let title := trim (replace true deptDashRe erase title) in
  (* Location sanity: drop non-location qualifiers *)
  let location :=
    if test true forwardDeployedRe location then NOT_LISTED else location in
  (* Work-mode detection *)
  let lower := toLowerCase title in
  let isRemote := test false remoteRe lower in
  let isHybrid := test false hybridRe lower in
  let isOnsite := test false onsiteRe lower in
  (* If the title contains bullets, keep only the left side *)
  let title :=
    if includes [BULLET] title then trim (Js.splitHead [BULLET] title)
    else title in
  (* Remove comp / equity / time noise often appended *)
  let title :=
    trim (replace true fullTimeRe erase
           (replace true equityRe erase
             (replaceAll false poundRe erase
               (replaceAll false salaryRangeRe erase title)))) in
  (* Simple geo hint extraction *)
  let geoHint :=
    match hint geoDashRe title with
    | Some g => g
    | None => default [] (hint geoParenRe title)
    end in
  (* Strip trailing department words *)
  let title := trim (replace true deptEndRe erase title) in
  let missingLoc :=
    match location with
    | [] => true
    | _ => Js.eqb (toLowerCase location) (str "not listed")
    end in
  let hasGeo := match geoHint with [] => false | _ => true end in
  let location :=
    if missingLoc then
      if isRemote && hasGeo then dashed (str "Remote") geoHint
      else if isRemote then str "Remote"
      else if isHybrid && hasGeo then dashed (str "Hybrid") geoHint
      else if isHybrid then str "Hybrid"
      else if isOnsite && hasGeo then geoHint
      else if isOnsite then str "On-site"
      else if hasGeo then geoHint
      else location
    else
      if isRemote && negb (includes (str "remote") (toLowerCase location))
      then dashed (str "Remote") location
      else location in
  Some {| portfolio := portfolio job;
          company_name := company_name job;
          company_careers_url := company_careers_url job;
          job_title := Some title;
          job_location :=
            Some (match location with [] => NOT_LISTED | _ => location end);
          job_url := job_url job;
          source_type := source_type job;
          source_job_id := source_job_id job;
          job_key := job_key job;
          status := status job;
          last_seen_utc := last_seen_utc job |}.

(** An entry of [site/companies.json]. *)
Record CompanyOut := mkCompanyOut {
  co_portfolio : jsstring;
  co_company_name : jsstring;
  co_company_careers_url : jsstring;
  open_roles : nat
}.

(** The loop of [main] over the raw jobs: the accumulators [cleaned] and
    [rejected]. *)
Definition sort_out (acc : list Job * list Job) (j : Job) : list Job * list Job :=
  match normalizeJob j with
  | Some nj => (acc.1 ++ [nj], acc.2)
  | None => (acc.1, acc.2 ++ [j])
  end.

Definition sift (raw : list Job) : list Job * list Job :=
  foldl sort_out ([], []) raw.

(** The [Map] [byCompany]: every roster name is set to 0, then every
    clean job adds one under its [company_name] (a job without the field
    counts under the key [undefined], here [None]). *)
Definition byCompany (companies : list Company) (cleaned : list Job)
  : gmap (option jsstring) nat :=
  let index :=
    foldl (fun (idx : gmap (option jsstring) nat) c =>
             <[Some (c_company_name c) := 0]> idx) ∅ companies in
  foldl (fun (idx : gmap (option jsstring) nat) j =>
           <[company_name j := default 0 (idx !! company_name j) + 1]> idx)
        index cleaned.

Definition companiesOut (companies : list Company) (cleaned : list Job)
  : list CompanyOut :=
  let idx := byCompany companies cleaned in
  List.map (fun c =>
    {| co_portfolio := str "Active Capital";
       co_company_name := c_company_name c;
       co_company_careers_url := c_careers_url c;
       open_roles := default 0 (idx !! Some (c_company_name c)) |}) companies.

(** What [main] writes under [site/]. *)
Record Written := mkWritten {
  companies_json : list CompanyOut;
  jobs_json : list Job;
  rejected_jobs_json : list Job;
  last_updated_utc : jsstring;
  raw_count : nat;
  clean_count : nat
}.

Section Main.
(** [cleaned.sort((a,b) => a.company_name.localeCompare(b.company_name)
    || a.job_title.localeCompare(b.job_title))]: the collation is the
    platform's, and so is the order in which the comparator is called;
    [None] when the comparator throws, which it does when the record on
    its left has no [company_name]. *)
Variable sortJobs : list Job -> option (list Job).

(** [main], from the roster, the parsed [data/raw_jobs.json] and the
    time of the run; [None] when the sort throws.  The
    calls of [fs] and of [console] are left out. *)
Definition main (companies : list Company) (raw : list Job)
    (stamp : jsstring) : option Written :=
  let '(cleaned, rejected) := sift raw in
  (* Create company index, even if 0 jobs *)
  let out := companiesOut companies cleaned in
  match sortJobs cleaned with
  | None => None
  | Some sorted =>
      Some {| companies_json := out;
              jobs_json := sorted;
              rejected_jobs_json := rejected;
              last_updated_utc := stamp;
              raw_count := length raw;
              clean_count := length cleaned |}
  end.
End Main.

End BuildSite.

(** ** [src/scrape.mjs] *)

Module Scrape.
Import Js Re.

Definition Cat (rs : list regex) : regex := fold_right Seq Eps rs.
Definition sp : regex := Set_ [Space].

(** The outcome of a call that may throw; the message is what
    [String(e?.message || e)] gives for the thrown value. *)
Inductive Result (A : Type) :=
| Ok (a : A)
| Threw (msg : jsstring).
Arguments Ok {A} a.
Arguments Threw {A} msg.

(** A parsed URL: the three properties of a [URL] object the sources read. *)
Record Url := mkUrl {
  href : jsstring;
  origin : jsstring;
  pathname : jsstring
}.

(** An [a[href]] element of a fetched page ([node-html-parser]): the
    value of [getAttribute("href")] and of [.text]. *)
Record Anchor := mkAnchor {
  a_href : option jsstring;
  a_text : jsstring
}.

(** What [fetchText] returns. *)
Record Fetched := mkFetched {
  f_ok : bool;
  f_status : jsstring;
  f_url : jsstring;
  f_text : jsstring
}.

(** A coverage record. *)
Record Coverage := mkCoverage {
  cov_portfolio : jsstring;
  cov_company_name : jsstring;
  cov_company_careers_url : jsstring;
  cov_source_type : jsstring;
  cov_status : jsstring;
  cov_open_roles_raw : nat;
  cov_error : jsstring;
  cov_last_checked_utc : jsstring
}.

(** [`${v}`] and [String(v)] of a field that may be missing. *)
Definition String_ (v : option jsstring) : jsstring :=
  default (str "undefined") v.

(** [s.replace(/\s+/g, " ").trim()] *)
Definition squash (s : jsstring) : jsstring :=
  trim (replaceAll false (Plus sp) (fun _ _ => str " ") s).

(** [clean(s)]: a missing [s] is the empty string, then as [squash]. *)
Definition clean (s : option jsstring) : jsstring := squash (default [] s).

(** [detectSource] *)
Definition detectSource (url : jsstring) : jsstring :=
  let u := toLowerCase url in
  if includes (str "greenhouse.io") u then str "greenhouse"
  else if includes (str "ashbyhq.com") u then str "ashby"
  else if includes (str "myworkday") u || includes (str "workday") u
  then str "workday"
  else if includes (str "ats.rippling.com") u then str "rippling"
  else if includes (str "breezy.hr") u then str "breezy"
  else if includes (str "builtinaustin.com") u then str "built_in"
  else if includes (str "scalis.ai") u then str "scalis"
  else if includes (str "notion.site") u then str "custom_html"
  else str "custom_html".

(** De-duplication as every loop of the file does it: a [Set] of the keys
    seen so far, and the list of the elements kept. *)
Section Dedupe.
Context {A K : Type} `{Countable K}.
Variable key : A -> K.

Definition dedupe_step (st : gset K * list A) (x : A) : gset K * list A :=
  if decide (key x ∈ st.1) then st
  else ({[ key x ]} ∪ st.1, st.2 ++ [x]).

Definition dedupe_from (st : gset K * list A) (l : list A) : gset K * list A :=
  foldl dedupe_step st l.

Definition dedupe (l : list A) : list A := (dedupe_from (∅, []) l).2.
End Dedupe.

(** An entry of [data.jobs] in the reply of the Greenhouse API. *)
Record GhJob := mkGhJob {
  gh_title : option jsstring;
  gh_location_name : option jsstring;
  gh_absolute_url : option jsstring;
  gh_id : option jsstring
}.

(** [res.ok], [res.status] and [data.jobs ?? []]. *)
Record GhReply := mkGhReply {
  g_ok : bool;
  g_status : jsstring;
  g_jobs : list GhJob
}.

(** An [a[href]] element of the rendered document: [getAttribute("href")],
    [textContent], and the [textContent] of [a.closest("div") ||
    a.parentElement]. *)
Record DomAnchor := mkDomAnchor {
  d_href : option jsstring;
  d_textContent : option jsstring;
  d_cardText : option jsstring
}.

(** What the script given to [page.evaluate] reads of the document. *)
Record Dom := mkDom {
  location_href : jsstring;
  location_origin : jsstring;
  dom_anchors : list DomAnchor
}.

(** An element of the array the in-page script returns. *)
Record Hit := mkHit {
  h_url : jsstring;
  h_title : jsstring;
  h_cardText : jsstring
}.

(** What [main] writes: [data/raw_jobs.json] and [site/coverage.json]. *)
Record Written := mkWritten {
  raw_jobs_json : list Job;
  coverage_json : list Coverage
}.

(** The platform the scrape pass runs on: what it imports and the
    globals it uses.  [World] is the outside world of a run (the network,
    the clock, the browser); a call that acts on it takes the world and
    returns the world after it.

    - [sha1 s] is [crypto.createHash("sha1").update(s).digest("hex")];
    - [newURL url base] is [new URL(url)] or [new URL(url, base)], [None]
      when it throws;
    - [nowISO] is [new Date().toISOString()];
    - [fetchText url] is the function of that name: the request and the
      reading of the body;
    - [anchorsOf text] is [parseHtml(text).querySelectorAll("a[href]")];
    - [fetchJobs api] is [fetch(api, ...)] followed by [res.json()];
    - [launch], [newPage], [goto], [waitForTimeout] are those of
      [playwright], [domOf page] is what [page.evaluate] lets the script
      see, and [closePage], [closeBrowser] are the two [close()] calls with
      the error of each swallowed. *)
Class Platform := {
  World : Type;
  sha1 : jsstring -> jsstring;
  newURL : jsstring -> option jsstring -> option Url;
  nowISO : World -> jsstring * World;
  fetchText : jsstring -> World -> Result Fetched * World;
  anchorsOf : jsstring -> list Anchor;
  fetchJobs : jsstring -> World -> Result GhReply * World;
  Browser : Type;
  Page : Type;
  launch : World -> Result Browser * World;
  newPage : Browser -> World -> Result Page * World;
  goto : Page -> jsstring -> jsstring -> World -> Result unit * World;
  waitForTimeout : Page -> nat -> World -> Result unit * World;
  domOf : Page -> World -> Result Dom * World;
  closePage : Page -> World -> World;
  closeBrowser : Browser -> World -> World
}.

Section Adapters.
Context `{Platform}.

(** Computations of the run: a state monad over the world, with
  exceptions. *)
Definition M (A : Type) : Type := World -> Result A * World.

Definition ret {A} (a : A) : M A := fun w => (Ok a, w).
Definition throw {A} (msg : jsstring) : M A := fun w => (Threw msg, w).
Definition bind {A B} (c : M A) (k : A -> M B) : M B :=
fun w => match c w with
         | (Ok a, w') => k a w'
         | (Threw e, w') => (Threw e, w')
         end.
Definition now : M jsstring := fun w => let '(t, w') := nowISO w in (Ok t, w').

Notation "x <- c ;; k" := (bind c (fun x => k))
(at level 100, c at next level, right associativity).

(** [absUrl(base, href)] *)
Definition absUrl (base href_ : jsstring) : option jsstring :=
href <$> newURL href_ (Some base).

(** [sameOriginOnly(baseUrl, url)] *)
Definition sameOriginOnly (baseUrl url : jsstring) : bool :=
match newURL baseUrl None, newURL url None with
| Some b, Some u => Js.eqb (origin b) (origin u)
| _, _ => false
end.

(** The record every link-scanning adapter pushes; [source_job_id] and
  [job_key] are derived from the job URL. *)
Definition record (source company careersUrl title location url stamp : jsstring)
: Job :=
{| portfolio := Some (str "Active Capital");
   company_name := Some company;
   company_careers_url := Some careersUrl;
   job_title := Some title;
   job_location := Some location;
   job_url := Some url;
   source_type := Some source;
   source_job_id := Some (sha1 url);
   job_key := Some (source ++ str ":" ++ sha1 url);
   status := Some (str "open");
   last_seen_utc := Some stamp |}.

(** A [for (const a of anchors)] loop whose body either [continue]s or
  pushes one record stamped with the time of the push. *)
Fixpoint scan {X} (pick : X -> option (jsstring -> Job)) (xs : list X)
  (out : list Job) : M (list Job) :=
match xs with
| [] => ret out
| x :: xs' =>
    match pick x with
    | None => scan pick xs' out
    | Some mk => t <- now ;; scan pick xs' (out ++ [mk t])
    end
end.

(** The body of the loop of [scrapeRippling]. *)
Definition ripplingAnchor (company careersUrl : jsstring) (a : Anchor)
: option (jsstring -> Job) :=
let h := default [] (a_href a) in
if negb (includes (str "/jobs/") h) then None
else match absUrl careersUrl h with
| None => None
| Some url =>
    if negb (sameOriginOnly careersUrl url) then None
    else
      let title := clean (Some (a_text a)) in
      match title with
      | [] => None
      | _ => Some (record (str "rippling") company careersUrl title
                     (str "Not listed") url)
      end
end.

Definition scrapeRippling (company careersUrl : jsstring) : M (list Job) :=
r <- fetchText careersUrl ;;
if negb (f_ok r) then throw (str "Rippling fetch failed: " ++ f_status r)
else
  out <- scan (ripplingAnchor company careersUrl) (anchorsOf (f_text r)) [] ;;
  (* de-dupe by url *)
  ret (dedupe job_url out).

(** The body of the loop of [scrapeBreezy]. *)
Definition breezyAnchor (company careersUrl : jsstring) (a : Anchor)
: option (jsstring -> Job) :=
let h := default [] (a_href a) in
if negb (includes (str "/p/") h) then None
else match absUrl careersUrl h with
| None => None
| Some url =>
    if negb (sameOriginOnly careersUrl url) then None
    else
      let title := clean (Some (a_text a)) in
      match title with
      | [] => None
      | _ =>
          if Js.eqb (toLowerCase title) (str "apply") then None
          else Some (record (str "breezy") company careersUrl title
                       (str "Not listed") url)
      end
end.

Definition scrapeBreezy (company careersUrl : jsstring) : M (list Job) :=
r <- fetchText careersUrl ;;
if negb (f_ok r) then throw (str "Breezy fetch failed: " ++ f_status r)
else
  out <- scan (breezyAnchor company careersUrl) (anchorsOf (f_text r)) [] ;;
  ret (dedupe job_url out).

(** [/\/(job|jobs)\//i] *)
Definition builtInPathRe : regex :=
Cat [Chr "/"; Group 1 (Alt (Lit "job") (Lit "jobs")); Chr "/"].

(** The body of the loop of [scrapeBuiltIn]. *)
Definition builtInAnchor (company careersUrl : jsstring) (a : Anchor)
: option (jsstring -> Job) :=
let h := default [] (a_href a) in
match absUrl careersUrl h with
| None => None
| Some url =>
    if negb (sameOriginOnly careersUrl url) then None
    else if negb (test true builtInPathRe url) then None
    else
      let title := clean (Some (a_text a)) in
      if length title <? 3 then None
      else Some (record (str "built_in") company careersUrl title
                   (str "Not listed") url)
end.

Definition scrapeBuiltIn (company careersUrl : jsstring) : M (list Job) :=
r <- fetchText careersUrl ;;
if negb (f_ok r) then throw (str "Built In fetch failed: " ++ f_status r)
else
  out <- scan (builtInAnchor company careersUrl) (anchorsOf (f_text r)) [] ;;
  ret (dedupe job_url out).

(** The patterns of [scrapeCustomHtml]. *)

(** [/(\/job\/|\/jobs\/|\/positions\/|\/openings\/|\/careers\/|\/careers$)/i] *)
Definition allowPath : regex :=
Group 1 (AltL [ Lit "/job/"; Lit "/jobs/"; Lit "/positions/";
                Lit "/openings/"; Lit "/careers/";
                Cat [Lit "/careers"; Eol] ]).

(** [/(privacy|security|disclosure|login|signup|terms|cookie|press|blog|about|product|pricing)/i] *)
Definition blockPath : regex :=
Group 1 (AltL [ Lit "privacy"; Lit "security"; Lit "disclosure";
                Lit "login"; Lit "signup"; Lit "terms"; Lit "cookie";
                Lit "press"; Lit "blog"; Lit "about"; Lit "product";
                Lit "pricing" ]).

(** [/\/+$/] *)
Definition trailingSlashes : regex := Cat [Plus (Chr "/"); Eol].

(** [/([a-z])As\b/g] *)
Definition gluedAsRe : regex :=
Cat [Group 1 (Set_ [rng "a" "z"]); Lit "As"; WordB].

(** [/\bAs (an|a|our)\b/i] *)
Definition asArticleRe : regex :=
Cat [WordB; Lit "As "; Group 1 (AltL [Lit "an"; Lit "a"; Lit "our"]); WordB].

(** [/\bAustin, or\b/i] *)
Definition austinOrRe : regex := Cat [WordB; Lit "Austin, or"; WordB].

(** [/[.!?]/] *)
Definition sentenceEndRe : regex := Set_ [chr "."; chr "!"; chr "?"].

(** [pieces.join(" ")] *)
Fixpoint join (pieces : list jsstring) : jsstring :=
match pieces with
| [] => []
| [x] => x
| x :: rest => x ++ str " " ++ join rest
end.

(** The title clean-up chain of [scrapeCustomHtml]. *)
Definition customTitle (text : jsstring) : jsstring :=
let title := clean (Some text) in
(* If the title is glued to the description like "AI EngineerAs..." *)
let title :=
  replaceAll false gluedAsRe
    (fun s f => default [] (group s f 1) ++ str " As") title in
(* Now trim description bleed *)
let title :=
  trim (Js.splitHead [EM_DASH]
         (Js.splitHead (str "|")
           (Js.splitHead [BULLET]
             (Re.splitHead true austinOrRe
               (Re.splitHead true asArticleRe title))))) in
(* If still too long, take first line-ish chunk *)
let title :=
  if 80 <? length title then trim (Re.splitHead false sentenceEndRe title)
  else title in
(* Final safety: cap words *)
let title :=
  if 80 <? length title
  then trim (join (take 10 (Re.split false (Plus sp) title)))
  else title in
title.

(** The body of the loop of [scrapeCustomHtml]. *)
Definition customAnchor (company careersUrl : jsstring) (a : Anchor)
: option (jsstring -> Job) :=
let h := trim (default [] (a_href a)) in
match h with
| [] => None
| _ =>
if startsWith (str "#") h then None
else match absUrl careersUrl h with
| None => None
| Some url =>
    if negb (sameOriginOnly careersUrl url) then None
    else if test true blockPath url then None
    else
      (* both URLs have just been parsed by [sameOriginOnly] *)
      match newURL url None, newURL careersUrl None with
      | Some u, Some b =>
          if negb (test true allowPath (pathname u)) then None
          else if Js.eqb (replace false trailingSlashes (fun _ _ => []) (pathname u))
                         (replace false trailingSlashes (fun _ _ => []) (pathname b))
          then None
          else
            let title := customTitle (a_text a) in
            if length title <? 6 then None
            else if length (Re.split false (Plus sp) title) <? 2 then None
            else Some (record (str "custom_html") company careersUrl title
                         (str "Not listed") url)
      | _, _ => None
      end
end
end.

(** [scrapeCustomHtml].  The source declares [const seen = new Set()]
  next to [out], never reads or writes it, and returns [out] as it is. *)
Definition scrapeCustomHtml (company careersUrl : jsstring) : M (list Job) :=
r <- fetchText careersUrl ;;
if negb (f_ok r) then throw (str "Custom HTML fetch failed: " ++ f_status r)
else
  out <- scan (customAnchor company careersUrl) (anchorsOf (f_text r)) [] ;;
  ret out.

(** *** The API-backed adapter *)

(** [/greenhouse\.io\/(?:job-boards\.)?([^\/\?#]+)/i] *)
Definition boardRe : regex :=
Cat [ Lit "greenhouse.io/"; Opt (Lit "job-boards.");
      Group 1 (Plus (NSet [chr "/"; chr "?"; chr "#"])) ].

Definition greenhouseRecord (company careersUrl : jsstring) (j : GhJob)
  (stamp : jsstring) : Job :=
{| portfolio := Some (str "Active Capital");
   company_name := Some company;
   company_careers_url := Some careersUrl;
   job_title := Some (clean (gh_title j));
   job_location :=
     Some (clean (Some (default (str "Not listed") (gh_location_name j))));
   job_url := Some (clean (Some (default [] (gh_absolute_url j))));
   source_type := Some (str "greenhouse");
   source_job_id := Some (default [] (gh_id j));
   job_key :=
     Some (str "greenhouse:" ++
           default (sha1 (default [] (gh_absolute_url j))) (gh_id j));
   status := Some (str "open");
   last_seen_utc := Some stamp |}.

Definition scrapeGreenhouse (company careersUrl : jsstring) : M (list Job) :=
match match_group true boardRe 1 careersUrl with
| None | Some [] => throw (str "Could not detect Greenhouse board slug")
| Some board =>
    let api := str "https://boards-api.greenhouse.io/v1/boards/" ++ board
               ++ str "/jobs?content=false" in
    res <- fetchJobs api ;;
    if negb (g_ok res) then throw (str "Greenhouse API " ++ g_status res)
    else
      all <- scan (fun j => Some (greenhouseRecord company careersUrl j))
               (g_jobs res) [] ;;
      ret (List.filter (fun j => truthy (job_url j)) all)
end.

(** *** The adapters that render the page in a browser *)

(** [try { c } finally { f }] with an [f] that does not throw. *)
Definition finally {A} (c : M A) (f : World -> World) : M A :=
fun w => let '(r, w') := c w in (r, f w').

Definition lift {A} (r : Result A) : M A := fun w => (r, w).

(** The in-page loops: each link is either skipped or pushed; resolving
  a link against the location of the page may throw. *)
Fixpoint pageScan (pick : DomAnchor -> Result (option Hit))
  (xs : list DomAnchor) (out : list Hit) : Result (list Hit) :=
match xs with
| [] => Ok out
| x :: xs' =>
    match pick x with
    | Threw e => Threw e
    | Ok None => pageScan pick xs' out
    | Ok (Some h) => pageScan pick xs' (out ++ [h])
    end
end.

(** [new URL(href, window.location.href).toString()] and the test
  [new URL(url).origin !== window.location.origin]. *)
Definition inPage (d : Dom) (a : DomAnchor)
  (k : jsstring -> option Hit) : Result (option Hit) :=
match default [] (d_href a) with
| [] => Ok None
| h =>
    match newURL h (Some (location_href d)) with
    | None => Threw (str "Invalid URL")
    | Some r =>
        let url := href r in
        match newURL url None with
        | None => Threw (str "Invalid URL")
        | Some u =>
            if negb (Js.eqb (origin u) (location_origin d)) then Ok None
            else Ok (k url)
        end
    end
end.

Definition hexDigit : regex := Set_ [rng "0" "9"; rng "a" "f"].

(** [/[0-9a-f]{8}-[0-9a-f]{4}-[0-9a-f]{4}-[0-9a-f]{4}-[0-9a-f]{12}/i] *)
Definition uuidRe : regex :=
Cat [ Times 8 hexDigit; Chr "-"; Times 4 hexDigit; Chr "-";
      Times 4 hexDigit; Chr "-"; Times 4 hexDigit; Chr "-";
      Times 12 hexDigit ].

(** [/\/job\/[0-9a-f-]{20,}/i] *)
Definition scalisJobRe : regex :=
Cat [Lit "/job/"; AtLeast 20 (Set_ [rng "0" "9"; rng "a" "f"; chr "-"])].

Definition ashbyScript (d : Dom) : Result (list Hit) :=
pageScan (fun a => inPage d a (fun url =>
  if negb (test true uuidRe url) then None
  else
    let title := squash (default [] (d_textContent a)) in
    match title with
    | [] => None
    | _ => Some (mkHit url title (squash (default [] (d_cardText a))))
    end)) (dom_anchors d) [].

(** [document.querySelectorAll('a[href*="/job/"]')] *)
Definition jobLinks (d : Dom) : list DomAnchor :=
List.filter (fun a => includes (str "/job/") (default [] (d_href a)))
  (dom_anchors d).

Definition workdayScript (d : Dom) : Result (list Hit) :=
pageScan (fun a => inPage d a (fun url =>
  let title := squash (default [] (d_textContent a)) in
  if length title <? 3 then None
  else Some (mkHit url title []))) (jobLinks d) [].

Definition scalisScript (d : Dom) : Result (list Hit) :=
pageScan (fun a => inPage d a (fun url =>
  if negb (test true scalisJobRe url) then None
  else
    let title := squash (default [] (d_textContent a)) in
    if length title <? 3 then None
    else Some (mkHit url title []))) (jobLinks d) [].

(** The loop over the hits: a hit whose URL has been seen is skipped,
  any other is recorded as seen and pushed with the time of the push. *)
Fixpoint stampNew (mk : Hit -> jsstring -> Job) (hits : list Hit)
  (seen : gset jsstring) (out : list Job) : M (list Job) :=
match hits with
| [] => ret out
| j :: hits' =>
    if decide (h_url j ∈ seen) then stampNew mk hits' seen out
    else t <- now ;; stampNew mk hits' ({[ h_url j ]} ∪ seen) (out ++ [mk j t])
end.

(** The session every rendering adapter opens and closes. *)
Definition rendered (careersUrl waitUntil : jsstring)
  (script : Dom -> Result (list Hit)) (mk : Hit -> jsstring -> Job)
: M (list Job) :=
browser <- launch ;;
page <- newPage browser ;;
finally
  (_ <- goto page careersUrl waitUntil ;;
   _ <- waitForTimeout page 1500 ;;
   d <- domOf page ;;
   jobs <- lift (script d) ;;
   stampNew mk jobs ∅ [])
  (fun w => closeBrowser browser (closePage page w)).

(** The crude location hint of [scrapeAshby]. *)
Definition ashbyLocation (cardText : jsstring) : jsstring :=
let ct := toLowerCase cardText in
if includes (str " remote ") ct || startsWith (str "remote") ct
then str "Remote"
else if includes (str " hybrid ") ct || startsWith (str "hybrid") ct
then str "Hybrid"
else str "Not listed".

Definition scrapeAshby (company careersUrl : jsstring) : M (list Job) :=
rendered careersUrl (str "domcontentloaded") ashbyScript
  (fun j => record (str "ashby") company careersUrl (clean (Some (h_title j)))
              (ashbyLocation (h_cardText j)) (h_url j)).

Definition scrapeWorkday (company careersUrl : jsstring) : M (list Job) :=
rendered careersUrl (str "networkidle") workdayScript
  (fun j => record (str "workday") company careersUrl (clean (Some (h_title j)))
              (str "Not listed") (h_url j)).

Definition scrapeScalis (company careersUrl : jsstring) : M (list Job) :=
rendered careersUrl (str "networkidle") scalisScript
  (fun j => record (str "scalis") company careersUrl (clean (Some (h_title j)))
              (str "Not listed") (h_url j)).

(** *** Orchestration *)

(** [try { c } catch (e) { ... }]: the outcome becomes a value. *)
Definition attempt {A} (c : M A) : M (Result A) :=
fun w => let '(r, w') := c w in (Ok r, w').

(** The chain of [if (source === ...)] of [main]: the status to start
  from and the jobs. *)
Definition dispatch (source : jsstring) (c : Company) : M (jsstring * list Job) :=
let name := c_company_name c in
let url := c_careers_url c in
let ok (adapter : M (list Job)) : M (jsstring * list Job) :=
  jobs <- adapter ;; ret (str "ok", jobs) in
if Js.eqb source (str "greenhouse") then ok (scrapeGreenhouse name url)
else if Js.eqb source (str "rippling") then ok (scrapeRippling name url)
else if Js.eqb source (str "breezy") then ok (scrapeBreezy name url)
else if Js.eqb source (str "built_in") then ok (scrapeBuiltIn name url)
else if Js.eqb source (str "ashby") then ok (scrapeAshby name url)
else if Js.eqb source (str "workday") then ok (scrapeWorkday name url)
else if Js.eqb source (str "scalis") then ok (scrapeScalis name url)
else if Js.eqb source (str "custom_html") then ok (scrapeCustomHtml name url)
else ret (str "unsupported", []).

(** One turn of the loop over the roster: the coverage record of the
  company and its jobs. *)
Definition visit (c : Company) : M (Coverage * list Job) :=
let source := detectSource (c_careers_url c) in
r <- attempt (dispatch source c) ;;
let '(status, error, jobs) :=
  match r with
  | Ok (status, jobs) => (status, [], jobs)
  | Threw e => (str "failed", e, [])
  end in
let status :=
  if Js.eqb status (str "ok") && (length jobs =? 0) then str "empty"
  else status in
t <- now ;;
ret ({| cov_portfolio := str "Active Capital";
        cov_company_name := c_company_name c;
        cov_company_careers_url := c_careers_url c;
        cov_source_type := source;
        cov_status := status;
        cov_open_roles_raw := length jobs;
        cov_error := error;
        cov_last_checked_utc := t |}, jobs).

Fixpoint visitAll (companies : list Company) (rawJobs : list Job)
  (coverage : list Coverage) : M (list Job * list Coverage) :=
match companies with
| [] => ret (rawJobs, coverage)
| c :: cs =>
    r <- visit c ;;
    visitAll cs (rawJobs ++ r.2) (coverage ++ [r.1])
end.

(** [j.job_key || `${j.source_type}:${j.source_job_id}` || sha1(j.job_url)] *)
Definition dedupKey (j : Job) : jsstring :=
if truthy (job_key j) then default [] (job_key j)
else
  match String_ (source_type j) ++ str ":" ++ String_ (source_job_id j) with
  | [] => sha1 (String_ (job_url j))
  | k => k
  end.

(** [main], from the roster [readCompanies] returned to the two values
    it hands to [fs.writeFile]; the calls of [fs] and of [console] are
    left out. *)
Definition main (companies : list Company) : M Written :=
r <- visitAll companies [] [] ;;
(* global de-dupe by job_key *)
let deduped := dedupe dedupKey r.1 in
ret {| raw_jobs_json := deduped; coverage_json := r.2 |}.

End Adapters.
End Scrape.
(** ** Notions used in the statements *)

Module Spec.
Import Js Re.

Section Kept.
Context {A K : Type} `{Countable K}.
Variable key : A -> K.

(** The elements a de-duplication keeps, given the keys already seen. *)
Fixpoint kept (seen : gset K) (l : list A) : list A :=
  match l with
  | [] => []
  | x :: l' =>
      if decide (key x ∈ seen) then kept seen l'
      else x :: kept ({[ key x ]} ∪ seen) l'
  end.

(** The first element of a list that carries a given key. *)
Definition first_with (k : K) (l : list A) : option A :=
  List.find (fun x => bool_decide (key x = k)) l.
End Kept.


(** A record as an adapter builds it, for the examples. *)
Definition posting (key title : string) : Job :=
  {| portfolio := Some (str "Active Capital");
     company_name := Some (str "Acme");
     company_careers_url := Some (str "https://acme.example.com/careers");
     job_title := Some (str title); job_location := Some (str "Not listed");
     job_url := Some (str "https://acme.example.com/jobs/1");
     source_type := Some (str "rippling");
     source_job_id := Some (str key);
     job_key := Some (str "rippling:" ++ str key);
     status := Some (str "open");
     last_seen_utc := Some (str "2024-01-01T00:00:00.000Z") |}.

(** A record that carries its [job_key]. *)
Definition keyed (j : Job) : Prop := truthy (job_key j) = true.

(** The eight source types [main] dispatches on. *)
Definition sources : list jsstring :=
  [ str "greenhouse"; str "ashby"; str "workday"; str "rippling";
    str "breezy"; str "built_in"; str "scalis"; str "custom_html" ].

(** The statuses of a coverage record other than [unsupported]. *)
Definition statuses : list jsstring := [str "ok"; str "empty"; str "failed"].

(** A record stamped with some time. *)
Definition stamped (mk : jsstring -> Job) (j : Job) : Prop :=
  exists t, j = mk t.

(** The coverage record of a roster row. *)
Definition covers (c : Company) (cov : Scrape.Coverage) : Prop :=
  Scrape.cov_company_name cov = c_company_name c
  /\ Scrape.cov_company_careers_url cov = c_careers_url c
  /\ Scrape.cov_source_type cov = Scrape.detectSource (c_careers_url c)
  /\ Scrape.cov_status cov ∈ statuses.

(** The entry of the company summary for a roster row, given the clean
    jobs: the name and the URL of the row, and the number of clean jobs
    whose [company_name] is that name. *)
Definition summarises (cleaned : list Job) (c : Company)
    (e : BuildSite.CompanyOut) : Prop :=
  BuildSite.co_company_name e = c_company_name c
  /\ BuildSite.co_company_careers_url e = c_careers_url c
  /\ BuildSite.open_roles e
     = length (filter (fun j => company_name j = Some (c_company_name c)) cleaned).

(** The jobs one of the three static-board adapters returns. *)
Definition static_board `{Scrape.Platform} (company careersUrl : jsstring)
    (w : Scrape.World) (jobs : list Job) : Prop :=
  exists w',
    Scrape.scrapeRippling company careersUrl w = (Scrape.Ok jobs, w')
    \/ Scrape.scrapeBreezy company careersUrl w = (Scrape.Ok jobs, w')
    \/ Scrape.scrapeBuiltIn company careersUrl w = (Scrape.Ok jobs, w').

(** [s] ends with [suffix]. *)
Definition endsWith (suffix s : jsstring) : bool :=
  startsWith (rev suffix) (rev s).

(** The record of the example of the specification: the title
    ["Account Exec - Remote"], with a given location and URL. *)
Definition accountExec (location url : option jsstring) : Job :=
  {| portfolio := Some (str "Active Capital");
     company_name := Some (str "Acme");
     company_careers_url := Some (str "https://acme.example.com/careers");
     job_title := Some (str "Account Exec - Remote");
     job_location := location;
     job_url := url;
     source_type := Some (str "ashby");
     source_job_id := Some (str "1");
     job_key := Some (str "ashby:1");
     status := Some (str "open");
     last_seen_utc := Some (str "2024-01-01T00:00:00.000Z") |}.

(** What the specification says of that record: it is accepted, its
    location is ["Remote"] or ["Remote — "] and a geo hint, and its title
    has lost the suffix ["- Remote"]. *)
Definition remote_suffix_stripped (job : Job) : Prop :=
  exists out title location,
    BuildSite.normalizeJob job = Some out
    /\ job_title out = Some title
    /\ job_location out = Some location
    /\ (location = str "Remote"
        \/ exists geo, location = BuildSite.dashed (str "Remote") geo)
    /\ endsWith (str "- Remote") title = false.

(** A roster and raw jobs for the examples. *)
Definition roster : list Company :=
  [ mkCompany (str "Acme") (str "https://acme.example.com/careers");
    mkCompany (str "Globex") (str "https://boards.greenhouse.io/globex") ].

End Spec.

(** A small platform on which the examples run. *)
Module Toy.
Import Js Re Scrape.

(** A stand-in for the digest. *)
Definition digest (s : jsstring) : jsstring := str "sha1/" ++ s.

Definition tick (w : nat) : jsstring * nat :=
  (str "2024-01-01T00:00:00.000Z", S w).

(** URLs of the form [https://host/path], and paths from the root
    resolved against such a base; for these the origin is
    [https://host] and the path is what follows it. *)
Fixpoint hostPath (s : jsstring) : jsstring * jsstring :=
  match s with
  | [] => ([], str "/")
  | c :: s' =>
      if (c =? 47)%N then ([], s)
      else let '(h, p) := hostPath s' in (c :: h, p)
  end.

Definition absolute (u : jsstring) : option Url :=
  if startsWith (str "https://") u then
    let '(h, p) := hostPath (drop 8 u) in
    Some (mkUrl (str "https://" ++ h ++ p) (str "https://" ++ h) p)
  else None.

Definition resolve (u : jsstring) (base : option jsstring) : option Url :=
  match absolute u with
  | Some r => Some r
  | None =>
      match base with
      | Some b =>
          match absolute b with
          | Some br =>
              if startsWith (str "/") u then absolute (origin br ++ u) else None
          | None => None
          end
      | None => None
      end
  end.

(** A link to another site, and a link that is listed twice. *)
Definition foreignLink : Anchor :=
  mkAnchor (Some (str "https://evil.example.net/p/123")) (str "Senior Engineer").

Definition listedLink : Anchor :=
  mkAnchor (Some (str "/jobs/ai-engineer")) (str "AI Engineer").

(** A platform that serves one page, with the given links, at every
    address, reports no job through the API and renders no link. *)
Definition platform (page : list Anchor) : Platform :=
  {| World := nat;
     sha1 := digest;
     newURL := resolve;
     nowISO := tick;
     fetchText := fun url w => (Ok (mkFetched true (str "200") url []), S w);
     anchorsOf := fun _ => page;
     fetchJobs := fun _ w => (Ok (mkGhReply true (str "200") []), S w);
     Browser := unit;
     Page := unit;
     launch := fun w => (Ok tt, w);
     newPage := fun _ w => (Ok tt, w);
     goto := fun _ _ _ w => (Ok tt, S w);
     waitForTimeout := fun _ _ w => (Ok tt, S w);
     domOf := fun _ w => (Ok (mkDom [] [] []), w);
     closePage := fun _ w => w;
     closeBrowser := fun _ w => w |}.

End Toy.

(** The stages of [normalizeJob], named, for the statements about it. *)
Module Stage.
Import Js Re BuildSite.

(** The rejection tests, on the cleaned title and the URL. *)
Definition rejects (job : Job) : bool :=
  let title := cleanText (job_title job) in
  (length title <? 3)
  || negb (looksLikeJobTitle title)
  || (truthy (job_url job) && test true junkUrlRe (default [] (job_url job)))
  || test false placeholderRe title.

(** The cuts at a newline, at a section header, and, for a long title,
    at a separator. *)
Definition cut (title : jsstring) : jsstring :=
  let title := trim (Js.splitHead [10%N] title) in
  let title := trim (Js.splitHead (str "Responsibilities") title) in
  let title := trim (Js.splitHead (str "Description") title) in
  let title := trim (Js.splitHead (str "About the role") title) in
  if 90 <? length title then
    trim (Js.splitHead (str " | ")
           (Js.splitHead (str " - ")
             (Js.splitHead [32%N; EM_DASH; 32%N] title)))
  else title.

(** The two department-suffix strips before work-mode detection. *)
Definition undept (title : jsstring) : jsstring :=
  trim (replace true deptDashRe erase (trim (replace true deptSpaceRe erase title))).

(** The cut at a bullet and the strip of compensation noise. *)
Definition tidy (title : jsstring) : jsstring :=
  let title :=
    if includes [BULLET] title then trim (Js.splitHead [BULLET] title)
    else title in
  trim (replace true fullTimeRe erase
         (replace true equityRe erase
           (replaceAll false poundRe erase
             (replaceAll false salaryRangeRe erase title)))).

Definition geoHint (title : jsstring) : jsstring :=
  match hint geoDashRe title with
  | Some g => g
  | None => default [] (hint geoParenRe title)
  end.

(** The last department strip. *)
Definition endDept (title : jsstring) : jsstring :=
  trim (replace true deptEndRe erase title).

Definition isRemote (title : jsstring) : bool := test false remoteRe (toLowerCase title).
Definition isHybrid (title : jsstring) : bool := test false hybridRe (toLowerCase title).
Definition isOnsite (title : jsstring) : bool := test false onsiteRe (toLowerCase title).

(** The location after the [forward deployed] test. *)
Definition located (location : jsstring) : jsstring :=
  if test true forwardDeployedRe location then NOT_LISTED else location.

Definition missingLoc (location : jsstring) : bool :=
  match location with
  | [] => true
  | _ => Js.eqb (toLowerCase location) (str "not listed")
  end.

(** The location of the result, from the location after the
    [forward deployed] test, the work mode and the geo hint. *)
Definition place (location : jsstring) (remote hybrid onsite : bool)
    (geo : jsstring) : jsstring :=
  let hasGeo := match geo with [] => false | _ => true end in
  let location :=
    if missingLoc location then
      if remote && hasGeo then dashed (str "Remote") geo
      else if remote then str "Remote"
      else if hybrid && hasGeo then dashed (str "Hybrid") geo
      else if hybrid then str "Hybrid"
      else if onsite && hasGeo then geo
      else if onsite then str "On-site"
      else if hasGeo then geo
      else location
    else
      if remote && negb (includes (str "remote") (toLowerCase location))
      then dashed (str "Remote") location
      else location in
  match location with [] => NOT_LISTED | _ => location end.

(** The title and the location of the result. *)
Definition titleOf (job : Job) : jsstring :=
  endDept (tidy (undept (cut (cleanText (job_title job))))).

Definition locationOf (job : Job) : jsstring :=
  let mid := undept (cut (cleanText (job_title job))) in
  place (located (cleanText (job_location job)))
        (isRemote mid) (isHybrid mid) (isOnsite mid) (geoHint (tidy mid)).

(** [{...job, job_title: title, job_location: location}] *)
Definition retitled (job : Job) (title location : jsstring) : Job :=
  {| portfolio := portfolio job;
     company_name := company_name job;
     company_careers_url := company_careers_url job;
     job_title := Some title;
     job_location := Some location;
     job_url := job_url job;
     source_type := source_type job;
     source_job_id := source_job_id job;
     job_key := job_key job;
     status := status job;
     last_seen_utc := last_seen_utc job |}.

(** *** Clean records

    The kinds of noise a title can carry, each told by the test the
    normalizer itself applies for it, on the cleaned title. *)

(** No deny-listed text. *)
Definition no_denylisted (t : jsstring) : bool := looksLikeJobTitle t.

(** No templating placeholder. *)
Definition no_placeholder (t : jsstring) : bool :=
  negb (test false placeholderRe t).

(** No separator: em-dash, hyphen or pipe between spaces, or bullet. *)
Definition no_separator (t : jsstring) : bool :=
  negb (includes [32%N; EM_DASH; 32%N] t)
  && negb (includes (str " - ") t)
  && negb (includes (str " | ") t)
  && negb (includes [BULLET] t).

(** No department suffix: neither a bare trailing department word nor a
    [- Word] suffix. *)
Definition no_department_suffix (t : jsstring) : bool :=
  negb (test true deptSpaceRe t)
  && negb (test true deptDashRe t)
  && negb (test true deptEndRe t).

(** No appended body copy: none of the section-header words. *)
Definition no_body_copy (t : jsstring) : bool :=
  negb (includes (str "Responsibilities") t)
  && negb (includes (str "Description") t)
  && negb (includes (str "About the role") t).

(** No compensation, equity or employment-type text. *)
Definition no_pay_noise (t : jsstring) : bool :=
  negb (test false salaryRangeRe t)
  && negb (test false poundRe t)
  && negb (test true equityRe t)
  && negb (test true fullTimeRe t).

(** The location is explicit: not empty and not the sentinel. *)
Definition explicit_location (job : Job) : bool :=
  negb (missingLoc (cleanText (job_location job))).

(** A clean record, with the kinds of noise the specification lists. *)
Definition already_clean_as_specified (job : Job) : bool :=
  let t := cleanText (job_title job) in
  no_denylisted t && no_placeholder t && no_separator t
  && no_department_suffix t && no_body_copy t && explicit_location job.

(** A clean record, with every kind of noise the normalizer removes. *)
Definition already_clean (job : Job) : bool :=
  already_clean_as_specified job && no_pay_noise (cleanText (job_title job)).

(** Normalizing the result of the normalizer gives that result again. *)
Definition renormalizes (job : Job) : Prop :=
  forall out, normalizeJob job = Some out -> normalizeJob out = Some out.

(** A title that starts with an employment type. *)
Definition fullTimeAssociate : Job :=
  {| portfolio := Some (str "Active Capital");
     company_name := Some (str "Acme");
     company_careers_url := Some (str "https://acme.example.com/careers");
     job_title := Some (str "Full Time Sales Associate");
     job_location := Some (str "Austin, TX");
     job_url := Some (str "https://acme.example.com/jobs/7");
     source_type := Some (str "custom_html");
     source_job_id := Some (str "7");
     job_key := Some (str "custom_html:7");
     status := Some (str "open");
     last_seen_utc := Some (str "2024-01-01T00:00:00.000Z") |}.

(** A clean record. *)
Definition dataEngineer : Job :=
  {| portfolio := Some (str "Active Capital");
     company_name := Some (str "Acme");
     company_careers_url := Some (str "https://acme.example.com/careers");
     job_title := Some (str "Remote Data Engineer (Austin)");
     job_location := Some (str "Austin, TX");
     job_url := Some (str "https://acme.example.com/jobs/8");
     source_type := Some (str "custom_html");
     source_job_id := Some (str "8");
     job_key := Some (str "custom_html:8");
     status := Some (str "open");
     last_seen_utc := Some (str "2024-01-01T00:00:00.000Z") |}.

End Stage.

(** Notions about white space, for the statements about [cleanText]. *)
Module Text.
Import Js.

(** Each run of white space replaced by one space; [skip] says that the
    code unit before was white space. *)
Fixpoint squeeze (skip : bool) (s : jsstring) : jsstring :=
  match s with
  | [] => []
  | c :: s' =>
      if is_space c then
        if skip then squeeze true s' else 32%N :: squeeze true s'
      else c :: squeeze false s'
  end.

Definition starts_space (s : jsstring) : bool :=
  match s with c :: _ => is_space c | [] => false end.

(** All white space is single spaces. *)
Fixpoint single_spaced (s : jsstring) : bool :=
  match s with
  | [] => true
  | c :: s' =>
      (negb (is_space c) || ((c =? 32)%N && negb (starts_space s')))
      && single_spaced s'
  end.

(** No white space at either end. *)
Definition trimmed (s : jsstring) : bool :=
  negb (starts_space s) && negb (starts_space (rev s)).

(** A text as [cleanText] leaves it. *)
Definition tidy_text (s : jsstring) : bool := single_spaced s && trimmed s.

End Text.

(** Notions about the matcher, for the statements about it. *)
Module ReSpec.
Import Js Re.

(** The pattern has no [^]. *)
Fixpoint bol_free (r : regex) : bool :=
  match r with
  | Bol => false
  | Seq r1 r2 | Alt r1 r2 => bol_free r1 && bol_free r2
  | Star r1 | Group _ r1 => bol_free r1
  | _ => true
  end.

(** Two positions with the same input ahead and the same kind of code
    unit behind. *)
Definition same_side (p q : pos) : Prop :=
  rest p = rest q /\ word_before p = word_before q.

(** Two outcomes that are both a match or both a failure. *)
Definition agree {A B} (x : option A) (y : option B) : Prop :=
  is_Some x <-> is_Some y.

End ReSpec.

(** More notions about the matcher and about texts. *)
Module ReMore.
Import Js Re Text.

(** The pattern ends with [$]: every match reaches the end of the input. *)
Fixpoint eol_ended (r : regex) : bool :=
  match r with
  | Eol => true
  | Seq r1 r2 => match r2 with Eps => eol_ended r1 | _ => eol_ended r2 end
  | Alt r1 r2 => eol_ended r1 && eol_ended r2
  | Group _ r1 => eol_ended r1
  | _ => false
  end.

(** A head of a text that does not start with white space: it does not
    start with white space either. *)
Definition head_of (t s : jsstring) : Prop :=
  starts_space s = false -> starts_space t = false /\ exists n, t = take n s.

(** A field that is missing, empty or all white space. *)
Definition blank (x : option jsstring) : bool :=
  forallb is_space (default [] x).

End ReMore.

(** Records for the examples. *)
Module Samples.
Import Js BuildSite.

(** A title with a bullet, an employment type and a department word
    after the role, and no location. *)
Definition noisy : Job :=
  {| portfolio := Some (str "Active Capital");
     company_name := Some (str "Acme");
     company_careers_url := Some (str "https://acme.example.com/careers");
     job_title :=
       Some (str "  Staff Engineer - Remote (Austin) " ++ [BULLET]
             ++ str " Full-time  Engineering");
     job_location := None;
     job_url := Some (str "https://acme.example.com/jobs/9");
     source_type := Some (str "custom_html");
     source_job_id := Some (str "9");
     job_key := Some (str "custom_html:9");
     status := Some (str "open");
     last_seen_utc := Some (str "2024-01-01T00:00:00.000Z") |}.

(** What the normalizer makes of it. *)
Definition noisy_out : Job :=
  {| portfolio := portfolio noisy;
     company_name := company_name noisy;
     company_careers_url := company_careers_url noisy;
     job_title := Some (str "Staff Engineer - Remote (Austin)");
     job_location := Some (dashed (str "Remote") (str "Remote (Austin)"));
     job_url := job_url noisy;
     source_type := source_type noisy;
     source_job_id := source_job_id noisy;
     job_key := job_key noisy;
     status := status noisy;
     last_seen_utc := last_seen_utc noisy |}.

(** The department words of the patterns of [normalizeJob]. *)
Definition departments : list jsstring :=
  [ str "Engineering"; str "Marketing"; str "Sales"; str "Product";
    str "Operations"; str "Finance"; str "People"; str "Legal";
    str "Design"; str "Support" ].

(** A record whose title is a department word. *)
Definition salesOnly : Job :=
  {| portfolio := Some (str "Active Capital");
     company_name := Some (str "Acme");
     company_careers_url := Some (str "https://acme.example.com/careers");
     job_title := Some (str " Sales ");
     job_location := Some (str "Austin, TX");
     job_url := Some (str "https://acme.example.com/jobs/10");
     source_type := Some (str "custom_html");
     source_job_id := Some (str "10");
     job_key := Some (str "custom_html:10");
     status := Some (str "open");
     last_seen_utc := Some (str "2024-01-01T00:00:00.000Z") |}.

End Samples.

(** ** [readCompanies], in both files *)

(** A record of [data/companies.csv] as [csv-parse] returns it with
    [columns: true]: an object with a field per column of the header; a
    column the header does not have is a missing field. *)
Record Row := mkRow {
  r_company_name : option Js.jsstring;
  r_careers_url : option Js.jsstring
}.

(** [readCompanies] of [src/scrape.mjs], from the parsed rows. *)
Module ScrapeRoster.
Import Js Scrape.

Definition readCompanies (rows : list Row) : list Company :=
  List.filter
    (fun r => truthy (Some (c_company_name r)) && truthy (Some (c_careers_url r)))
    (List.map (fun r => {| c_company_name := clean (r_company_name r);
                           c_careers_url := clean (r_careers_url r) |}) rows).

End ScrapeRoster.

(** [readCompanies] of [src/build_site.mjs], from the parsed rows. *)
Module BuildSiteRoster.
Import Js BuildSite.

Definition readCompanies (rows : list Row) : list Company :=
  List.filter
    (fun r => truthy (Some (c_company_name r)) && truthy (Some (c_careers_url r)))
    (List.map (fun r => {| c_company_name := cleanText (r_company_name r);
                           c_careers_url := cleanText (r_careers_url r) |}) rows).

End BuildSiteRoster.

(** Where a record of the scrape pass comes from. *)
Module Origin.
Import Js Re Scrape Text.

Section Origin.
Context `{Platform}.

(** The three locations an adapter that scans links gives. *)
Definition sentinels : list jsstring :=
  [str "Not listed"; str "Remote"; str "Hybrid"].

(** A record as an adapter that scans links builds it for a roster row:
    the identifier and the key come from the job URL, the title is not
    empty and has no white space at either end. *)
Definition link_made (source : jsstring) (c : Company) (j : Job) : Prop :=
  exists title location url t,
    j = record source (c_company_name c) (c_careers_url c) title location url t
    /\ title <> []
    /\ trimmed title = true
    /\ location ∈ sentinels.

(** A record as the API adapter builds it for a roster row: one that
    passed the filter on [job_url]. *)
Definition api_made (c : Company) (j : Job) : Prop :=
  exists g t,
    j = greenhouseRecord (c_company_name c) (c_careers_url c) g t
    /\ truthy (job_url j) = true.

Definition made (source : jsstring) (c : Company) (j : Job) : Prop :=
  if Js.eqb source (str "greenhouse") then api_made c j
  else link_made source c j.

(** A hit as the in-page scripts push it: the URL parses and is of the
    origin of the document, the title is squashed and not empty. *)
Definition same_document (d : Dom) (h : Hit) : Prop :=
  (exists u, newURL (h_url h) None = Some u /\ origin u = location_origin d)
  /\ h_title h <> []
  /\ exists text, h_title h = squash text.

(** The outcome of a company whose extraction failed. *)
Definition failed_with (c : Company) (e : jsstring) (cov : Coverage) : Prop :=
  cov_company_name cov = c_company_name c
  /\ cov_status cov = str "failed"
  /\ cov_error cov = e
  /\ cov_open_roles_raw cov = 0.

(** The three shapes of a coverage record. *)
Definition accounted (cov : Coverage) : Prop :=
  (cov_status cov = str "ok" /\ 0 < cov_open_roles_raw cov /\ cov_error cov = [])
  \/ (cov_status cov = str "empty" /\ cov_open_roles_raw cov = 0
      /\ cov_error cov = [])
  \/ (cov_status cov = str "failed" /\ cov_open_roles_raw cov = 0).

End Origin.
End Origin.

(** A platform for the examples that keeps a log of what is done to it. *)
Module Bench.
Import Js Re Scrape.

Record Setup := mkSetup {
  page_ok : bool;
  page_links : list Anchor;
  api_reply : Result GhReply;
  opens : bool;
  document : Result Dom
}.

Definition log (event : string) (w : list jsstring) : list jsstring :=
  str event :: w.

(** The world is the log, the last event first. *)
Definition platform (s : Setup) : Platform :=
  {| World := list jsstring;
     sha1 := Toy.digest;
     newURL := Toy.resolve;
     nowISO := fun w => (str "2024-01-01T00:00:00.000Z", w);
     fetchText := fun url w =>
       (Ok (mkFetched (page_ok s) (if page_ok s then str "200" else str "503")
              url []), log "fetch" w);
     anchorsOf := fun _ => page_links s;
     fetchJobs := fun _ w => (api_reply s, log "fetch" w);
     Browser := unit;
     Page := unit;
     launch := fun w => (Ok tt, log "launch" w);
     newPage := fun _ w =>
       (if opens s then Ok tt else Threw (str "Target closed"), log "newPage" w);
     goto := fun _ _ _ w => (Ok tt, log "goto" w);
     waitForTimeout := fun _ _ w => (Ok tt, w);
     domOf := fun _ w => (document s, log "evaluate" w);
     closePage := fun _ w => log "page.close" w;
     closeBrowser := fun _ w => log "browser.close" w |}.

(** A board that is down. *)
Definition down : Setup := mkSetup false [] (Threw (str "fetch failed")) true
                             (Threw (str "Execution context was destroyed")).

(** A board whose browser does not give a page. *)
Definition stuck : Setup := mkSetup true [] (Ok (mkGhReply true (str "200") []))
                              false (Ok (mkDom [] [] [])).

(** A rendered board with one job link listed twice and one link that
    does not resolve. *)
Definition jobLink : DomAnchor :=
  mkDomAnchor (Some (str "/job/0a1b2c3d-0a1b-0a1b-0a1b-0a1b2c3d4e5f"))
    (Some (str " Staff   Engineer ")) (Some (str "Remote - Austin")).

Definition brokenLink : DomAnchor :=
  mkDomAnchor (Some (str "mailto")) (Some (str "Write to us")) None.

Definition board (links : list DomAnchor) : Setup :=
  mkSetup true [] (Ok (mkGhReply true (str "200") [])) true
    (Ok (mkDom (str "https://jobs.ashbyhq.com/acme") (str "https://jobs.ashbyhq.com")
           links)).

(** A board behind the API with two entries, one without a URL. *)
Definition listing : Setup :=
  mkSetup true []
    (Ok (mkGhReply true (str "200")
           [ mkGhJob (Some (str " Data  Engineer ")) None
               (Some (str "https://boards.greenhouse.io/globex/jobs/1"))
               (Some (str "1"));
             mkGhJob (Some (str "Ghost")) None None (Some (str "2")) ]))
    true (Ok (mkDom [] [] [])).

Definition acme (url : string) : Company := mkCompany (str "Acme") (str url).

End Bench.

(** How an adapter fails. *)
Module Failure.
Import Js Re Scrape.

Section Failure.
Context `{Platform}.

(** A link of the rendered document that makes the in-page script
    throw: its [href] is not empty and does not resolve against the
    location of the document, or what it resolves to does not parse. *)
Definition unresolvable (d : Dom) (a : DomAnchor) : Prop :=
  default [] (d_href a) <> []
  /\ match newURL (default [] (d_href a)) (Some (location_href d)) with
     | None => True
     | Some r => newURL (href r) None = None
     end.

(** The page could not be had: the request threw, or the answer was not
    OK and the adapter threw the message with the given prefix. *)
Definition fetch_failed (prefix : string) (url : jsstring) (w : World)
    (e : jsstring) (w' : World) : Prop :=
  fetchText url w = (Threw e, w')
  \/ exists r, fetchText url w = (Ok r, w') /\ f_ok r = false
       /\ e = str prefix ++ f_status r.

(** The three adapters that render the page in a browser. *)
Definition renderers : list (jsstring -> jsstring -> M (list Job)) :=
  [scrapeAshby; scrapeWorkday; scrapeScalis].

End Failure.
End Failure.

(** What the specification says of the key of the global
    de-duplication. *)
Module KeySpec.
Import Js Scrape.

Section KeySpec.
Context `{Platform}.



End KeySpec.


End KeySpec.

(** * Properties *)
Import Js Re Spec Scrape.

Section DedupeFacts.
Context {A K : Type} `{Countable K}.
Variable key : A -> K.

Lemma dedupe_from_kept l : forall seen out,
  (dedupe_from key (seen, out) l).2 = out ++ kept key seen l.
Proof.
  induction l as [|x l IH]; intros seen out; simpl.
  - by rewrite app_nil_r.
  - unfold dedupe_from in *. cbn [foldl].
    unfold dedupe_step at 2. cbn [fst snd].
    destruct (decide (key x ∈ seen)).
    + apply IH.
    + rewrite IH.
      by rewrite <- app_assoc.
Qed.

Lemma dedupe_kept l : dedupe key l = kept key ∅ l.
Proof. unfold dedupe. by rewrite dedupe_from_kept. Qed.

Lemma kept_sublist l : forall seen, sublist (kept key seen l) l.
Proof.
  induction l as [|x l IH]; intros seen; simpl; [constructor|].
  destruct (decide (key x ∈ seen)).
  - apply sublist_cons, IH.
  - apply sublist_skip, IH.
Qed.

Lemma kept_fresh l : forall seen x, x ∈ kept key seen l -> key x ∉ seen.
Proof.
  induction l as [|y l IH]; intros seen x; simpl; [by intros ?%elem_of_nil|].
  destruct (decide (key y ∈ seen)).
  - apply IH.
  - intros [->|Hin]%elem_of_cons; [done|].
    apply IH in Hin. rewrite elem_of_union in Hin. tauto.
Qed.

Lemma kept_NoDup l : forall seen, NoDup (key <$> kept key seen l).
Proof.
  induction l as [|x l IH]; intros seen; simpl; [constructor|].
  destruct (decide (key x ∈ seen)); [apply IH|].
  rewrite fmap_cons. constructor; [|apply IH].
  intros (y & Hk & Hin)%list_elem_of_fmap.
  apply kept_fresh in Hin. apply Hin.
  rewrite elem_of_union, elem_of_singleton. by left.
Qed.

Lemma kept_first l : forall seen k,
  k ∉ seen -> first_with key k (kept key seen l) = first_with key k l.
Proof.
  induction l as [|x l IH]; intros seen k Hk; simpl; [done|].
  destruct (decide (key x ∈ seen)) as [Hx|Hx].
  - rewrite IH by done.
    case_bool_decide; [congruence|done].
  - simpl. case_bool_decide as Hkx; [done|].
    apply IH. rewrite elem_of_union, elem_of_singleton.
    intros [->|?]; done.
Qed.

Lemma dedupe_sublist l : sublist (dedupe key l) l.
Proof. rewrite dedupe_kept. apply kept_sublist. Qed.

Lemma dedupe_NoDup l : NoDup (key <$> dedupe key l).
Proof. rewrite dedupe_kept. apply kept_NoDup. Qed.

Lemma dedupe_first l k :
  first_with key k (dedupe key l) = first_with key k l.
Proof. rewrite dedupe_kept. apply kept_first, not_elem_of_empty. Qed.
End DedupeFacts.

Lemma dedupKey_job_key `{Platform} (j : Job) :
  truthy (job_key j) = true -> job_key j = Some (dedupKey j).
Proof.
  unfold dedupKey. intros Hk. rewrite Hk.
  destruct (job_key j) as [[|c k]|]; done.
Qed.


(** ** Strings *)

Lemma eqb_eq (a b : jsstring) : Js.eqb a b = true <-> a = b.
Proof.
  revert b. induction a as [|x a IH]; intros [|y b]; simpl; try done.
  rewrite andb_true_iff, N.eqb_eq, IH. split.
  - by intros [-> ->].
  - intros [= -> ->]. done.
Qed.

Lemma eqb_refl (a : jsstring) : Js.eqb a a = true.
Proof. by apply eqb_eq. Qed.

(** ** The loops of the scrape pass *)

Section ScrapeFacts.
Context `{Platform}.

(** What a link loop returns: one record per link picked, in order, each
    stamped with some time; the loop never throws. *)
Lemma scan_spec {X} (pick : X -> option (jsstring -> Job)) xs :
  forall out w, exists pl w',
    scan pick xs out w = (Ok (out ++ pl), w')
    /\ Forall2 stamped (omap pick xs) pl.
Proof.
  induction xs as [|x xs IH]; intros out w; simpl.
  - exists [], w. by rewrite app_nil_r.
  - destruct (pick x) as [mk|]; [|apply IH].
    unfold bind, now. destruct (nowISO w) as [t w1].
    destruct (IH (out ++ [mk t]) w1) as (pl & w' & -> & Hpl).
    exists (mk t :: pl), w'. rewrite <- app_assoc. split; [done|].
    constructor; [by exists t|done].
Qed.

(** The classifier answers with one of the eight names [main] knows. *)
Lemma detectSource_known url : detectSource url ∈ sources.
Proof.
  unfold detectSource, sources.
  repeat match goal with
         | |- context [if ?b then _ else _] => destruct b
         end; set_solver.
Qed.

(** For each of the eight names [main] calls an adapter, and starts
    from the status [ok]. *)
Lemma dispatch_known source c :
  source ∈ sources ->
  exists adapter : M (list Job),
    dispatch source c = bind adapter (fun jobs => ret (str "ok", jobs)).
Proof.
  unfold sources. intros Hin.
  repeat (apply elem_of_cons in Hin as [->|Hin]; [eexists; reflexivity|]).
  by apply elem_of_nil in Hin.
Qed.

Lemma visit_spec c w :
  exists cov jobs w',
    visit c w = (Ok (cov, jobs), w') /\ covers c cov.
Proof.
  unfold visit.
  destruct (dispatch_known _ c (detectSource_known (c_careers_url c)))
    as (adapter & ->).
  unfold bind at 1. unfold attempt, bind at 1.
  destruct (adapter w) as [[jobs|e] w1]; simpl;
    unfold bind, now; destruct (nowISO w1) as [t w2]; simpl;
    eexists _, _, _; (split; [reflexivity|]);
    unfold covers, statuses; simpl; repeat split; try done.
  - destruct (length jobs =? 0); set_solver.
  - set_solver.
Qed.

Lemma visitAll_spec cs : forall raw cov w,
  exists raw' new w',
    visitAll cs raw cov w = (Ok (raw', cov ++ new), w')
    /\ Forall2 covers cs new.
Proof.
  induction cs as [|c cs IH]; intros raw cov w; simpl.
  - exists raw, [], w. by rewrite app_nil_r.
  - unfold bind. destruct (visit_spec c w) as (cv & jobs & w1 & -> & Hc).
    simpl. destruct (IH (raw ++ jobs) (cov ++ [cv]) w1)
      as (raw' & new & w' & -> & Hnew).
    exists raw', (cv :: new), w'. rewrite <- app_assoc. split; [done|].
    by constructor.
Qed.

(** [main] does not throw, and writes one coverage record per roster
    row, in the order of the roster. *)
Lemma main_spec companies w :
  exists written w',
    Scrape.main companies w = (Ok written, w')
    /\ Forall2 covers companies (coverage_json written).
Proof.
  unfold Scrape.main, bind.
  destruct (visitAll_spec companies [] [] w) as (raw & new & w' & -> & Hc).
  simpl. eexists _, _. split; [reflexivity|]. done.
Qed.
End ScrapeFacts.

(** C9.  The classifier is total and answers with one of the eight source
    types [main] dispatches on; so [main] never takes its
    [status = "unsupported"] branch: for every roster, on every platform
    and from every state of the world, [main] completes and every
    coverage record has the status [ok], [empty] or [failed]. *)
Theorem classifier_total_never_unsupported `{Platform} :
  (forall url, detectSource url ∈ sources)
  /\ forall (companies : list Company) (w : World),
       exists written w',
         Scrape.main companies w = (Ok written, w')
         /\ Forall (fun cov => cov_status cov ∈ statuses)
                   (coverage_json written).
Proof.
  split; [apply detectSource_known|].
  intros companies w.
  destruct (main_spec companies w) as (written & w' & Hm & Hc).
  exists written, w'. split; [done|].
  clear Hm. induction Hc as [|c cov cs covs Hcov _ IH]; constructor; [|done].
  apply Hcov.
Qed.

(** ** The normalizer, stage by stage *)

Import BuildSite Stage.

Lemma normalizeJob_stages (job : Job) :
  normalizeJob job =
  if rejects job then None
  else Some (retitled job (titleOf job) (locationOf job)).
Proof.
  unfold normalizeJob, rejects.
  destruct (length (cleanText (job_title job)) <? 3); [reflexivity|].
  destruct (negb (looksLikeJobTitle (cleanText (job_title job))));
    [reflexivity|].
  destruct (truthy (job_url job)
            && test true junkUrlRe (default [] (job_url job)));
    [reflexivity|].
  destruct (test false placeholderRe (cleanText (job_title job)));
    [reflexivity|].
  cbv [orb].
  unfold titleOf, locationOf, retitled, place, located, missingLoc,
    isRemote, isHybrid, isOnsite, geoHint, endDept, tidy, undept, cut.
  reflexivity.
Qed.

Lemma placeholder_rejected (job : Job) :
  test false placeholderRe (cleanText (job_title job)) = true ->
  normalizeJob job = None.
Proof.
  intros Hp. rewrite normalizeJob_stages. unfold rejects.
  rewrite Hp, !orb_true_r. reflexivity.
Qed.

(** ** The build pass *)

Lemma sift_from raw : forall cleaned rejected,
  foldl sort_out (cleaned, rejected) raw
  = (cleaned ++ omap normalizeJob raw,
     rejected ++ filter (fun j => normalizeJob j = None) raw).
Proof.
  induction raw as [|j raw IH]; intros cleaned rejected; simpl.
  - by rewrite !app_nil_r.
  - unfold sort_out at 2. rewrite filter_cons.
    destruct (decide (normalizeJob j = None)) as [Hn|Hn].
    + rewrite Hn. simpl. rewrite IH. by rewrite <- app_assoc.
    + destruct (normalizeJob j) as [nj|]; [|done].
      simpl. rewrite IH. by rewrite <- app_assoc.
Qed.

Lemma sift_spec raw :
  sift raw = (omap normalizeJob raw,
              filter (fun j => normalizeJob j = None) raw).
Proof. unfold sift. by rewrite sift_from. Qed.

(** C4.  The normalizer is a total function from raw records to an
    accepted record or a rejection: nothing is raised.  The loop of the
    build pass puts the normalized form of every accepted record in the
    clean list and, for every rejection, the raw record itself, as it was
    read, in the rejected list, which is what [main] writes to
    [rejected_jobs.json].  A record whose title is ["%TEMPLATE_TITLE%"]
    is rejected, whatever its other fields, and so is in the rejected
    list as it was read. *)
Theorem rejection_keeps_raw_record :
  (forall raw : list Job,
     (sift raw).1 = omap normalizeJob raw
     /\ (sift raw).2 = filter (fun r => normalizeJob r = None) raw)
  /\ (forall sortJobs companies raw stamp out,
        BuildSite.main sortJobs companies raw stamp = Some out ->
        rejected_jobs_json out = filter (fun r => normalizeJob r = None) raw)
  /\ (forall (raw : list Job) (j : Job),
        j ∈ raw ->
        job_title j = Some (str "%TEMPLATE_TITLE%") ->
        normalizeJob j = None /\ j ∈ (sift raw).2).
Proof.
  split; [|split].
  - intros raw. by rewrite sift_spec.
  - intros sortJobs companies raw stamp out. unfold BuildSite.main.
    rewrite sift_spec. destruct (sortJobs _); [|done].
    by intros [= <-].
  - intros raw j Hin Ht.
    assert (Hj : normalizeJob j = None).
    { apply placeholder_rejected. rewrite Ht. by vm_compute. }
    split; [done|]. rewrite sift_spec.
    by apply list_elem_of_filter.
Qed.

Lemma rejection_keeps_raw_record_witness :
  let raw := [posting "a" "Data Engineer"; posting "b" "%TEMPLATE_TITLE%"] in
  posting "b" "%TEMPLATE_TITLE%" ∈ raw
  /\ (sift raw).2 = [posting "b" "%TEMPLATE_TITLE%"]
  /\ normalizeJob (posting "b" "%TEMPLATE_TITLE%") = None.
Proof.
  intros raw.
  assert (Hin : posting "b" "%TEMPLATE_TITLE%" ∈ raw) by (right; left).
  split; [done|]. split; [vm_compute; reflexivity|].
  apply (proj2 (proj2 rejection_keeps_raw_record) raw _ Hin). reflexivity.
Defined.

Lemma index_zero (companies : list Company) :
  forall (idx : gmap (option jsstring) nat) k,
    default 0 (idx !! k) = 0 ->
    default 0 (foldl (fun (idx : gmap (option jsstring) nat) c =>
                        <[Some (c_company_name c) := 0]> idx) idx companies !! k)
    = 0.
Proof.
  induction companies as [|c cs IH]; intros idx k Hk; simpl; [done|].
  apply IH. destruct (decide (Some (c_company_name c) = k)) as [<-|Hne].
  - by rewrite lookup_insert_eq.
  - by rewrite lookup_insert_ne.
Qed.

Lemma count_jobs (cleaned : list Job) :
  forall (idx : gmap (option jsstring) nat) k,
    default 0 (foldl (fun (idx : gmap (option jsstring) nat) j =>
                        <[company_name j := default 0 (idx !! company_name j) + 1]> idx)
                     idx cleaned !! k)
    = default 0 (idx !! k)
      + length (filter (fun j => company_name j = k) cleaned).
Proof.
  induction cleaned as [|j js IH]; intros idx k; simpl; [lia|].
  rewrite IH, filter_cons.
  destruct (decide (company_name j = k)) as [<-|Hne].
  - rewrite lookup_insert_eq. simpl. lia.
  - by rewrite lookup_insert_ne.
Qed.

Lemma byCompany_count companies cleaned k :
  default 0 (byCompany companies cleaned !! k)
  = length (filter (fun j => company_name j = k) cleaned).
Proof.
  unfold byCompany. rewrite count_jobs, index_zero; [done|].
  by rewrite lookup_empty.
Qed.

Lemma companiesOut_spec companies cleaned :
  Forall2 (summarises cleaned) companies (companiesOut companies cleaned).
Proof.
  unfold companiesOut.
  generalize (byCompany_count companies cleaned).
  generalize (byCompany companies cleaned). intros idx Hidx.
  induction companies as [|c cs IH]; simpl; constructor; [|done].
  unfold summarises; simpl. by rewrite Hidx.
Qed.

(** C2.  For every roster, the scrape pass completes, on every platform
    and from every state of the world, and its coverage report holds one
    record per roster row, in roster order, each with the name and the
    URL of its row, whatever the outcome of the extraction.  The company
    summary the build pass writes holds one entry per roster row, in
    roster order, and the [open_roles] of an entry is the number of clean
    jobs whose [company_name] is the name of the row: 0 when there is
    none. *)
Theorem one_record_per_company `{Platform} (companies : list Company) :
  (forall w : World, exists written w',
      Scrape.main companies w = (Ok written, w')
      /\ Forall2 covers companies (coverage_json written))
  /\ (forall sortJobs raw stamp out,
        BuildSite.main sortJobs companies raw stamp = Some out ->
        Forall2 (summarises (sift raw).1) companies (companies_json out))
  /\ (forall cleaned c e,
        summarises cleaned c e ->
        (forall j, j ∈ cleaned -> company_name j <> Some (c_company_name c)) ->
        open_roles e = 0).
Proof.
  split; [apply main_spec|]. split.
  - intros sortJobs raw stamp out Hmain.
    unfold BuildSite.main in Hmain. destruct (sift raw) as [cleaned rejected].
    destruct (sortJobs cleaned); [|done].
    injection Hmain as <-. apply companiesOut_spec.
  - intros cleaned c e (_ & _ & ->) Hnone.
    induction cleaned as [|j js IH]; [done|].
    rewrite filter_cons, decide_False.
    + apply IH. intros j' Hj'. apply Hnone. by right.
    + apply Hnone. by left.
Qed.

Lemma one_record_per_company_witness :
  let raw := [posting "a" "Data Engineer"; posting "b" "%TEMPLATE_TITLE%"] in
  exists out,
    BuildSite.main Some roster raw (str "2024-01-01T00:00:00.000Z") = Some out
    /\ Forall2 (summarises (sift raw).1) roster (companies_json out)
    /\ open_roles <$> companies_json out = [1; 0].
Proof.
  intros raw. eexists. split; [vm_compute; reflexivity|].
  split; [|vm_compute; reflexivity].
  apply (proj1 (proj2 (@one_record_per_company (Toy.platform []) roster))
           Some raw (str "2024-01-01T00:00:00.000Z")).
  vm_compute. reflexivity.
Defined.

(** ** Examples of the normalizer *)

(** C7, as stated, fails: the record with the title
    ["Account Exec - Remote"] and no location is accepted with the
    location ["Remote — Remote"], but its title is returned as it came:
    no stage of the normalizer removes a [- Region] suffix, it only reads
    the geo hint from it. *)
Lemma remote_suffix_is_kept : ~ remote_suffix_stripped (accountExec None None).
Proof.
  intros (out & title & location & Hn & Ht & _ & _ & Hs).
  vm_compute in Hn. injection Hn as <-.
  injection Ht as <-. vm_compute in Hs. discriminate.
Qed.

(** C7, amended.  A record with the title ["Account Exec - Remote"]
    whose location is missing or the sentinel, and whose URL is not on
    the deny-list, is accepted; its location becomes ["Remote — Remote"]
    (remote work mode, and the geo hint ["Remote"] read from the suffix),
    and its title is unchanged. *)
Theorem account_exec_remote (job : Job) :
  job_title job = Some (str "Account Exec - Remote") ->
  missingLoc (located (cleanText (job_location job))) = true ->
  truthy (job_url job) && test true junkUrlRe (default [] (job_url job)) = false ->
  normalizeJob job
  = Some (retitled job (str "Account Exec - Remote")
            (dashed (str "Remote") (str "Remote"))).
Proof.
  intros Ht Hl Hu. rewrite normalizeJob_stages.
  unfold rejects, titleOf, locationOf. rewrite Ht, Hu.
  change (cleanText (Some (str "Account Exec - Remote")))
    with (str "Account Exec - Remote").
  replace (undept (cut (str "Account Exec - Remote")))
    with (str "Account Exec - Remote") by (by vm_compute).
  unfold place. rewrite Hl.
  by vm_compute.
Qed.

Lemma account_exec_remote_witness :
  normalizeJob (accountExec (Some (str "Not listed")) None)
  = Some (retitled (accountExec (Some (str "Not listed")) None)
            (str "Account Exec - Remote")
            (dashed (str "Remote") (str "Remote"))).
Proof.
  apply account_exec_remote; vm_compute; reflexivity.
Defined.

(** C10.  The normalizer rejects exactly when one of its gates fires, and
    the gates read the cleaned original title (and the URL) only: the
    title that results from the cuts and strips is not tested again.  So
    a record whose title is the single department word ["Design"] is
    accepted, with the empty string as its title. *)
Theorem gates_read_original_title_only :
  (forall job, normalizeJob job = None <-> rejects job = true)
  /\ (forall job, rejects job = false ->
        normalizeJob job = Some (retitled job (titleOf job) (locationOf job)))
  /\ exists job out,
       job_title job = Some (str "Design")
       /\ normalizeJob job = Some out
       /\ job_title out = Some [].
Proof.
  split; [|split].
  - intros job. rewrite normalizeJob_stages. by destruct (rejects job).
  - intros job Hr. by rewrite normalizeJob_stages, Hr.
  - exists (mkJob None (Some (str "Acme")) None (Some (str "Design")) None
              None None None None None None).
    eexists. split; [reflexivity|]. split; [vm_compute; reflexivity|].
    reflexivity.
Qed.

(** ** The adapters *)

Section AdapterFacts.
Context `{Platform}.

Lemma sameOriginOnly_origin baseUrl url :
  sameOriginOnly baseUrl url = true ->
  origin <$> newURL url None = origin <$> newURL baseUrl None.
Proof.
  unfold sameOriginOnly.
  destruct (newURL baseUrl None) as [b|]; [|done].
  destruct (newURL url None) as [u|]; [|done].
  intros Ho%eqb_eq. simpl. by rewrite Ho.
Qed.

Lemma ripplingAnchor_pick company careersUrl a mk :
  ripplingAnchor company careersUrl a = Some mk ->
  exists url title,
    absUrl careersUrl (default [] (a_href a)) = Some url
    /\ sameOriginOnly careersUrl url = true
    /\ mk = record (str "rippling") company careersUrl title
              (str "Not listed") url.
Proof.
  unfold ripplingAnchor.
  destruct (negb (includes _ _)); [done|].
  destruct (absUrl careersUrl _) as [url|] eqn:Ha; [|done].
  destruct (sameOriginOnly careersUrl url) eqn:Ho; [|done]. cbn [negb].
  destruct (clean _) as [|c t]; [done|].
  intros [= <-]. by eexists _, _.
Qed.

Lemma breezyAnchor_pick company careersUrl a mk :
  breezyAnchor company careersUrl a = Some mk ->
  exists url title,
    absUrl careersUrl (default [] (a_href a)) = Some url
    /\ sameOriginOnly careersUrl url = true
    /\ mk = record (str "breezy") company careersUrl title
              (str "Not listed") url.
Proof.
  unfold breezyAnchor.
  destruct (negb (includes _ _)); [done|].
  destruct (absUrl careersUrl _) as [url|] eqn:Ha; [|done].
  destruct (sameOriginOnly careersUrl url) eqn:Ho; [|done]. cbn [negb].
  destruct (clean _) as [|c t]; [done|].
  destruct (Js.eqb _ _); [done|].
  intros [= <-]. by eexists _, _.
Qed.

Lemma builtInAnchor_pick company careersUrl a mk :
  builtInAnchor company careersUrl a = Some mk ->
  exists url title,
    absUrl careersUrl (default [] (a_href a)) = Some url
    /\ sameOriginOnly careersUrl url = true
    /\ mk = record (str "built_in") company careersUrl title
              (str "Not listed") url.
Proof.
  unfold builtInAnchor.
  destruct (absUrl careersUrl _) as [url|] eqn:Ha; [|done].
  destruct (sameOriginOnly careersUrl url) eqn:Ho; [|done]. cbn [negb].
  destruct (negb (test _ _ _)); [done|].
  destruct (_ <? 3); [done|].
  intros [= <-]. by eexists _, _.
Qed.

Lemma customAnchor_pick company careersUrl a mk :
  customAnchor company careersUrl a = Some mk ->
  exists url title,
    absUrl careersUrl (trim (default [] (a_href a))) = Some url
    /\ sameOriginOnly careersUrl url = true
    /\ mk = record (str "custom_html") company careersUrl title
              (str "Not listed") url.
Proof.
  unfold customAnchor.
  destruct (trim _) as [|c h]; [done|].
  destruct (startsWith _ _); [done|].
  destruct (absUrl careersUrl _) as [url|] eqn:Ha; [|done].
  destruct (sameOriginOnly careersUrl url) eqn:Ho; [|done]. cbn [negb].
  destruct (test true blockPath url); [done|].
  destruct (newURL url None) as [u|]; [|done].
  destruct (newURL careersUrl None) as [b|]; [|done].
  destruct (negb (test _ _ _)); [done|].
  destruct (Js.eqb _ _); [done|].
  destruct (_ <? 6); [done|].
  destruct (_ <? 2); [done|].
  intros [= <-]. by eexists _, _.
Qed.

(** Every record of a link loop comes from a link the loop picked. *)
Lemma scan_elem {X} (pick : X -> option (jsstring -> Job)) xs w out w' j :
  scan pick xs [] w = (Ok out, w') ->
  j ∈ out ->
  exists x mk, x ∈ xs /\ pick x = Some mk /\ stamped mk j.
Proof.
  intros Hs Hj.
  destruct (scan_spec pick xs [] w) as (pl & w'' & Hs' & Hpl).
  rewrite Hs in Hs'. injection Hs' as -> _. simpl in Hj.
  apply list_elem_of_lookup in Hj as [i Hi].
  destruct (Forall2_lookup_r _ _ _ _ _ Hpl Hi) as (mk & Hmk & Hst).
  apply list_elem_of_lookup_2 in Hmk.
  apply list_elem_of_omap in Hmk as (x & Hx & Hp).
  by exists x, mk.
Qed.

End AdapterFacts.

Section SameOrigin.
Context `{Platform}.

Lemma static_board_same_origin company careersUrl w jobs j :
  static_board company careersUrl w jobs ->
  j ∈ jobs ->
  exists url, job_url j = Some url /\ sameOriginOnly careersUrl url = true.
Proof.
  intros [w' Hrun] Hj.
  assert (Hscan : exists (pick : Anchor -> option (jsstring -> Job)) xs w0 out w1,
             scan pick xs [] w0 = (Ok out, w1)
             /\ jobs = dedupe job_url out
             /\ forall a mk, pick a = Some mk ->
                  exists url title source,
                    sameOriginOnly careersUrl url = true
                    /\ mk = record source company careersUrl title
                              (str "Not listed") url).
  { destruct Hrun as [Hrun|[Hrun|Hrun]];
      [ unfold scrapeRippling in Hrun
      | unfold scrapeBreezy in Hrun
      | unfold scrapeBuiltIn in Hrun ];
      unfold bind at 1 in Hrun;
      destruct (fetchText careersUrl w) as [[r|e] w0]; try done;
      destruct (negb (f_ok r)); try done;
      unfold bind in Hrun;
      match type of Hrun with
      | context [scan ?pick ?xs [] w0] =>
          destruct (scan pick xs [] w0) as [[out|e] w1] eqn:Hs; [|done];
          exists pick, xs, w0, out, w1
      end;
      injection Hrun as <- _; (split; [done|]); (split; [done|]);
      intros a mk Hp.
    - apply ripplingAnchor_pick in Hp as (url & title & _ & Ho & ->). eauto.
    - apply breezyAnchor_pick in Hp as (url & title & _ & Ho & ->). eauto.
    - apply builtInAnchor_pick in Hp as (url & title & _ & Ho & ->). eauto. }
  destruct Hscan as (pick & xs & w0 & out & w1 & Hs & -> & Hpick).
  assert (Hout : j ∈ out).
  { eapply elem_of_sublist; [exact Hj|apply dedupe_sublist]. }
  destruct (scan_elem _ _ _ _ _ _ Hs Hout) as (a & mk & _ & Hp & [t ->]).
  destruct (Hpick a mk Hp) as (url & title & source & Ho & ->).
  by exists url.
Qed.
End SameOrigin.

(** C3.  A link whose resolved URL has another origin than the careers
    URL is skipped by the loop of each static-board adapter, whatever its
    text, and no record any of them returns carries that URL. *)
Theorem cross_origin_link_excluded `{Platform} (company careersUrl : jsstring)
    (a : Anchor) (url : jsstring) :
  absUrl careersUrl (default [] (a_href a)) = Some url ->
  origin <$> newURL url None <> origin <$> newURL careersUrl None ->
  ripplingAnchor company careersUrl a = None
  /\ breezyAnchor company careersUrl a = None
  /\ builtInAnchor company careersUrl a = None
  /\ forall w jobs j,
       static_board company careersUrl w jobs ->
       j ∈ jobs -> job_url j <> Some url.
Proof.
  intros Ha Ho.
  assert (Hx : sameOriginOnly careersUrl url = false).
  { destruct (sameOriginOnly careersUrl url) eqn:Hs; [|done].
    by apply sameOriginOnly_origin in Hs. }
  repeat split.
  - destruct (ripplingAnchor company careersUrl a) as [mk|] eqn:Hp; [|done].
    apply ripplingAnchor_pick in Hp as (u & t & Hu & Hs & _). congruence.
  - destruct (breezyAnchor company careersUrl a) as [mk|] eqn:Hp; [|done].
    apply breezyAnchor_pick in Hp as (u & t & Hu & Hs & _). congruence.
  - destruct (builtInAnchor company careersUrl a) as [mk|] eqn:Hp; [|done].
    apply builtInAnchor_pick in Hp as (u & t & Hu & Hs & _). congruence.
  - intros w jobs j Hrun Hj Hurl.
    destruct (static_board_same_origin _ _ _ _ _ Hrun Hj) as (u & Hu & Hs).
    congruence.
Qed.

Lemma cross_origin_link_excluded_witness :
  let P := Toy.platform [Toy.foreignLink; Toy.listedLink] in
  let careers := str "https://acme.breezy.hr/" in
  @absUrl P careers (default [] (a_href Toy.foreignLink))
    = Some (str "https://evil.example.net/p/123")
  /\ @breezyAnchor P (str "Acme") careers Toy.foreignLink = None.
Proof.
  intros P careers. split; [vm_compute; reflexivity|].
  refine (proj1 (proj2 (@cross_origin_link_excluded P (str "Acme") careers
                   Toy.foreignLink (str "https://evil.example.net/p/123") _ _))).
  - vm_compute. reflexivity.
  - vm_compute. discriminate.
Defined.

Section DuplicateLinks.
Context `{Platform}.

(** The URLs of the records of a link loop are those of the links it
    picked, in order, when the URL of a record does not depend on its
    time stamp. *)
Lemma stamped_urls (mks : list (jsstring -> Job)) (js : list Job) :
  Forall2 stamped mks js ->
  Forall (fun mk => forall t t', job_url (mk t) = job_url (mk t')) mks ->
  job_url <$> js = (fun mk => job_url (mk [])) <$> mks.
Proof.
  induction 1 as [|mk j mks js [t ->] _ IH]; [done|].
  intros [Hmk Hall]%Forall_cons.
  rewrite !fmap_cons, IH by done. f_equal. apply Hmk.
Qed.

Lemma scan_urls {X} (pick : X -> option (jsstring -> Job)) xs w out w' :
  (forall x mk, pick x = Some mk -> forall t t', job_url (mk t) = job_url (mk t')) ->
  scan pick xs [] w = (Ok out, w') ->
  job_url <$> out = (fun mk => job_url (mk [])) <$> omap pick xs.
Proof.
  intros Hpick Hs.
  destruct (scan_spec pick xs [] w) as (pl & w'' & Hs' & Hpl).
  rewrite Hs in Hs'. injection Hs' as -> _. simpl.
  apply stamped_urls; [done|].
  apply Forall_forall. intros mk (x & _ & Hp)%list_elem_of_omap. eauto.
Qed.

(** The three static-board adapters return no URL twice. *)
Lemma static_board_NoDup company careersUrl w jobs :
  static_board company careersUrl w jobs -> NoDup (job_url <$> jobs).
Proof.
  intros [w' Hrun].
  destruct Hrun as [Hrun|[Hrun|Hrun]];
    [ unfold scrapeRippling in Hrun
    | unfold scrapeBreezy in Hrun
    | unfold scrapeBuiltIn in Hrun ];
    unfold bind at 1 in Hrun;
    destruct (fetchText careersUrl w) as [[r|e] w0]; try done;
    destruct (negb (f_ok r)); try done;
    unfold bind in Hrun;
    match type of Hrun with
    | context [scan ?pick ?xs [] w0] =>
        destruct (scan pick xs [] w0) as [[out|e] w1]; [|done]
    end;
    injection Hrun as <- _; apply dedupe_NoDup.
Qed.
End DuplicateLinks.

(** C6, at the failing input.  When the page [scrapeCustomHtml] fetches
    lists twice a link the loop accepts, the adapter returns a record for
    each of the two: its result holds the same [job_url] twice. *)
Theorem custom_html_returns_duplicates `{Platform}
    (company careersUrl : jsstring) (w w0 : World) (page : Fetched)
    (a : Anchor) (mk : jsstring -> Job) (before between after : list Anchor) :
  fetchText careersUrl w = (Ok page, w0) ->
  f_ok page = true ->
  anchorsOf (f_text page) = before ++ a :: between ++ a :: after ->
  customAnchor company careersUrl a = Some mk ->
  exists jobs w',
    scrapeCustomHtml company careersUrl w = (Ok jobs, w')
    /\ ~ NoDup (job_url <$> jobs).
Proof.
  intros Hf Hok Hpage Hpick.
  unfold scrapeCustomHtml, bind at 1. rewrite Hf, Hok. cbn [negb].
  unfold bind.
  destruct (scan_spec (customAnchor company careersUrl)
              (anchorsOf (f_text page)) [] w0) as (out & w' & Hs & _).
  rewrite Hs. cbn [app]. exists out, w'. split; [done|].
  assert (Hu : job_url <$> out
               = (fun mk => job_url (mk []))
                   <$> omap (customAnchor company careersUrl)
                         (anchorsOf (f_text page))).
  { eapply scan_urls; [|exact Hs].
    intros x mk' Hp t t'.
    apply customAnchor_pick in Hp as (url & title & _ & _ & ->). done. }
  rewrite Hu, Hpage, omap_app. cbn [omap list_omap]. rewrite Hpick, omap_app.
  cbn [omap list_omap]. rewrite Hpick, !fmap_app, !fmap_cons.
  intros Hnd. apply NoDup_app in Hnd as (_ & _ & Hnd).
  apply NoDup_cons in Hnd as [Hnd _]. apply Hnd.
  rewrite ?fmap_app, ?fmap_cons. apply elem_of_app. right. by left.
Qed.

Lemma custom_html_returns_duplicates_witness :
  let P := Toy.platform [Toy.listedLink; Toy.listedLink] in
  exists jobs w',
    @scrapeCustomHtml P (str "Acme") (str "https://acme.example.com/careers") 0
      = (Ok jobs, w')
    /\ ~ NoDup (job_url <$> jobs).
Proof.
  intros P.
  eapply (@custom_html_returns_duplicates P (str "Acme")
            (str "https://acme.example.com/careers") 0 _ _ Toy.listedLink _
            [] [] []).
  - reflexivity.
  - reflexivity.
  - reflexivity.
  - vm_compute. reflexivity.
Defined.

(** ** White space *)

Import Text ReSpec.

Lemma trimStart_no_space s : starts_space (trimStart s) = false.
Proof.
  induction s as [|c s IH]; simpl; [done|].
  destruct (is_space c) eqn:Hc; [done|]. simpl. by rewrite Hc.
Qed.

Lemma trimStart_id s : starts_space s = false -> trimStart s = s.
Proof. destruct s as [|c s]; simpl; [done|]. by intros ->. Qed.

Lemma trimStart_drop s : exists n, trimStart s = drop n s.
Proof.
  induction s as [|c s [n IH]]; simpl; [by exists 0|].
  destruct (is_space c); [by exists (S n)|by exists 0].
Qed.

Lemma trimEnd_take s : exists n, trimEnd s = take n s.
Proof.
  unfold trimEnd. destruct (trimStart_drop (rev s)) as [n ->].
  exists (length s - n). by rewrite skipn_rev, rev_involutive.
Qed.

Lemma trim_trimmed s : trimmed (trim s) = true.
Proof.
  unfold trimmed, trim. apply andb_true_iff. split; apply negb_true_iff.
  - destruct (trimEnd_take (trimStart s)) as [n ->].
    pose proof (trimStart_no_space s) as Hs.
    destruct (trimStart s) as [|c u]; [by destruct n|].
    by destruct n.
  - unfold trimEnd. rewrite rev_involutive. apply trimStart_no_space.
Qed.

Lemma trim_id s : trimmed s = true -> trim s = s.
Proof.
  unfold trimmed, trim, trimEnd.
  intros [Ha%negb_true_iff Hb%negb_true_iff]%andb_true_iff.
  rewrite (trimStart_id s Ha), (trimStart_id (rev s) Hb).
  apply rev_involutive.
Qed.

Lemma single_spaced_drop n s :
  single_spaced s = true -> single_spaced (drop n s) = true.
Proof.
  revert s. induction n as [|n IH]; intros [|c s]; simpl; try done.
  intros [_ Hs]%andb_true_iff. by apply IH.
Qed.

Lemma single_spaced_take n s :
  single_spaced s = true -> single_spaced (take n s) = true.
Proof.
  revert s. induction n as [|n IH]; intros [|c s]; simpl; try done.
  intros [Hc Hs]%andb_true_iff. rewrite (IH s Hs), andb_true_r.
  destruct (negb (is_space c)); [done|]. simpl in *.
  apply andb_true_iff in Hc as [-> Hn]. simpl.
  destruct n, s; simpl in *; done.
Qed.

Lemma single_spaced_trim s :
  single_spaced s = true -> single_spaced (trim s) = true.
Proof.
  intros Hs. unfold trim.
  destruct (trimEnd_take (trimStart s)) as [n ->].
  destruct (trimStart_drop s) as [k ->].
  by apply single_spaced_take, single_spaced_drop.
Qed.

Lemma squeeze_spaced s : forall skip,
  single_spaced (squeeze skip s) = true
  /\ (skip = true -> starts_space (squeeze skip s) = false).
Proof.
  induction s as [|c s IH]; intros skip; simpl; [done|].
  destruct (is_space c) eqn:Hc.
  - destruct skip.
    + apply IH.
    + destruct (IH true) as [Hs Hn]. simpl.
      rewrite Hs, (Hn eq_refl). done.
  - destruct (IH false) as [Hs _]. simpl. rewrite Hc, Hs. split; [done|].
    done.
Qed.

Lemma squeeze_id s :
  single_spaced s = true -> squeeze false s = s
with squeeze_id_skip s :
  single_spaced s = true -> starts_space s = false -> squeeze true s = s.
Proof.
  - destruct s as [|c s]; simpl; [done|].
    intros [Hc Hs]%andb_true_iff.
    destruct (is_space c) eqn:Hsp; simpl in Hc.
    + apply andb_true_iff in Hc as [->%N.eqb_eq Hn%negb_true_iff].
      f_equal. by apply squeeze_id_skip.
    + f_equal. by apply squeeze_id.
  - destruct s as [|c s]; simpl; [done|].
    intros [Hc Hs]%andb_true_iff ->. f_equal. by apply squeeze_id.
Qed.


(** ** The matcher *)

Lemma star_loop_S mr k n p c :
  star_loop mr k (S n) p c =
  match mr (fun p' c' =>
          if length (rest p') =? length (rest p) then None
          else star_loop mr k n p' c') p c with
  | Some res => Some res
  | None => k p c
  end.
Proof. reflexivity. Qed.

Lemma m_star ic r k p c :
  m ic (Star r) k p c = star_loop (m ic r) k (length (rest p)) p c.
Proof. reflexivity. Qed.

Lemma m_space k pv s c :
  m false (Set_ [Space]) k (Pos pv s) c =
  match s with
  | ch :: tl => if is_space ch then k (Pos (Some ch) tl) c else None
  | [] => None
  end.
Proof.
  destruct s as [|ch tl]; [done|]. simpl. unfold one. simpl.
  by rewrite orb_false_r.
Qed.

(** ** The pattern [\s+] *)

Lemma star_space n : forall s pv c,
  length s <= n ->
  exists pv',
    star_loop (m false (Set_ [Space])) accept n (Pos pv s) c
    = Some (Pos pv' (trimStart s), c).
Proof.
  induction n as [|n IH]; intros s pv c Hn.
  - destruct s; [|simpl in Hn; lia]. by exists pv.
  - rewrite star_loop_S, m_space.
    destruct s as [|ch tl]; [by exists pv|]. simpl trimStart.
    destruct (is_space ch); [|by exists pv].
    cbn [rest].
    replace (length tl =? length (ch :: tl)) with false
      by (symmetry; apply Nat.eqb_neq; simpl; lia).
    destruct (IH tl (Some ch) c) as [pv' Hl]; [simpl in Hn; lia|].
    rewrite Hl. by exists pv'.
Qed.

Lemma plus_space pv s c :
  m false (Plus (Set_ [Space])) accept (Pos pv s) c =
  match s with
  | ch :: tl =>
      if is_space ch then
        m false (Star (Set_ [Space])) accept (Pos (Some ch) tl) c
      else None
  | [] => None
  end.
Proof.
  change (m false (Plus (Set_ [Space])) accept (Pos pv s) c)
    with (m false (Set_ [Space])
            (fun p' c' => m false (Star (Set_ [Space])) accept p' c')
            (Pos pv s) c).
  by rewrite m_space.
Qed.

(** What [exec] finds for [\s+]: nothing in a text without white space,
    and otherwise the first run of white space. *)
Lemma search_space s : forall pv,
  (Forall (fun c => is_space c = false) s
   /\ search false (Plus (Set_ [Space])) pv s = None)
  \/ exists pre ch tl pv1 pv2,
       s = pre ++ ch :: tl
       /\ Forall (fun c => is_space c = false) pre
       /\ is_space ch = true
       /\ search false (Plus (Set_ [Space])) pv s
          = Some (Found (Pos pv1 (ch :: tl)) (Pos pv2 (trimStart tl)) []).
Proof.
  induction s as [|c s IH]; intros pv.
  - left. by split.
  - cbn [search]. rewrite plus_space.
    destruct (is_space c) eqn:Hc.
    + right. rewrite m_star. cbn [rest].
      destruct (star_space (length s) s (Some c) []) as [pv2 ->]; [done|].
      exists [], c, s, pv, pv2. by repeat split.
    + destruct (IH (Some c)) as [[Hs ->]|(pre & ch & tl & pv1 & pv2 & -> & Hp & Hch & ->)].
      * left. split; [by constructor|done].
      * right. exists (c :: pre), ch, tl, pv1, pv2.
        repeat split; try done. by constructor.
Qed.

Lemma squeeze_no_space s skip :
  Forall (fun c => is_space c = false) s -> squeeze skip s = s.
Proof.
  intros Hs. revert skip. induction Hs as [|c s Hc _ IH]; intros skip; simpl;
    [done|].
  by rewrite Hc, IH.
Qed.

Lemma squeeze_skip s : squeeze true s = squeeze false (trimStart s).
Proof.
  induction s as [|c s IH]; simpl; [done|].
  destruct (is_space c) eqn:Hc; [done|]. simpl. by rewrite Hc.
Qed.

Lemma squeeze_run pre ch tl :
  Forall (fun c => is_space c = false) pre ->
  is_space ch = true ->
  squeeze false (pre ++ ch :: tl) = pre ++ 32%N :: squeeze false (trimStart tl).
Proof.
  intros Hp Hch. induction Hp as [|c pre Hc _ IH]; simpl.
  - by rewrite Hch, squeeze_skip.
  - by rewrite Hc, IH.
Qed.

Lemma trimStart_length s : length (trimStart s) <= length s.
Proof.
  induction s as [|c s IH]; simpl; [done|].
  destruct (is_space c); simpl; lia.
Qed.

Lemma replaceAll_space fuel : forall s whole pv,
  length s < fuel ->
  replaceAll_from fuel false (Plus (Set_ [Space])) (fun _ _ => str " ")
    whole pv s
  = squeeze false s.
Proof.
  induction fuel as [|fuel IH]; intros s whole pv Hf; [lia|].
  cbn [replaceAll_from].
  destruct (search_space s pv)
    as [[Hs ->]|(pre & ch & tl & pv1 & pv2 & -> & Hp & Hch & ->)].
  - by rewrite squeeze_no_space.
  - cbn [at_start at_end rest prev].
    rewrite squeeze_run by done.
    pose proof (trimStart_length tl) as Hl.
    replace (length (trimStart tl) =? length (ch :: tl)) with false
      by (symmetry; apply Nat.eqb_neq; simpl; lia).
    rewrite IH by (rewrite length_app in Hf; simpl in Hf; lia).
    replace (length (pre ++ ch :: tl) - length (ch :: tl)) with (length pre)
      by (rewrite length_app; lia).
    by rewrite take_app_length.
Qed.

Lemma cleanText_squeeze (x : option jsstring) :
  cleanText x = trim (squeeze false (default [] x)).
Proof.
  unfold cleanText, replaceAll. f_equal. apply replaceAll_space. lia.
Qed.

Lemma cleanText_tidy x : tidy_text (cleanText x) = true.
Proof.
  rewrite cleanText_squeeze. unfold tidy_text.
  rewrite trim_trimmed, single_spaced_trim; [done|].
  apply squeeze_spaced.
Qed.

Lemma cleanText_id s : tidy_text s = true -> cleanText (Some s) = s.
Proof.
  unfold tidy_text. intros [Hs Ht]%andb_true_iff.
  rewrite cleanText_squeeze. simpl. rewrite squeeze_id by done.
  by apply trim_id.
Qed.

Lemma cleanText_idem x : cleanText (Some (cleanText x)) = cleanText x.
Proof. apply cleanText_id, cleanText_tidy. Qed.


(** ** Matching and what is behind the position *)

Lemma agree_None {A B} : @agree A B None None.
Proof. unfold agree. split; intros [? [=]]. Qed.

Lemma agree_Some {A B} (a : A) (b : B) : agree (Some a) (Some b).
Proof. unfold agree. split; eauto. Qed.

Lemma agree_cases {A B} (x : option A) (y : option B) :
  agree x y ->
  (x = None /\ y = None) \/ (exists a b, x = Some a /\ y = Some b).
Proof.
  unfold agree. destruct x as [a|], y as [b|]; intros [H1 H2]; eauto.
  - destruct H1 as [? [=]]; eauto.
  - destruct H2 as [? [=]]; eauto.
Qed.

Lemma same_side_refl p : same_side p p.
Proof. by split. Qed.

(** A pattern without [^] sees of what is behind the position only
    whether it is a word code unit. *)
Lemma m_same_side ic r :
  bol_free r = true ->
  forall k k' p q c,
    same_side p q ->
    (forall p' q' c', same_side p' q' -> agree (k p' c') (k' q' c')) ->
    agree (m ic r k p c) (m ic r k' q c).
Proof.
  induction r as [|items|items| |r1 IH1 r2 IH2|r1 IH1 r2 IH2|r1 IH1|i r1 IH1| | |];
    intros Hb k k' p q c Hpq Hk; cbn [m bol_free] in *.
  - by apply Hk.
  - unfold one. destruct Hpq as [<- _]. destruct (rest p) as [|ch tl];
      [apply agree_None|].
    destruct (set_match ic items ch); [|apply agree_None].
    apply Hk, same_side_refl.
  - unfold one. destruct Hpq as [<- _]. destruct (rest p) as [|ch tl];
      [apply agree_None|].
    destruct (negb (set_match ic items ch)); [|apply agree_None].
    apply Hk, same_side_refl.
  - unfold one. destruct Hpq as [<- _]. destruct (rest p) as [|ch tl];
      [apply agree_None|].
    destruct (negb (is_line_terminator ch)); [|apply agree_None].
    apply Hk, same_side_refl.
  - apply andb_true_iff in Hb as [Hb1 Hb2].
    apply IH1; [done|done|]. intros p' q' c' Hpq'. by apply IH2.
  - apply andb_true_iff in Hb as [Hb1 Hb2].
    destruct (agree_cases _ _ (IH1 Hb1 k k' p q c Hpq Hk))
      as [[-> ->]|(a & b & -> & ->)]; [|apply agree_Some].
    by apply IH2.
  - destruct Hpq as [Hr Hw].
    rewrite <- Hr. generalize (length (rest p)) as n.
    assert (Hpq : same_side p q) by done. clear Hr Hw.
    intros n. revert p q c Hpq.
    induction n as [|n IHn]; intros p q c Hpq; [by apply Hk|].
    rewrite !star_loop_S.
    match goal with
    | |- agree (match ?x with _ => _ end) (match ?y with _ => _ end) =>
        assert (Hxy : agree x y)
    end.
    { apply IH1; [done|done|]. intros p' q' c' [Hr' Hw'].
      destruct Hpq as [Hr _]. rewrite <- Hr', <- Hr.
      destruct (length (rest p') =? length (rest p)); [apply agree_None|].
      by apply IHn. }
    destruct (agree_cases _ _ Hxy) as [[-> ->]|(a & b & -> & ->)];
      [by apply Hk|apply agree_Some].
  - apply IH1; [done|done|]. intros p' q' c' Hpq'.
    destruct Hpq as [<- _]. destruct Hpq' as [Hr' Hw'].
    rewrite <- Hr'. apply Hk. by split.
  - done.
  - pose proof Hpq as [Hr Hw]. rewrite <- Hr.
    destruct (rest p); [|apply agree_None]. by apply Hk.
  - pose proof Hpq as [Hr Hw]. unfold word_after. rewrite <- Hr, <- Hw.
    destruct (xorb _ _); [|apply agree_None]. by apply Hk.
Qed.

Lemma search_same_side ic r pv pv' s :
  bol_free r = true ->
  word_before (Pos pv s) = word_before (Pos pv' s) ->
  agree (search ic r pv s) (search ic r pv' s).
Proof.
  intros Hb Hw.
  assert (Hm : agree (m ic r accept (Pos pv s) [])
                     (m ic r accept (Pos pv' s) [])).
  { apply m_same_side; [done|by split|]. intros; apply agree_Some. }
  destruct s as [|ch tl]; cbn [search];
    destruct (agree_cases _ _ Hm) as [[-> ->]|([e c] & [e' c'] & -> & ->)];
    try apply agree_Some; try apply agree_None.
  unfold agree. done.
Qed.

Lemma search_step ic r pv ch tl :
  m ic r accept (Pos pv (ch :: tl)) [] = None ->
  search ic r pv (ch :: tl) = search ic r (Some ch) tl.
Proof. intros Hm. cbn [search]. by rewrite Hm. Qed.

(** Prefixing ["Remote — "] to a location neither makes nor unmakes a
    match of [forward deployed]. *)
Lemma forwardDeployed_dashed l :
  test true forwardDeployedRe (dashed (str "Remote") l)
  = test true forwardDeployedRe l.
Proof.
  unfold test, dashed. cbn [str List.map list_ascii_of_string app].
  do 9 (rewrite search_step by reflexivity).
  destruct (agree_cases _ _
              (search_same_side true forwardDeployedRe (Some 32%N) None l
                 eq_refl eq_refl))
    as [[-> ->]|(a & b & -> & ->)]; reflexivity.
Qed.

(** ** Transforms that find nothing to change *)

Lemma test_false ic r s : test ic r s = false -> search ic r None s = None.
Proof. unfold test. by destruct (search ic r None s). Qed.

Lemma replace_no_match ic r f s : test ic r s = false -> replace ic r f s = s.
Proof. intros Ht%test_false. unfold replace. by rewrite Ht. Qed.

Lemma replaceAll_no_match ic r f s :
  test ic r s = false -> replaceAll ic r f s = s.
Proof.
  intros Ht%test_false. unfold replaceAll. cbn [replaceAll_from].
  by rewrite Ht.
Qed.

Lemma splitHead_absent sep s : includes sep s = false -> Js.splitHead sep s = s.
Proof. unfold includes, Js.splitHead. by destruct (indexOf sep s). Qed.

Lemma includes_unit_absent c s :
  Forall (fun d => d <> c) s -> includes [c] s = false.
Proof.
  unfold includes. intros Hs.
  assert (Hi : indexOf [c] s = None); [|by rewrite Hi].
  induction Hs as [|d s Hd _ IH]; simpl; [done|].
  rewrite IH. apply N.eqb_neq in Hd. rewrite N.eqb_sym in Hd.
  by rewrite Hd.
Qed.

Lemma single_spaced_no_newline s :
  single_spaced s = true -> includes [10%N] s = false.
Proof.
  intros Hs. apply includes_unit_absent.
  induction s as [|c s IH]; [done|].
  simpl in Hs. apply andb_true_iff in Hs as [Hc Hs].
  constructor; [|by apply IH].
  intros ->. done.
Qed.

(** A clean title goes through the stages of the normalizer unchanged. *)
Lemma clean_title_fixed t :
  tidy_text t = true ->
  no_separator t = true ->
  no_department_suffix t = true ->
  no_body_copy t = true ->
  no_pay_noise t = true ->
  cut t = t /\ undept t = t /\ tidy t = t /\ endDept t = t.
Proof.
  unfold tidy_text, no_separator, no_department_suffix, no_body_copy,
    no_pay_noise.
  intros [Hs Ht%trim_id]%andb_true_iff.
  rewrite !andb_true_iff, !negb_true_iff.
  intros [[[S1 S2] S3] S4] [[D1 D2] D3] [[B1 B2] B3] [[[P1 P2] P3] P4].
  repeat split.
  - unfold cut.
    rewrite (splitHead_absent _ _ (single_spaced_no_newline _ Hs)), Ht.
    rewrite (splitHead_absent _ _ B1), Ht.
    rewrite (splitHead_absent _ _ B2), Ht.
    rewrite (splitHead_absent _ _ B3), Ht.
    rewrite (splitHead_absent _ _ S1), (splitHead_absent _ _ S2),
      (splitHead_absent _ _ S3), Ht.
    by destruct (90 <? length t).
  - unfold undept.
    by rewrite (replace_no_match _ _ _ _ D1), Ht,
      (replace_no_match _ _ _ _ D2), Ht.
  - unfold tidy. rewrite S4.
    by rewrite (replaceAll_no_match _ _ _ _ P1),
      (replaceAll_no_match _ _ _ _ P2), (replace_no_match _ _ _ _ P3),
      (replace_no_match _ _ _ _ P4), Ht.
  - unfold endDept. by rewrite (replace_no_match _ _ _ _ D3), Ht.
Qed.

(** ** The geo hint of a clean title is clean *)

Lemma hint_tidy r t g :
  single_spaced t = true -> hint r t = Some g ->
  tidy_text g = true /\ g <> [].
Proof.
  intros Hs. unfold hint, match_group, group.
  destruct (search false r None t) as [f|]; [|done].
  destruct (List.find _ _) as [[i [a b]]|]; [|done].
  destruct (trim (slice t a b)) as [|c u] eqn:Hg; [done|].
  intros [= <-]. split; [|done]. rewrite <- Hg.
  unfold tidy_text. rewrite trim_trimmed, andb_true_r.
  apply single_spaced_trim. unfold slice.
  by apply single_spaced_take, single_spaced_drop.
Qed.

Lemma geoHint_tidy t :
  single_spaced t = true -> tidy_text (geoHint t) = true.
Proof.
  intros Hs. unfold geoHint.
  destruct (hint geoDashRe t) as [g|] eqn:Hg.
  - by apply (hint_tidy _ _ _ Hs Hg).
  - destruct (hint geoParenRe t) as [g|] eqn:Hp; [|done].
    by apply (hint_tidy _ _ _ Hs Hp).
Qed.

(** ** The location of a result is stable *)

Lemma trimmed_app pre l :
  starts_space pre = false -> pre <> [] -> l <> [] ->
  trimmed l = true -> trimmed (pre ++ l) = true.
Proof.
  unfold trimmed. intros Hp Hpre Hl [_ Hr]%andb_true_iff.
  apply andb_true_iff. split.
  - destruct pre; [done|]. simpl in *. by rewrite Hp.
  - rewrite rev_app_distr. destruct (rev l) eqn:E; [|done].
    apply (f_equal (@rev N)) in E. rewrite rev_involutive in E. done.
Qed.

Lemma tidy_dashed_remote l :
  l <> [] -> tidy_text l = true -> tidy_text (dashed (str "Remote") l) = true.
Proof.
  unfold tidy_text. intros Hl [Hs Ht]%andb_true_iff.
  apply andb_true_iff. split.
  - unfold trimmed in Ht. apply andb_true_iff in Ht as [Ht _].
    simpl. by rewrite Ht, Hs.
  - by apply (trimmed_app (str "Remote" ++ [32%N; EM_DASH; 32%N])).
Qed.

Lemma tidy_dashed_hybrid l :
  l <> [] -> tidy_text l = true -> tidy_text (dashed (str "Hybrid") l) = true.
Proof.
  unfold tidy_text. intros Hl [Hs Ht]%andb_true_iff.
  apply andb_true_iff. split.
  - unfold trimmed in Ht. apply andb_true_iff in Ht as [Ht _].
    simpl. by rewrite Ht, Hs.
  - by apply (trimmed_app (str "Hybrid" ++ [32%N; EM_DASH; 32%N])).
Qed.

Lemma includes_remote_dashed l :
  includes (str "remote") (toLowerCase (dashed (str "Remote") l)) = true.
Proof. reflexivity. Qed.

Lemma missingLoc_dashed l : missingLoc (dashed (str "Remote") l) = false.
Proof. reflexivity. Qed.

(** The location the normalizer gives is clean, and is the location it
    gives again when it is given that location with the same title. *)
Lemma place_stable l remote hybrid onsite geo :
  tidy_text l = true ->
  tidy_text geo = true ->
  missingLoc l = false ->
  tidy_text (place (located l) remote hybrid onsite geo) = true
  /\ place (located (place (located l) remote hybrid onsite geo))
        remote hybrid onsite geo
     = place (located l) remote hybrid onsite geo.
Proof.
  intros Hl Hg Hm.
  assert (Hne : l <> []) by (by destruct l).
  destruct (test true forwardDeployedRe l) eqn:Hf.
  - (* the qualifier: the location is made up from the title *)
    assert (Hloc : located l = NOT_LISTED) by (unfold located; by rewrite Hf).
    rewrite Hloc. clear Hloc.
    assert (Hstable : forall x,
              x <> [] ->
              (remote = true -> includes (str "remote") (toLowerCase x) = true) ->
              place NOT_LISTED remote hybrid onsite geo = x ->
              place (located x) remote hybrid onsite geo = x).
    { intros x Hx Hr Hp. unfold located.
      destruct (test true forwardDeployedRe x); [done|].
      unfold place in Hp |- *. change (missingLoc NOT_LISTED) with true in Hp.
      destruct (missingLoc x) eqn:Hmx.
      - destruct remote, hybrid, onsite, geo as [|g geo]; simpl in Hp |- *;
          try done; by destruct x.
      - destruct remote; [rewrite (Hr eq_refl)|]; simpl; by destruct x. }
    split.
    + unfold place. change (missingLoc NOT_LISTED) with true. cbv iota.
      destruct remote, hybrid, onsite, geo as [|g geo]; cbn [andb];
        first [reflexivity | done
              | by apply tidy_dashed_remote
              | by apply tidy_dashed_hybrid].
    + apply Hstable; [| |done].
      * unfold place. change (missingLoc NOT_LISTED) with true. cbv iota.
        destruct remote, hybrid, onsite, geo as [|g geo]; cbn [andb]; done.
      * intros ->. unfold place. change (missingLoc NOT_LISTED) with true.
        cbv iota. destruct geo as [|g geo]; reflexivity.
  - assert (Hloc : located l = l) by (unfold located; by rewrite Hf).
    rewrite Hloc. clear Hloc.
    assert (Hp : place l remote hybrid onsite geo
                 = if remote && negb (includes (str "remote") (toLowerCase l))
                   then dashed (str "Remote") l else l).
    { unfold place. rewrite Hm.
      destruct (remote && _); [done|by destruct l]. }
    rewrite Hp.
    destruct (remote && negb (includes (str "remote") (toLowerCase l))) eqn:Hr.
    + split; [by apply tidy_dashed_remote|].
      unfold located. rewrite forwardDeployed_dashed, Hf.
      unfold place. rewrite missingLoc_dashed, includes_remote_dashed.
      by rewrite andb_false_r.
    + split; [done|].
      unfold located. by rewrite Hf.
Qed.

(** ** Normalizing twice *)

(** C8, as stated, fails: the title ["Full Time Sales Associate"] has
    none of the kinds of noise the specification lists, and the location
    ["Austin, TX"] is explicit; the normalizer removes the employment
    type and all that follows it, accepts the record with the empty
    title, and rejects that result when it is given it again. *)
Lemma employment_type_breaks_idempotence :
  ~ (already_clean_as_specified fullTimeAssociate = true ->
     renormalizes fullTimeAssociate).
Proof.
  intros Hc.
  specialize (Hc eq_refl
                 (retitled fullTimeAssociate [] (str "Austin, TX")) eq_refl).
  vm_compute in Hc. discriminate.
Qed.

(** C8, amended.  The normalizer is idempotent on already-clean records:
    for every record whose title has no noise (no deny-listed text,
    placeholder, separator, department suffix, appended body copy, or
    compensation, equity or employment-type text) and whose location is
    explicit (not empty, not the sentinel), normalizing the result of the
    normalizer gives that result again, unchanged. *)
Theorem normalize_idempotent_on_clean (job out : Job) :
  already_clean job = true ->
  normalizeJob job = Some out ->
  normalizeJob out = Some out.
Proof.
  unfold already_clean, already_clean_as_specified, explicit_location.
  rewrite !andb_true_iff, negb_true_iff.
  intros [[[[[[_ _] Hsep] Hdept] Hbody] Hloc] Hpay] Hn.
  pose proof (cleanText_tidy (job_title job)) as Ht.
  destruct (clean_title_fixed _ Ht Hsep Hdept Hbody Hpay)
    as (Hcut & Hundept & Htidy & Hend).
  rewrite normalizeJob_stages in Hn.
  destruct (rejects job) eqn:Hrej; [done|]. injection Hn as <-.
  assert (Htitle : titleOf job = cleanText (job_title job)).
  { unfold titleOf. by rewrite Hcut, Hundept, Htidy, Hend. }
  assert (Hgeo : tidy_text (geoHint (cleanText (job_title job))) = true).
  { apply geoHint_tidy. unfold tidy_text in Ht.
    by apply andb_true_iff in Ht as [-> _]. }
  destruct (place_stable (cleanText (job_location job))
              (isRemote (cleanText (job_title job)))
              (isHybrid (cleanText (job_title job)))
              (isOnsite (cleanText (job_title job)))
              (geoHint (cleanText (job_title job)))
              (cleanText_tidy _) Hgeo Hloc) as [Hl1 Hl2].
  assert (Hlocation : locationOf job
            = place (located (cleanText (job_location job)))
                (isRemote (cleanText (job_title job)))
                (isHybrid (cleanText (job_title job)))
                (isOnsite (cleanText (job_title job)))
                (geoHint (cleanText (job_title job)))).
  { unfold locationOf. by rewrite Hcut, Hundept, Htidy. }
  rewrite normalizeJob_stages.
  assert (Hrej' : rejects (retitled job (titleOf job) (locationOf job)) = false).
  { unfold rejects in Hrej |- *. cbn [retitled job_title job_url].
    by rewrite Htitle, cleanText_idem. }
  rewrite Hrej'. f_equal.
  unfold retitled at 1. cbn [retitled portfolio company_name company_careers_url
    job_url source_type source_job_id job_key status last_seen_utc].
  unfold retitled. f_equal.
  - unfold titleOf at 1. cbn [job_title]. rewrite Htitle, cleanText_idem.
    rewrite Hcut, Hundept, Htidy, Hend. done.
  - unfold locationOf at 1. cbn [job_title job_location].
    rewrite Htitle, cleanText_idem, Hcut, Hundept, Htidy.
    rewrite Hlocation, (cleanText_id _ Hl1). by rewrite Hl2.
Qed.

Lemma normalize_idempotent_on_clean_witness :
  already_clean dataEngineer = true
  /\ normalizeJob dataEngineer
     = Some (retitled dataEngineer (str "Remote Data Engineer (Austin)")
               (dashed (str "Remote") (str "Austin, TX")))
  /\ normalizeJob (retitled dataEngineer (str "Remote Data Engineer (Austin)")
                     (dashed (str "Remote") (str "Austin, TX")))
     = Some (retitled dataEngineer (str "Remote Data Engineer (Austin)")
               (dashed (str "Remote") (str "Austin, TX"))).
Proof.
  split; [vm_compute; reflexivity|].
  split; [vm_compute; reflexivity|].
  apply (normalize_idempotent_on_clean dataEngineer); vm_compute; reflexivity.
Defined.

(** ** Every record of an adapter carries its key *)

Section Keyed.
Context `{Platform}.

Lemma record_keyed source company careersUrl title location url t :
  keyed (record source company careersUrl title location url t).
Proof. unfold keyed. simpl. by destruct source. Qed.

Lemma scan_keyed {X} (pick : X -> option (jsstring -> Job)) xs w out w' :
  (forall x mk, pick x = Some mk -> forall t, keyed (mk t)) ->
  scan pick xs [] w = (Ok out, w') ->
  Forall keyed out.
Proof.
  intros Hpick Hs. apply Forall_forall. intros j Hj.
  destruct (scan_elem _ _ _ _ _ _ Hs Hj) as (x & mk & _ & Hp & [t ->]).
  by eapply Hpick.
Qed.

Lemma stampNew_keyed mk hits : forall seen out w jobs w',
  (forall h t, keyed (mk h t)) ->
  Forall keyed out ->
  stampNew mk hits seen out w = (Ok jobs, w') ->
  Forall keyed jobs.
Proof.
  induction hits as [|h hits IH]; intros seen out w jobs w' Hmk Hout; simpl.
  - by intros [= <- _].
  - destruct (decide (h_url h ∈ seen)); [by apply IH|].
    unfold bind, now. destruct (nowISO w) as [t w1].
    apply IH; [done|]. apply Forall_app. split; [done|].
    constructor; [apply Hmk|constructor].
Qed.

Lemma rendered_keyed careersUrl waitUntil script mk w jobs w' :
  (forall h t, keyed (mk h t)) ->
  rendered careersUrl waitUntil script mk w = (Ok jobs, w') ->
  Forall keyed jobs.
Proof.
  intros Hmk. unfold rendered, bind at 1.
  destruct (launch w) as [[browser|e] w1]; [|done].
  unfold bind at 1. destruct (newPage browser w1) as [[page|e] w2]; [|done].
  unfold finally, bind at 1.
  destruct (goto page careersUrl waitUntil w2) as [[[]|e] w3]; [|done].
  unfold bind at 1. destruct (waitForTimeout page 1500 w3) as [[[]|e] w4];
    [|done].
  unfold bind at 1. destruct (domOf page w4) as [[d|e] w5]; [|done].
  unfold bind, lift. destruct (script d) as [hits|e]; [|done].
  destruct (stampNew mk hits ∅ [] w5) as [[out|e] w6] eqn:Hs; [|done].
  intros [= <- _]. eapply stampNew_keyed; [exact Hmk|constructor|exact Hs].
Qed.

Lemma dedupe_keyed (out : list Job) :
  Forall keyed out -> Forall keyed (dedupe job_url out).
Proof.
  rewrite !Forall_forall. intros Hout j Hj. apply Hout.
  eapply elem_of_sublist; [exact Hj|apply dedupe_sublist].
Qed.

(** The jobs an adapter returns all carry their key. *)
Lemma dispatch_keyed source c w st jobs w' :
  dispatch source c w = (Ok (st, jobs), w') -> Forall keyed jobs.
Proof.
  unfold dispatch.
  assert (Hok : forall adapter : M (list Job),
            (forall out w1, adapter w = (Ok out, w1) -> Forall keyed out) ->
            bind adapter (fun jobs => ret (str "ok", jobs)) w
              = (Ok (st, jobs), w') ->
            Forall keyed jobs).
  { intros adapter Ha. unfold bind, ret.
    destruct (adapter w) as [[out|e] w1] eqn:Hrun; [|done].
    intros [= _ <- _]. by eapply Ha. }
  assert (Hstatic : forall (pick : Anchor -> option (jsstring -> Job)) msg
              (after : list Job -> list Job),
            (forall x mk, pick x = Some mk -> forall t, keyed (mk t)) ->
            (forall out, Forall keyed out -> Forall keyed (after out)) ->
            forall out w1,
              bind (fetchText (c_careers_url c)) (fun r =>
                if negb (f_ok r) then throw (msg r)
                else bind (scan pick (anchorsOf (f_text r)) [])
                          (fun out => ret (after out))) w = (Ok out, w1) ->
              Forall keyed out).
  { intros pick msg after Hpick Hafter out w1. unfold bind at 1.
    destruct (fetchText (c_careers_url c) w) as [[r|e] w0]; [|done].
    destruct (negb (f_ok r)); [done|]. unfold bind, ret.
    destruct (scan pick (anchorsOf (f_text r)) [] w0) as [[o|e] w2] eqn:Hs;
      [|done].
    intros [= <- _]. apply Hafter. by eapply scan_keyed. }
  repeat match goal with
         | |- context [if ?b then _ else _] => destruct b
         end.
  - apply Hok. intros out w1. unfold scrapeGreenhouse.
    destruct (match_group true boardRe 1 (c_careers_url c)) as [[|b board]|];
      [done| |done].
    unfold bind at 1. destruct (fetchJobs _ w) as [[res|e] w0]; [|done].
    destruct (negb (g_ok res)); [done|]. unfold bind, ret.
    destruct (scan _ (g_jobs res) [] w0) as [[o|e] w2] eqn:Hs; [|done].
    intros [= <- _].
    assert (Ho : Forall keyed o).
    { eapply scan_keyed; [|exact Hs]. by intros x mk [= <-] t. }
    rewrite Forall_forall in Ho |- *.
    intros j [Hj _]%list_elem_of_In%filter_In. by apply Ho, list_elem_of_In.
  - apply Hok. intros out w1.
    apply (Hstatic _ (fun r => str "Rippling fetch failed: " ++ f_status r)
             (dedupe job_url)); [|apply dedupe_keyed].
    intros x mk (url & title & _ & _ & ->)%ripplingAnchor_pick t.
    apply record_keyed.
  - apply Hok. intros out w1.
    apply (Hstatic _ (fun r => str "Breezy fetch failed: " ++ f_status r)
             (dedupe job_url)); [|apply dedupe_keyed].
    intros x mk (url & title & _ & _ & ->)%breezyAnchor_pick t.
    apply record_keyed.
  - apply Hok. intros out w1.
    apply (Hstatic _ (fun r => str "Built In fetch failed: " ++ f_status r)
             (dedupe job_url)); [|apply dedupe_keyed].
    intros x mk (url & title & _ & _ & ->)%builtInAnchor_pick t.
    apply record_keyed.
  - apply Hok. intros out w1. apply rendered_keyed. intros; apply record_keyed.
  - apply Hok. intros out w1. apply rendered_keyed. intros; apply record_keyed.
  - apply Hok. intros out w1. apply rendered_keyed. intros; apply record_keyed.
  - apply Hok. intros out w1.
    apply (Hstatic _ (fun r => str "Custom HTML fetch failed: " ++ f_status r)
             (fun out => out)); [|done].
    intros x mk (url & title & _ & _ & ->)%customAnchor_pick t.
    apply record_keyed.
  - by intros [= _ <- _].
Qed.

Lemma visit_keyed c w cov jobs w' :
  visit c w = (Ok (cov, jobs), w') -> Forall keyed jobs.
Proof.
  unfold visit, bind at 1, attempt.
  destruct (dispatch _ c w) as [[[st js]|e] w1] eqn:Hd;
    unfold bind, now; destruct (nowISO w1) as [t w2]; intros [= _ <- _].
  - by eapply dispatch_keyed.
  - constructor.
Qed.

Lemma visitAll_keyed cs : forall raw cov w raw' cov' w',
  Forall keyed raw ->
  visitAll cs raw cov w = (Ok (raw', cov'), w') ->
  Forall keyed raw'.
Proof.
  induction cs as [|c cs IH]; intros raw cov w raw' cov' w' Hraw; simpl.
  - by intros [= <- _ _].
  - unfold bind. destruct (visit c w) as [[[cv jobs]|e] w1] eqn:Hv; [|done].
    apply IH. apply Forall_app. split; [done|]. by eapply visit_keyed.
Qed.
End Keyed.

(** ** The global de-duplication *)

(** C1.  The global de-duplication of [main] keeps, of every list of raw
    jobs, a sublist in which the de-duplication keys are pairwise
    distinct; for every key, the record kept under it is the first record
    of the input with that key.  The pass is a total function: a record
    whose key has been seen is dropped and nothing is raised.  The key of
    a record that carries its [job_key] is that field, so the [job_key]
    values of the result are pairwise distinct when every record carries
    one; the records [main] collects from the adapters all do, on every
    platform and from every state of the world, and [main] completes. *)
Theorem global_dedup_first_wins `{Platform} :
  (forall raw : list Job,
     let out := dedupe dedupKey raw in
     sublist out raw
     /\ NoDup (dedupKey <$> out)
     /\ (forall k, first_with dedupKey k out = first_with dedupKey k raw)
     /\ (Forall keyed raw ->
         NoDup (job_key <$> out)
         /\ forall k, first_with job_key k out = first_with job_key k raw))
  /\ (forall (companies : list Company) (w : World),
       exists raw written w',
         visitAll companies [] [] w = (Ok (raw, coverage_json written), w')
         /\ Scrape.main companies w = (Ok written, w')
         /\ sublist (raw_jobs_json written) raw
         /\ NoDup (job_key <$> raw_jobs_json written)
         /\ forall k, first_with job_key k (raw_jobs_json written)
                      = first_with job_key k raw).
Proof.
  assert (Hpass : forall raw : list Job,
            Forall keyed raw ->
            NoDup (job_key <$> dedupe dedupKey raw)
            /\ forall k, first_with job_key k (dedupe dedupKey raw)
                         = first_with job_key k raw).
  { intros raw Hall.
    assert (Hout : Forall keyed (dedupe dedupKey raw)).
    { rewrite Forall_forall in Hall |- *. intros j Hj.
      apply Hall. eapply elem_of_sublist; [exact Hj|apply dedupe_sublist]. }
    assert (Hfm : forall l, Forall keyed l ->
                   job_key <$> l = Some <$> (dedupKey <$> l)).
    { induction 1 as [|j l Hj _ IH]; [done|].
      rewrite !fmap_cons, IH. f_equal. by apply dedupKey_job_key. }
    split.
    - rewrite (Hfm _ Hout). apply (NoDup_fmap_2 _), dedupe_NoDup.
    - intros [k|].
      + assert (Hfw : forall l, Forall keyed l ->
                  first_with job_key (Some k) l = first_with dedupKey k l).
        { induction 1 as [|j l Hj _ IH]; [done|]. simpl.
          rewrite (dedupKey_job_key j Hj).
          do 2 case_bool_decide; try done; congruence. }
        rewrite (Hfw _ Hout), (Hfw raw Hall). apply dedupe_first.
      + assert (Hno : forall l, Forall keyed l ->
                  first_with job_key None l = None).
        { induction 1 as [|j l Hj _ IH]; [done|]. simpl.
          case_bool_decide as Hn; [|done].
          unfold keyed in Hj. by rewrite Hn in Hj. }
        by rewrite (Hno _ Hout), (Hno raw Hall). }
  split.
  - intros raw out. split; [apply dedupe_sublist|].
    split; [apply dedupe_NoDup|]. split; [apply dedupe_first|]. apply Hpass.
  - intros companies w.
    destruct (visitAll_spec companies [] [] w) as (raw & cov & w' & Hv & _).
    assert (Hk : Forall keyed raw).
    { eapply visitAll_keyed; [|exact Hv]. constructor. }
    exists raw, (Scrape.mkWritten (dedupe dedupKey raw) cov), w'.
    split; [done|]. split.
    { unfold Scrape.main, bind. by rewrite Hv. }
    split; [apply dedupe_sublist|]. by apply Hpass.
Qed.

Lemma global_dedup_first_wins_witness :
  let raw := [posting "a" "First"; posting "b" "Other"; posting "a" "Second"] in
  Forall keyed raw
  /\ dedupe (@dedupKey (Toy.platform [])) raw
     = [posting "a" "First"; posting "b" "Other"]
  /\ NoDup (job_key <$> dedupe (@dedupKey (Toy.platform [])) raw).
Proof.
  intros raw.
  assert (Hk : Forall keyed raw) by (repeat constructor).
  split; [done|]. split; [vm_compute; reflexivity|].
  apply (proj1 (@global_dedup_first_wins (Toy.platform [])) raw), Hk.
Defined.

(** ** The adapters that render the page return no URL twice *)

Section Rendered.
Context `{Platform}.

Lemma stampNew_NoDup mk hits : forall seen out w jobs w',
  (forall h t, job_url (mk h t) = Some (h_url h)) ->
  NoDup (job_url <$> out) ->
  (forall j, j ∈ out -> exists u, job_url j = Some u /\ u ∈ seen) ->
  stampNew mk hits seen out w = (Ok jobs, w') ->
  NoDup (job_url <$> jobs).
Proof.
  induction hits as [|h hits IH]; intros seen out w jobs w' Hmk Hnd Hseen;
    simpl.
  - by intros [= <- _].
  - destruct (decide (h_url h ∈ seen)) as [Hin|Hin]; [by apply IH|].
    unfold bind, now. destruct (nowISO w) as [t w1].
    apply IH; [done| |].
    + rewrite fmap_app. apply NoDup_app. split; [done|]. split.
      * intros u Hu [->|[]%elem_of_nil]%elem_of_cons.
        apply list_elem_of_fmap in Hu as (j & Hj & Hjo).
        destruct (Hseen j Hjo) as (u & Hu & Hus).
        rewrite Hmk in Hj. congruence.
      * simpl. apply NoDup_singleton.
    + intros j [Hj|[->|[]%elem_of_nil]%elem_of_cons]%elem_of_app.
      * destruct (Hseen j Hj) as (u & Hu & Hus). exists u.
        split; [done|]. apply elem_of_union. by right.
      * exists (h_url h). split; [apply Hmk|].
        apply elem_of_union. left. by apply elem_of_singleton.
Qed.

Lemma rendered_NoDup careersUrl waitUntil script mk w jobs w' :
  (forall h t, job_url (mk h t) = Some (h_url h)) ->
  rendered careersUrl waitUntil script mk w = (Ok jobs, w') ->
  NoDup (job_url <$> jobs).
Proof.
  intros Hmk. unfold rendered, bind at 1.
  destruct (launch w) as [[browser|e] w1]; [|done].
  unfold bind at 1. destruct (newPage browser w1) as [[page|e] w2]; [|done].
  unfold finally, bind at 1.
  destruct (goto page careersUrl waitUntil w2) as [[[]|e] w3]; [|done].
  unfold bind at 1. destruct (waitForTimeout page 1500 w3) as [[[]|e] w4];
    [|done].
  unfold bind at 1. destruct (domOf page w4) as [[d|e] w5]; [|done].
  unfold bind, lift. destruct (script d) as [hits|e]; [|done].
  destruct (stampNew mk hits ∅ [] w5) as [[out|e] w6] eqn:Hs; [|done].
  intros [= <- _].
  apply (stampNew_NoDup mk hits ∅ [] w5 out w6 Hmk); [apply NoDup_nil_2| |done].
  by intros j ?%elem_of_nil.
Qed.

(** Each adapter that scans links, but for [scrapeCustomHtml], returns
    no URL twice. *)
Lemma sibling_adapters_NoDup company careersUrl w jobs w' :
  scrapeRippling company careersUrl w = (Ok jobs, w')
  \/ scrapeBreezy company careersUrl w = (Ok jobs, w')
  \/ scrapeBuiltIn company careersUrl w = (Ok jobs, w')
  \/ scrapeAshby company careersUrl w = (Ok jobs, w')
  \/ scrapeWorkday company careersUrl w = (Ok jobs, w')
  \/ scrapeScalis company careersUrl w = (Ok jobs, w') ->
  NoDup (job_url <$> jobs).
Proof.
  intros [Hr|[Hr|[Hr|[Hr|[Hr|Hr]]]]].
  - apply (static_board_NoDup company careersUrl w). exists w'. by left.
  - apply (static_board_NoDup company careersUrl w). exists w'. right. by left.
  - apply (static_board_NoDup company careersUrl w). exists w'. right. by right.
  - by eapply rendered_NoDup; [|exact Hr].
  - by eapply rendered_NoDup; [|exact Hr].
  - by eapply rendered_NoDup; [|exact Hr].
Qed.
End Rendered.

(** A record with the title of the example and a URL on the deny-list is
    rejected. *)
Lemma account_exec_junk_url :
  normalizeJob (accountExec None (Some (str "https://acme.example.com/login")))
  = None.
Proof. vm_compute. reflexivity. Qed.
Import ReMore.

(** ** A match moves forward *)

(** Whatever a pattern matches, the continuation is called at a position
    further in the input. *)
Lemma m_forward ic r : forall k p c res,
  m ic r k p c = Some res ->
  exists p' c', rest p' `suffix_of` rest p /\ k p' c' = Some res.
Proof.
  induction r as [|items|items| |r1 IH1 r2 IH2|r1 IH1 r2 IH2|r1 IH1|i r1 IH1| | |];
    intros k p c res; cbn [m].
  - intros Hk. by exists p, c.
  - unfold one. destruct (rest p) as [|ch tl] eqn:Hr; [done|].
    destruct (set_match ic items ch); [|done].
    intros Hk. exists (step ch tl), c. split; [|done]. by apply suffix_cons_r.
  - unfold one. destruct (rest p) as [|ch tl] eqn:Hr; [done|].
    destruct (negb (set_match ic items ch)); [|done].
    intros Hk. exists (step ch tl), c. split; [|done]. by apply suffix_cons_r.
  - unfold one. destruct (rest p) as [|ch tl] eqn:Hr; [done|].
    destruct (negb (is_line_terminator ch)); [|done].
    intros Hk. exists (step ch tl), c. split; [|done]. by apply suffix_cons_r.
  - intros (p1 & c1 & Hs1 & Hm)%IH1.
    apply IH2 in Hm as (p2 & c2 & Hs2 & Hk).
    exists p2, c2. split; [by etrans|done].
  - destruct (m ic r1 k p c) as [res1|] eqn:H1.
    + intros [= <-]. by apply IH1 in H1.
    + intros H2. by apply IH2 in H2.
  - generalize (length (rest p)) as n. intros n. revert p c.
    induction n as [|n IHn]; intros p c; [intros Hk; by exists p, c|].
    rewrite star_loop_S.
    destruct (m ic r1 _ p c) as [res1|] eqn:H1.
    + intros [= <-]. apply IH1 in H1 as (p1 & c1 & Hs1 & Hk).
      destruct (length (rest p1) =? length (rest p)); [done|].
      apply IHn in Hk as (p2 & c2 & Hs2 & Hk).
      exists p2, c2. split; [by etrans|done].
    + intros Hk. by exists p, c.
  - intros (p1 & c1 & Hs1 & Hk)%IH1. by eexists p1, _.
  - destruct (prev p); [done|]. intros Hk. by exists p, c.
  - destruct (rest p) eqn:Hr; [|done]. intros Hk. exists p, c.
    by rewrite Hr.
  - destruct (xorb _ _); [|done]. intros Hk. by exists p, c.
Qed.

(** A pattern that ends with [$] matches up to the end of the input. *)
Lemma m_to_end ic r : eol_ended r = true ->
  forall k p c res,
    m ic r k p c = Some res ->
    exists p' c', rest p' = [] /\ k p' c' = Some res.
Proof.
  induction r as [|items|items| |r1 IH1 r2 IH2|r1 IH1 r2 IH2|r1 IH1|i r1 IH1| | |];
    intros He k p c res; try done.
  - cbn [eol_ended] in He. cbn [m].
    destruct r2; try (intros (p1 & c1 & _ & Hm)%m_forward;
                      by apply (IH2 He) in Hm).
    by apply (IH1 He).
  - cbn [eol_ended] in He. apply andb_true_iff in He as [He1 He2]. cbn [m].
    destruct (m ic r1 k p c) as [res1|] eqn:H1.
    + intros [= <-]. by apply (IH1 He1) in H1.
    + intros H2. by apply (IH2 He2) in H2.
  - cbn [eol_ended] in He. cbn [m].
    intros (p1 & c1 & Hr & Hk)%(IH1 He). by eexists p1, _.
  - cbn [m]. destruct (rest p) eqn:Hr; [|done]. intros Hk. by exists p, c.
Qed.

(** What [exec] finds starts in the text and ends after its start; it
    ends at the end of the text for a pattern that ends with [$]. *)
Lemma search_forward ic r s : forall pv f,
  search ic r pv s = Some f ->
  rest (at_start f) `suffix_of` s
  /\ rest (at_end f) `suffix_of` rest (at_start f)
  /\ (eol_ended r = true -> rest (at_end f) = []).
Proof.
  induction s as [|ch tl IH]; intros pv f; cbn [search].
  - destruct (m ic r accept (Pos pv []) []) as [[e c]|] eqn:Hm; [|done].
    intros [= <-]. cbn [at_start at_end rest]. split; [done|].
    pose proof Hm as (p' & c' & Hs & [= <- <-])%m_forward. split; [done|].
    intros He. by apply (m_to_end ic r He) in Hm as (q' & d' & Hr & [= <- <-]).
  - destruct (m ic r accept (Pos pv (ch :: tl)) []) as [[e c]|] eqn:Hm.
    + intros [= <-]. cbn [at_start at_end rest]. split; [done|].
      pose proof Hm as (p' & c' & Hs & [= <- <-])%m_forward. split; [done|].
      intros He.
      by apply (m_to_end ic r He) in Hm as (q' & d' & Hr & [= <- <-]).
    + intros (Hs & He & Hend)%IH. split; [by apply suffix_cons_r|done].
Qed.
Import Samples.

(** ** What the normalizer leaves of a title *)

Lemma erase_tails_reach_end :
  eol_ended deptSpaceRe = true /\ eol_ended deptDashRe = true
  /\ eol_ended salaryRangeRe = true /\ eol_ended poundRe = true
  /\ eol_ended equityRe = true /\ eol_ended fullTimeRe = true
  /\ eol_ended deptEndRe = true.
Proof. by vm_compute. Qed.

Lemma replace_erase_take ic r s :
  eol_ended r = true -> exists n, replace ic r erase s = take n s.
Proof.
  intros Hr. unfold replace.
  destruct (search ic r None s) as [f|] eqn:Hs.
  - apply search_forward in Hs as (_ & _ & He). rewrite (He Hr).
    eexists. unfold erase. by rewrite !app_nil_r.
  - exists (length s). by rewrite firstn_all.
Qed.

Lemma replaceAll_from_nil fuel ic r whole pv :
  replaceAll_from fuel ic r erase whole pv [] = [].
Proof.
  destruct fuel as [|fuel]; [done|]. cbn [replaceAll_from].
  destruct (search ic r pv []) as [f|] eqn:Hs; [|done].
  apply search_forward in Hs as (Hb%suffix_nil_inv & He & _).
  rewrite Hb in He. apply suffix_nil_inv in He. by rewrite Hb, He.
Qed.

Lemma replaceAll_erase_take ic r s :
  eol_ended r = true -> exists n, replaceAll ic r erase s = take n s.
Proof.
  intros Hr. unfold replaceAll. cbn [replaceAll_from].
  destruct (search ic r None s) as [f|] eqn:Hs.
  - apply search_forward in Hs as (_ & _ & He). rewrite (He Hr).
    eexists. unfold erase.
    destruct (length [] =? length (rest (at_start f)));
      [|rewrite replaceAll_from_nil]; by rewrite !app_nil_r.
  - exists (length s). by rewrite firstn_all.
Qed.

Lemma splitHead_take sep s : exists n, Js.splitHead sep s = take n s.
Proof.
  unfold Js.splitHead. destruct (indexOf sep s) as [i|]; [by exists i|].
  exists (length s). by rewrite firstn_all.
Qed.

Lemma starts_space_take n s :
  starts_space s = false -> starts_space (take n s) = false.
Proof. by destruct n, s. Qed.

Lemma trim_take s : starts_space s = false -> exists n, trim s = take n s.
Proof. intros Hs. unfold trim. rewrite (trimStart_id s Hs). apply trimEnd_take. Qed.

Lemma head_of_refl s : head_of s s.
Proof. intros Hs. split; [done|]. exists (length s). by rewrite firstn_all. Qed.

Lemma head_of_trans a b c : head_of a b -> head_of b c -> head_of a c.
Proof.
  intros Hab Hbc Hc. destruct (Hbc Hc) as [Hb [n ->]].
  destruct (Hab Hb) as [Ha [k ->]]. split; [done|].
  exists (k `min` n). apply take_take.
Qed.

Lemma head_of_take_eq t s : (exists n, t = take n s) -> head_of t s.
Proof. intros [n ->] Hs. split; [by apply starts_space_take|by exists n]. Qed.

Lemma head_of_trim s : head_of (trim s) s.
Proof.
  intros Hs. destruct (trim_take s Hs) as [n Hn]. rewrite Hn.
  split; [by apply starts_space_take|by exists n].
Qed.

Lemma head_of_splitHead sep s : head_of (Js.splitHead sep s) s.
Proof. apply head_of_take_eq, splitHead_take. Qed.

Lemma head_of_replace ic r s :
  eol_ended r = true -> head_of (replace ic r erase s) s.
Proof. intros Hr. by apply head_of_take_eq, replace_erase_take. Qed.

Lemma head_of_replaceAll ic r s :
  eol_ended r = true -> head_of (replaceAll ic r erase s) s.
Proof. intros Hr. by apply head_of_take_eq, replaceAll_erase_take. Qed.

Ltac heads :=
  repeat first
    [ apply head_of_refl
    | eapply head_of_trans; [apply head_of_trim|]
    | eapply head_of_trans; [apply head_of_splitHead|]
    | eapply head_of_trans; [apply head_of_replace; apply erase_tails_reach_end|]
    | eapply head_of_trans; [apply head_of_replaceAll; apply erase_tails_reach_end|] ].

Lemma cut_head t : head_of (cut t) t.
Proof. unfold cut. destruct (90 <? _); heads. Qed.

Lemma undept_head t : head_of (undept t) t.
Proof. unfold undept. heads. Qed.

Lemma tidy_head t : head_of (tidy t) t.
Proof. unfold tidy. destruct (includes _ t); heads. Qed.

Lemma endDept_head t : head_of (endDept t) t.
Proof. unfold endDept. heads. Qed.

Lemma titleOf_head job :
  exists n, titleOf job = take n (cleanText (job_title job)).
Proof.
  assert (head_of (titleOf job) (cleanText (job_title job))) as H.
  { unfold titleOf.
    eapply head_of_trans; [apply endDept_head|].
    eapply head_of_trans; [apply tidy_head|].
    eapply head_of_trans; [apply undept_head|]. apply cut_head. }
  apply H. pose proof (cleanText_tidy (job_title job)) as Ht.
  unfold tidy_text, trimmed in Ht.
  apply andb_true_iff in Ht as [_ [Ht%negb_true_iff _]%andb_true_iff]. done.
Qed.

Lemma titleOf_tidy job : tidy_text (titleOf job) = true.
Proof.
  unfold tidy_text. apply andb_true_iff. split.
  - destruct (titleOf_head job) as [n ->]. apply single_spaced_take.
    pose proof (cleanText_tidy (job_title job)) as Ht.
    by apply andb_true_iff in Ht as [? _].
  - unfold titleOf, endDept. apply trim_trimmed.
Qed.

(** X1.  The title of an accepted record is a head of the cleaned input
    title: the normalizer only ever cuts a tail off, it never rewrites or
    adds; and what is left is single-spaced with no white space at either
    end. *)
Theorem accepted_title_is_head (job out : Job) :
  normalizeJob job = Some out ->
  exists t, job_title out = Some t
    /\ t `prefix_of` cleanText (job_title job)
    /\ tidy_text t = true.
Proof.
  rewrite normalizeJob_stages. destruct (rejects job); [done|].
  intros [= <-]. exists (titleOf job). split; [done|]. split.
  - destruct (titleOf_head job) as [n ->]. apply prefix_take.
  - apply titleOf_tidy.
Qed.

Lemma accepted_title_is_head_witness :
  normalizeJob noisy = Some noisy_out
  /\ exists t, job_title noisy_out = Some t
       /\ t `prefix_of` cleanText (job_title noisy)
       /\ tidy_text t = true.
Proof.
  split; [vm_compute; reflexivity|].
  apply (accepted_title_is_head noisy noisy_out). vm_compute. reflexivity.
Defined.
(** ** The location of an accepted record *)

Lemma located_tidy l : tidy_text l = true -> tidy_text (located l) = true.
Proof. intros Hl. unfold located. by destruct (test true _ l). Qed.

Lemma place_tidy l remote hybrid onsite geo :
  tidy_text l = true ->
  tidy_text geo = true ->
  tidy_text (place l remote hybrid onsite geo) = true
  /\ place l remote hybrid onsite geo <> [].
Proof.
  intros Hl Hg. unfold place.
  destruct (missingLoc l) eqn:Hm.
  - destruct geo as [|g geo].
    + rewrite !andb_false_r.
      destruct remote; [done|]. destruct hybrid; [done|].
      destruct onsite; [done|]. by destruct l.
    + rewrite !andb_true_r.
      destruct remote; [split; [by apply tidy_dashed_remote|done]|].
      destruct hybrid; [split; [by apply tidy_dashed_hybrid|done]|].
      by destruct onsite.
  - destruct l as [|c l]; [done|].
    destruct (remote && negb _); [|done].
    split; [by apply tidy_dashed_remote|done].
Qed.


Lemma mid_head job :
  head_of (undept (cut (cleanText (job_title job)))) (cleanText (job_title job)).
Proof. eapply head_of_trans; [apply undept_head|apply cut_head]. Qed.

Lemma cleanText_no_space x : starts_space (cleanText x) = false.
Proof.
  pose proof (cleanText_tidy x) as Ht. unfold tidy_text, trimmed in Ht.
  by apply andb_true_iff in Ht as [_ [Ht%negb_true_iff _]%andb_true_iff].
Qed.

Lemma cleanText_spaced x : single_spaced (cleanText x) = true.
Proof.
  pose proof (cleanText_tidy x) as Ht.
  by apply andb_true_iff in Ht as [? _].
Qed.

Lemma tidy_mid_spaced job :
  single_spaced (tidy (undept (cut (cleanText (job_title job))))) = true.
Proof.
  assert (head_of (tidy (undept (cut (cleanText (job_title job)))))
                  (cleanText (job_title job))) as Hh.
  { eapply head_of_trans; [apply tidy_head|apply mid_head]. }
  destruct (Hh (cleanText_no_space _)) as [_ [n ->]].
  apply single_spaced_take, cleanText_spaced.
Qed.

Lemma locationOf_tidy job :
  tidy_text (locationOf job) = true /\ locationOf job <> [].
Proof.
  unfold locationOf. apply place_tidy.
  - apply located_tidy, cleanText_tidy.
  - apply geoHint_tidy, tidy_mid_spaced.
Qed.

(** X2.  An accepted record always has a location: it is never empty,
    whatever the input location was (missing, empty, white space), and it
    is single-spaced with no white space at either end. *)
Theorem accepted_location_present (job out : Job) :
  normalizeJob job = Some out ->
  exists l, job_location out = Some l /\ l <> [] /\ tidy_text l = true.
Proof.
  rewrite normalizeJob_stages. destruct (rejects job); [done|].
  intros [= <-]. exists (locationOf job).
  destruct (locationOf_tidy job) as [Ht Hn]. done.
Qed.

Lemma accepted_location_present_witness :
  normalizeJob noisy = Some noisy_out
  /\ exists l, job_location noisy_out = Some l /\ l <> [] /\ tidy_text l = true.
Proof.
  split; [vm_compute; reflexivity|].
  apply (accepted_location_present noisy noisy_out). vm_compute. reflexivity.
Defined.


(** ** What [cleanText] and [clean] give *)

Lemma trimStart_nil s : trimStart s = [] <-> forallb is_space s = true.
Proof.
  induction s as [|c s IH]; simpl; [done|].
  destruct (is_space c); simpl; [done|]. split; intros; done.
Qed.

Lemma forallb_rev {A} (f : A -> bool) l : forallb f (rev l) = forallb f l.
Proof.
  induction l as [|x l IH]; simpl; [done|].
  rewrite forallb_app, IH. simpl. rewrite andb_true_r. apply andb_comm.
Qed.

Lemma trim_nil s : trim s = [] <-> forallb is_space s = true.
Proof.
  unfold trim, trimEnd. split.
  - intros Ht. apply (f_equal (@rev N)) in Ht. rewrite rev_involutive in Ht.
    simpl in Ht. apply trimStart_nil in Ht. rewrite forallb_rev in Ht.
    pose proof (trimStart_no_space s) as Hs.
    apply trimStart_nil.
    destruct (trimStart s) as [|c u]; [done|].
    simpl in Ht, Hs. by rewrite Hs in Ht.
  - intros Hs%trimStart_nil. by rewrite Hs.
Qed.

Lemma squeeze_all_space s : forall skip,
  forallb is_space (squeeze skip s) = forallb is_space s.
Proof.
  induction s as [|c s IH]; intros skip; simpl; [done|].
  destruct (is_space c) eqn:Hc.
  - destruct skip; simpl; by rewrite IH.
  - simpl. by rewrite Hc.
Qed.

Lemma cleanText_nil s :
  cleanText (Some s) = [] <-> forallb is_space s = true.
Proof.
  rewrite cleanText_squeeze. simpl. rewrite trim_nil.
  by rewrite squeeze_all_space.
Qed.

Lemma clean_cleanText x : clean x = cleanText x.
Proof. reflexivity. Qed.

(** X4.  [cleanText] of the build pass and [clean] of the scrape pass
    are the same function, and a normal form: the result is single-spaced
    with no white space at either end, cleaning it again leaves it as it
    is, a text is left as it is exactly when it is already of that form,
    and the result is empty exactly when the text is all white space. *)
Theorem cleaning_is_a_normal_form :
  (forall x, clean x = cleanText x)
  /\ (forall x, tidy_text (cleanText x) = true)
  /\ (forall x, cleanText (Some (cleanText x)) = cleanText x)
  /\ (forall s, cleanText (Some s) = s <-> tidy_text s = true)
  /\ (forall s, cleanText (Some s) = [] <-> forallb is_space s = true)
  /\ cleanText None = [].
Proof.
  split; [apply clean_cleanText|]. split; [apply cleanText_tidy|].
  split; [apply cleanText_idem|]. split; [|split; [apply cleanText_nil|done]].
  intros s. split; [|apply cleanText_id].
  intros Hs. rewrite <- Hs. apply cleanText_tidy.
Qed.
(** ** The build pass: nothing lost, nothing made up *)

Lemma sift_lengths raw :
  length (omap normalizeJob raw)
  + length (filter (fun j => normalizeJob j = None) raw) = length raw.
Proof.
  induction raw as [|j raw IH]; [done|].
  rewrite filter_cons. cbn [omap list_omap].
  destruct (decide (normalizeJob j = None)) as [Hn|Hn].
  - rewrite Hn. cbn [length]. rewrite <- IH. apply Nat.add_succ_r.
  - destruct (normalizeJob j); [|done]. cbn [length]. by rewrite <- IH.
Qed.

Lemma normalizeJob_fields job out :
  normalizeJob job = Some out ->
  portfolio out = portfolio job
  /\ company_name out = company_name job
  /\ company_careers_url out = company_careers_url job
  /\ job_url out = job_url job
  /\ source_type out = source_type job
  /\ source_job_id out = source_job_id job
  /\ job_key out = job_key job
  /\ status out = status job
  /\ last_seen_utc out = last_seen_utc job.
Proof.
  rewrite normalizeJob_stages. destruct (rejects job); [done|].
  by intros [= <-].
Qed.

Lemma cleaned_sublist {B} (f : Job -> B) raw :
  (forall job out, normalizeJob job = Some out -> f out = f job) ->
  (f <$> omap normalizeJob raw) `sublist_of` (f <$> raw).
Proof.
  intros Hf. induction raw as [|j raw IH]; simpl; [done|].
  destruct (normalizeJob j) as [nj|] eqn:Hn; simpl.
  - rewrite (Hf _ _ Hn). by apply sublist_skip.
  - by apply sublist_cons.
Qed.

Lemma sublist_NoDup {B} (l k : list B) : l `sublist_of` k -> NoDup k -> NoDup l.
Proof.
  induction 1 as [|x l k Hs IH|x l k Hs IH]; [done| |].
  - intros [Hx Hk]%NoDup_cons. apply NoDup_cons. split; [|by apply IH].
    intros Hin. apply Hx. by eapply elem_of_sublist.
  - intros [_ Hk]%NoDup_cons. by apply IH.
Qed.

(** X5.  The build pass loses no record and makes none up: every raw
    record is either in the clean list, normalized, or in the rejected
    list, as it was read, so the two counts it writes add up with the
    number of rejected records; the keys of the clean list are a
    sub-sequence of the keys of the raw list, in the same order, since the
    normalizer leaves every field but the title and the location as it
    was; so a raw list without a repeated key gives a clean list without a
    repeated key. *)
Theorem build_partitions_raw sortJobs companies raw stamp out :
  BuildSite.main sortJobs companies raw stamp = Some out ->
  raw_count out = clean_count out + length (rejected_jobs_json out)
  /\ rejected_jobs_json out `sublist_of` raw
  /\ clean_count out = length (sift raw).1
  /\ (job_key <$> (sift raw).1) `sublist_of` (job_key <$> raw)
  /\ (job_url <$> (sift raw).1) `sublist_of` (job_url <$> raw)
  /\ (NoDup (job_key <$> raw) -> NoDup (job_key <$> (sift raw).1)).
Proof.
  unfold BuildSite.main. rewrite sift_spec.
  destruct (sortJobs _) as [sorted|]; [|done]. intros [= <-]. simpl.
  split; [by rewrite sift_lengths|].
  split; [apply sublist_filter|]. split; [done|].
  assert (Hk : (job_key <$> omap normalizeJob raw) `sublist_of` (job_key <$> raw)).
  { apply cleaned_sublist. intros job o Ho.
    by destruct (normalizeJob_fields _ _ Ho) as (_&_&_&_&_&_&?&_). }
  split; [done|]. split.
  - apply cleaned_sublist. intros job o Ho.
    by destruct (normalizeJob_fields _ _ Ho) as (_&_&_&?&_).
  - by apply sublist_NoDup.
Qed.

Lemma build_partitions_raw_witness :
  let raw := [noisy; posting "b" "%TEMPLATE_TITLE%"; dataEngineer] in
  BuildSite.main Some roster raw (str "2024-01-02T00:00:00.000Z")
  = Some (BuildSite.mkWritten
            (companiesOut roster (sift raw).1) (sift raw).1 (sift raw).2
            (str "2024-01-02T00:00:00.000Z") 3 2)
  /\ length (sift raw).2 = 1.
Proof.
  intros raw. split; [vm_compute; reflexivity|].
  pose proof (build_partitions_raw Some roster raw
                (str "2024-01-02T00:00:00.000Z") _ ltac:(vm_compute; reflexivity)) as [Hc _].
  vm_compute in Hc. vm_compute. lia.
Defined.
(** ** The company summary *)

Lemma count_split {A B} `{EqDecision B} (f : A -> B) (k : B) (ks : list B)
    (l : list A) :
  k ∉ ks ->
  length (filter (fun x => f x ∈ k :: ks) l)
  = length (filter (fun x => f x = k) l)
    + length (filter (fun x => f x ∈ ks) l).
Proof.
  intros Hk. induction l as [|x l IH]; [done|].
  rewrite !filter_cons.
  destruct (decide (f x = k)) as [Hx|Hx].
  - rewrite decide_True by (rewrite Hx; left).
    rewrite decide_False by (by rewrite Hx).
    cbn [length]. by rewrite IH.
  - destruct (decide (f x ∈ ks)) as [Hin|Hin].
    + rewrite decide_True by (by right).
      cbn [length]. rewrite IH. by rewrite Nat.add_succ_r.
    + rewrite decide_False; [done|].
      by intros [?|?]%elem_of_cons.
Qed.

Lemma count_by_key {A B} `{EqDecision B} (f : A -> B) (ks : list B)
    (l : list A) :
  NoDup ks ->
  sum_list ((fun k => length (filter (fun x => f x = k) l)) <$> ks)
  = length (filter (fun x => f x ∈ ks) l).
Proof.
  induction 1 as [|k ks Hk Hnd IH].
  - simpl. induction l as [|x l IHl]; [done|].
    rewrite filter_cons, decide_False; [done|]. apply not_elem_of_nil.
  - rewrite fmap_cons. cbn [sum_list]. rewrite IH. symmetry.
    by apply count_split.
Qed.

Lemma companiesOut_roles companies cleaned :
  open_roles <$> companiesOut companies cleaned
  = (fun k => length (filter (fun j => company_name j = k) cleaned))
    <$> ((fun c => Some (c_company_name c)) <$> companies).
Proof.
  unfold companiesOut.
  generalize (byCompany_count companies cleaned).
  generalize (byCompany companies cleaned). intros idx Hidx.
  induction companies as [|c cs IH]; [done|].
  cbn [List.map fmap list_fmap] in *. f_equal; [|apply IH].
  simpl. apply Hidx.
Qed.

Lemma filter_length_all {A} (P : A -> Prop) `{forall x, Decision (P x)} l :
  Forall P l -> length (filter P l) = length l.
Proof.
  induction 1 as [|x l Hx _ IH]; [done|].
  rewrite filter_cons, decide_True by done. simpl. by rewrite IH.
Qed.

(** X6.  When no name is twice on the roster, the [open_roles] of the
    company summary add up to the number of clean jobs whose company is on
    the roster: no clean job is counted twice; so the sum is at most the
    number of clean jobs, and is that number when every clean job is of a
    company of the roster. *)
Theorem summary_counts_add_up (companies : list Company) (cleaned : list Job) :
  NoDup (c_company_name <$> companies) ->
  let names := (fun c => Some (c_company_name c)) <$> companies in
  let total := sum_list (open_roles <$> companiesOut companies cleaned) in
  total = length (filter (fun j => company_name j ∈ names) cleaned)
  /\ total <= length cleaned
  /\ (Forall (fun j => company_name j ∈ names) cleaned ->
      total = length cleaned).
Proof.
  intros Hnd names total.
  assert (Ht : total = length (filter (fun j => company_name j ∈ names) cleaned)).
  { unfold total. rewrite companiesOut_roles. apply count_by_key.
    unfold names. rewrite (list_fmap_compose c_company_name Some).
    apply NoDup_fmap_2; [|done]. by intros a b [= ->]. }
  split; [done|]. split.
  - rewrite Ht. apply length_filter.
  - intros Hall. rewrite Ht. by apply filter_length_all.
Qed.

Lemma summary_counts_add_up_witness :
  sum_list (open_roles <$> companiesOut roster [noisy_out; dataEngineer]) = 2.
Proof.
  assert (Hnd : NoDup (c_company_name <$> roster)).
  { vm_compute. apply NoDup_cons. split; [|apply NoDup_singleton].
    intros Hin. apply list_elem_of_singleton in Hin. discriminate Hin. }
  destruct (summary_counts_add_up roster [noisy_out; dataEngineer] Hnd)
    as (_ & _ & Hall).
  apply Hall. repeat constructor.
Defined.
(** ** De-duplication as a normal form *)

Section DedupeMore.
Context {A K : Type} `{Countable K}.
Variable key : A -> K.

Lemma kept_id l : forall seen,
  NoDup (key <$> l) -> (forall x, x ∈ l -> key x ∉ seen) ->
  kept key seen l = l.
Proof.
  induction l as [|x l IH]; intros seen Hnd Hseen; simpl; [done|].
  rewrite fmap_cons in Hnd. apply NoDup_cons in Hnd as [Hx Hnd].
  rewrite decide_False by (apply Hseen; left).
  f_equal. apply IH; [done|]. intros y Hy.
  rewrite elem_of_union, elem_of_singleton. intros [Hk|Hk].
  - apply Hx. rewrite <- Hk. apply list_elem_of_fmap. by exists y.
  - apply (Hseen y); [by right|done].
Qed.

Lemma kept_complete l : forall seen x,
  x ∈ l -> key x ∈ seen \/ key x ∈ key <$> kept key seen l.
Proof.
  induction l as [|y l IH]; intros seen x; [by intros ?%elem_of_nil|].
  simpl. intros [->|Hin]%elem_of_cons.
  - destruct (decide (key y ∈ seen)); [by left|]. right. rewrite fmap_cons. left.
  - destruct (decide (key y ∈ seen)); [by apply IH|].
    destruct (IH ({[key y]} ∪ seen) x Hin) as [Hs|Hk].
    + apply elem_of_union in Hs as [->%elem_of_singleton|Hs]; [|by left].
      right. rewrite fmap_cons. left.
    + right. rewrite fmap_cons. by right.
Qed.

Lemma dedupe_id l : NoDup (key <$> l) -> dedupe key l = l.
Proof.
  intros Hnd. rewrite dedupe_kept. apply kept_id; [done|].
  intros x _. apply not_elem_of_empty.
Qed.

Lemma dedupe_complete l x : x ∈ l -> key x ∈ key <$> dedupe key l.
Proof.
  intros Hx. rewrite dedupe_kept.
  destruct (kept_complete l ∅ x Hx) as [Hs|Hk]; [|done].
  by apply not_elem_of_empty in Hs.
Qed.

(** X7.  The de-duplication loop, as [main] and the adapters run it, is
    a normal form: running it on its own result changes nothing; a list is
    left as it is exactly when no key occurs twice in it; and no key is
    lost: every key of the list is the key of a record of the result. *)
Theorem dedupe_is_a_normal_form :
  (forall l, dedupe key (dedupe key l) = dedupe key l)
  /\ (forall l, dedupe key l = l <-> NoDup (key <$> l))
  /\ (forall l x, x ∈ l -> key x ∈ key <$> dedupe key l).
Proof.
  split; [|split].
  - intros l. apply dedupe_id, dedupe_NoDup.
  - intros l. split; [|apply dedupe_id].
    intros Hl. rewrite <- Hl. apply dedupe_NoDup.
  - apply dedupe_complete.
Qed.
End DedupeMore.
(** ** Where a record of the scrape pass comes from *)

Import Origin.

Section Provenance.
Context `{Platform}.

Lemma clean_squash s : clean (Some (squash s)) = squash s.
Proof. apply (cleanText_idem (Some s)). Qed.

Lemma clean_trimmed x : trimmed (clean x) = true.
Proof. apply trim_trimmed. Qed.

Lemma length_nonempty {A} (l : list A) n : (length l <? S n) = false -> l <> [].
Proof. by destruct l. Qed.

Lemma customTitle_trimmed text : trimmed (customTitle text) = true.
Proof.
  unfold customTitle.
  repeat match goal with
         | |- context [if ?b then _ else _] => destruct b
         end; apply trim_trimmed.
Qed.

Lemma link_made_record source company careersUrl title location url t :
  title <> [] -> trimmed title = true -> location ∈ sentinels ->
  link_made source (mkCompany company careersUrl)
    (record source company careersUrl title location url t).
Proof. intros. by exists title, location, url, t. Qed.

Lemma not_listed_sentinel : str "Not listed" ∈ sentinels.
Proof. left. Qed.

Lemma ripplingAnchor_made company careersUrl a mk t :
  ripplingAnchor company careersUrl a = Some mk ->
  link_made (str "rippling") (mkCompany company careersUrl) (mk t).
Proof.
  unfold ripplingAnchor.
  destruct (negb (includes _ _)); [done|].
  destruct (absUrl careersUrl _) as [url|]; [|done].
  destruct (negb (sameOriginOnly careersUrl url)); [done|].
  pose proof (clean_trimmed (Some (a_text a))) as Ht.
  destruct (clean _) as [|c u] eqn:Hc; [done|].
  intros [= <-].
  apply link_made_record; [done|done|apply not_listed_sentinel].
Qed.

Lemma breezyAnchor_made company careersUrl a mk t :
  breezyAnchor company careersUrl a = Some mk ->
  link_made (str "breezy") (mkCompany company careersUrl) (mk t).
Proof.
  unfold breezyAnchor.
  destruct (negb (includes _ _)); [done|].
  destruct (absUrl careersUrl _) as [url|]; [|done].
  destruct (negb (sameOriginOnly careersUrl url)); [done|].
  pose proof (clean_trimmed (Some (a_text a))) as Ht.
  destruct (clean _) as [|c u] eqn:Hc; [done|].
  destruct (Js.eqb _ _); [done|].
  intros [= <-].
  apply link_made_record; [done|done|apply not_listed_sentinel].
Qed.

Lemma builtInAnchor_made company careersUrl a mk t :
  builtInAnchor company careersUrl a = Some mk ->
  link_made (str "built_in") (mkCompany company careersUrl) (mk t).
Proof.
  unfold builtInAnchor.
  destruct (absUrl careersUrl _) as [url|]; [|done].
  destruct (negb (sameOriginOnly careersUrl url)); [done|].
  destruct (negb (test _ _ _)); [done|].
  destruct (_ <? 3) eqn:Hl; [done|].
  intros [= <-].
  apply link_made_record;
    [by eapply length_nonempty|apply clean_trimmed|apply not_listed_sentinel].
Qed.

Lemma customAnchor_made company careersUrl a mk t :
  customAnchor company careersUrl a = Some mk ->
  link_made (str "custom_html") (mkCompany company careersUrl) (mk t).
Proof.
  unfold customAnchor.
  destruct (trim _) as [|c h]; [done|].
  destruct (startsWith _ _); [done|].
  destruct (absUrl careersUrl _) as [url|]; [|done].
  destruct (negb (sameOriginOnly careersUrl url)); [done|].
  destruct (test true blockPath url); [done|].
  destruct (newURL url None) as [u|]; [|done].
  destruct (newURL careersUrl None) as [b|]; [|done].
  destruct (negb (test _ _ _)); [done|].
  destruct (Js.eqb _ _); [done|].
  destruct (_ <? 6) eqn:Hl; [done|].
  destruct (_ <? 2); [done|].
  intros [= <-].
  apply link_made_record;
    [by eapply length_nonempty|apply customTitle_trimmed|apply not_listed_sentinel].
Qed.

Lemma scan_all {X} (P : Job -> Prop) (pick : X -> option (jsstring -> Job))
    xs w out w' :
  (forall x mk, pick x = Some mk -> forall t, P (mk t)) ->
  scan pick xs [] w = (Ok out, w') ->
  Forall P out.
Proof.
  intros Hpick Hs. apply Forall_forall. intros j Hj.
  destruct (scan_elem _ _ _ _ _ _ Hs Hj) as (x & mk & _ & Hp & [t ->]).
  by eapply Hpick.
Qed.

Lemma stampNew_all (P : Job -> Prop) (Q : Hit -> Prop) mk hits :
  forall seen out w jobs w',
  (forall h t, Q h -> P (mk h t)) ->
  Forall Q hits ->
  Forall P out ->
  stampNew mk hits seen out w = (Ok jobs, w') ->
  Forall P jobs.
Proof.
  induction hits as [|h hits IH]; intros seen out w jobs w' Hmk Hq Hout; simpl.
  - by intros [= <- _].
  - apply Forall_cons in Hq as [Hh Hq].
    destruct (decide (h_url h ∈ seen)); [by apply IH|].
    unfold bind, now. destruct (nowISO w) as [t w1].
    apply IH; [done|done|]. apply Forall_app. split; [done|].
    constructor; [by apply Hmk|constructor].
Qed.

Lemma pageScan_all (Q : Hit -> Prop) pick xs : forall out hits,
  (forall x h, x ∈ xs -> pick x = Ok (Some h) -> Q h) ->
  Forall Q out ->
  pageScan pick xs out = Ok hits ->
  Forall Q hits.
Proof.
  induction xs as [|x xs IH]; intros out hits Hpick Hout; simpl.
  - by intros [= <-].
  - destruct (pick x) as [[h|]|e] eqn:Hp; [| |done].
    + apply IH; [intros y k Hy; apply Hpick; by right|].
      apply Forall_app. split; [done|].
      constructor; [|constructor]. apply (Hpick x); [left|done].
    + apply IH; [|done]. intros y k Hy. apply Hpick. by right.
Qed.

Lemma inPage_hit d a k h :
  inPage d a k = Ok (Some h) ->
  exists url u,
    default [] (d_href a) <> []
    /\ href <$> newURL (default [] (d_href a)) (Some (location_href d)) = Some url
    /\ newURL url None = Some u
    /\ origin u = location_origin d
    /\ k url = Some h.
Proof.
  unfold inPage. destruct (default [] (d_href a)) as [|c hr] eqn:Hh; [done|].
  destruct (newURL (c :: hr) _) as [r|]; [|done].
  destruct (newURL (href r) None) as [u|] eqn:Hu; [|done].
  destruct (Js.eqb (origin u) (location_origin d)) eqn:Ho; [|done].
  cbn [negb]. intros [= Hk]. apply eqb_eq in Ho.
  by exists (href r), u.
Qed.

Lemma squash_nonempty s : (length (squash s) <? 3) = false -> squash s <> [].
Proof. apply length_nonempty. Qed.

Lemma ashbyScript_hits d hits :
  ashbyScript d = Ok hits -> Forall (same_document d) hits.
Proof.
  unfold ashbyScript. apply pageScan_all; [|constructor].
  intros a h _ (url & u & _ & _ & Hu & Ho & Hk)%inPage_hit.
  destruct (negb (test true uuidRe url)); [done|].
  destruct (squash (default [] (d_textContent a))) as [|c t] eqn:Ht; [done|].
  injection Hk as <-. unfold same_document. simpl.
  split; [by exists u|]. split; [done|]. eexists. by rewrite Ht.
Qed.

Lemma workdayScript_hits d hits :
  workdayScript d = Ok hits -> Forall (same_document d) hits.
Proof.
  unfold workdayScript. apply pageScan_all; [|constructor].
  intros a h _ (url & u & _ & _ & Hu & Ho & Hk)%inPage_hit.
  destruct (_ <? 3) eqn:Hl; [done|].
  injection Hk as <-. unfold same_document. simpl.
  split; [by exists u|]. split; [by apply squash_nonempty|]. by eexists.
Qed.

Lemma scalisScript_hits d hits :
  scalisScript d = Ok hits -> Forall (same_document d) hits.
Proof.
  unfold scalisScript. apply pageScan_all; [|constructor].
  intros a h _ (url & u & _ & _ & Hu & Ho & Hk)%inPage_hit.
  destruct (negb (test true scalisJobRe url)); [done|].
  destruct (_ <? 3) eqn:Hl; [done|].
  injection Hk as <-. unfold same_document. simpl.
  split; [by exists u|]. split; [by apply squash_nonempty|]. by eexists.
Qed.

Lemma rendered_all (P : Job -> Prop) (Q : Dom -> Hit -> Prop)
    careersUrl waitUntil script mk w jobs w' :
  (forall d hits, script d = Ok hits -> Forall (Q d) hits) ->
  (forall d h t, Q d h -> P (mk h t)) ->
  rendered careersUrl waitUntil script mk w = (Ok jobs, w') ->
  Forall P jobs.
Proof.
  intros Hscript Hmk. unfold rendered, bind at 1.
  destruct (launch w) as [[browser|e] w1]; [|done].
  unfold bind at 1. destruct (newPage browser w1) as [[page|e] w2]; [|done].
  unfold finally, bind at 1.
  destruct (goto page careersUrl waitUntil w2) as [[[]|e] w3]; [|done].
  unfold bind at 1. destruct (waitForTimeout page 1500 w3) as [[[]|e] w4];
    [|done].
  unfold bind at 1. destruct (domOf page w4) as [[d|e] w5]; [|done].
  unfold bind, lift. destruct (script d) as [hits|e] eqn:Hd; [|done].
  destruct (stampNew mk hits ∅ [] w5) as [[out|e] w6] eqn:Hs; [|done].
  intros [= <- _].
  eapply (stampNew_all P (Q d)); [apply Hmk|by eapply Hscript|constructor|exact Hs].
Qed.

Lemma ashbyLocation_sentinel cardText : ashbyLocation cardText ∈ sentinels.
Proof.
  unfold ashbyLocation, sentinels.
  destruct (_ || _); [right; left|].
  destruct (_ || _); [right; right; left|left].
Qed.

Lemma hit_title h d : same_document d h ->
  clean (Some (h_title h)) <> [] /\ trimmed (clean (Some (h_title h))) = true.
Proof.
  intros (_ & Hn & text & Ht). split; [|apply clean_trimmed].
  rewrite Ht, clean_squash. by rewrite <- Ht.
Qed.

Lemma Forall_sublist {A} (P : A -> Prop) l k :
  l `sublist_of` k -> Forall P k -> Forall P l.
Proof.
  intros Hs Hk. rewrite Forall_forall in Hk |- *.
  intros x Hx. apply Hk. by eapply elem_of_sublist.
Qed.

Lemma dispatch_made source c w st jobs w' :
  dispatch source c w = (Ok (st, jobs), w') -> Forall (made source c) jobs.
Proof.
  destruct c as [name url]. unfold dispatch. cbn [c_company_name c_careers_url].
  assert (Hok : forall adapter : M (list Job),
            (forall out w1, adapter w = (Ok out, w1) ->
                            Forall (made source (mkCompany name url)) out) ->
            bind adapter (fun jobs => ret (str "ok", jobs)) w
              = (Ok (st, jobs), w') ->
            Forall (made source (mkCompany name url)) jobs).
  { intros adapter Ha. unfold bind, ret.
    destruct (adapter w) as [[out|e] w1] eqn:Hrun; [|done].
    intros [= _ <- _]. by eapply Ha. }
  assert (Hstatic : forall (P : Job -> Prop)
              (pick : Anchor -> option (jsstring -> Job)) msg
              (after : list Job -> list Job),
            (forall x mk, pick x = Some mk -> forall t, P (mk t)) ->
            (forall out, after out `sublist_of` out) ->
            forall out w1,
              bind (fetchText url) (fun r =>
                if negb (f_ok r) then throw (msg r)
                else bind (scan pick (anchorsOf (f_text r)) [])
                          (fun out => ret (after out))) w = (Ok out, w1) ->
              Forall P out).
  { intros P pick msg after Hpick Hafter out w1. unfold bind at 1.
    destruct (fetchText url w) as [[r|e] w0]; [|done].
    destruct (negb (f_ok r)); [done|]. unfold bind, ret.
    destruct (scan pick (anchorsOf (f_text r)) [] w0) as [[o|e] w2] eqn:Hs;
      [|done].
    intros [= <- _]. eapply Forall_sublist; [apply Hafter|].
    by eapply scan_all. }
  assert (Hlink : forall lit,
            Js.eqb lit (str "greenhouse") = false ->
            made lit (mkCompany name url) = link_made lit (mkCompany name url)).
  { intros lit Hl. unfold made. by rewrite Hl. }
  destruct (Js.eqb source (str "greenhouse")) eqn:E1;
    [apply eqb_eq in E1; subst source|].
  { apply Hok. intros out w1. unfold scrapeGreenhouse.
    destruct (match_group true boardRe 1 url) as [[|b board]|]; [done| |done].
    unfold bind at 1. destruct (fetchJobs _ w) as [[res|e] w0]; [|done].
    destruct (negb (g_ok res)); [done|]. unfold bind, ret.
    destruct (scan _ (g_jobs res) [] w0) as [[o|e] w2] eqn:Hs; [|done].
    intros [= <- _].
    assert (Ho : Forall (fun j => exists g t,
                   j = greenhouseRecord name url g t) o).
    { eapply scan_all; [|exact Hs]. intros x mk [= <-] t. by eexists _, _. }
    rewrite Forall_forall in Ho |- *.
    intros j [Hj Ht]%list_elem_of_In%filter_In.
    destruct (Ho j) as (g & t & ->); [by apply list_elem_of_In|].
    unfold made. change (Js.eqb (str "greenhouse") (str "greenhouse")) with true.
    cbv iota. by exists g, t. }
  destruct (Js.eqb source (str "rippling")) eqn:E2;
    [apply eqb_eq in E2; subst source|].
  { apply Hok. intros out w1. rewrite Hlink by done.
    apply (Hstatic _ _ (fun r => str "Rippling fetch failed: " ++ f_status r)
             (dedupe job_url)); [|apply dedupe_sublist].
    intros x mk Hp t. by apply (ripplingAnchor_made _ _ x). }
  destruct (Js.eqb source (str "breezy")) eqn:E3;
    [apply eqb_eq in E3; subst source|].
  { apply Hok. intros out w1. rewrite Hlink by done.
    apply (Hstatic _ _ (fun r => str "Breezy fetch failed: " ++ f_status r)
             (dedupe job_url)); [|apply dedupe_sublist].
    intros x mk Hp t. by apply (breezyAnchor_made _ _ x). }
  destruct (Js.eqb source (str "built_in")) eqn:E4;
    [apply eqb_eq in E4; subst source|].
  { apply Hok. intros out w1. rewrite Hlink by done.
    apply (Hstatic _ _ (fun r => str "Built In fetch failed: " ++ f_status r)
             (dedupe job_url)); [|apply dedupe_sublist].
    intros x mk Hp t. by apply (builtInAnchor_made _ _ x). }
  destruct (Js.eqb source (str "ashby")) eqn:E5;
    [apply eqb_eq in E5; subst source|].
  { apply Hok. intros out w1. rewrite Hlink by done.
    apply (rendered_all _ _ _ _ _ _ _ _ _ ashbyScript_hits).
    intros d h t Hh. destruct (hit_title _ _ Hh) as [Hn Ht].
    apply link_made_record; [done|done|apply ashbyLocation_sentinel]. }
  destruct (Js.eqb source (str "workday")) eqn:E6;
    [apply eqb_eq in E6; subst source|].
  { apply Hok. intros out w1. rewrite Hlink by done.
    apply (rendered_all _ _ _ _ _ _ _ _ _ workdayScript_hits).
    intros d h t Hh. destruct (hit_title _ _ Hh) as [Hn Ht].
    apply link_made_record; [done|done|apply not_listed_sentinel]. }
  destruct (Js.eqb source (str "scalis")) eqn:E7;
    [apply eqb_eq in E7; subst source|].
  { apply Hok. intros out w1. rewrite Hlink by done.
    apply (rendered_all _ _ _ _ _ _ _ _ _ scalisScript_hits).
    intros d h t Hh. destruct (hit_title _ _ Hh) as [Hn Ht].
    apply link_made_record; [done|done|apply not_listed_sentinel]. }
  destruct (Js.eqb source (str "custom_html")) eqn:E8;
    [apply eqb_eq in E8; subst source|].
  { apply Hok. intros out w1. rewrite Hlink by done.
    apply (Hstatic _ _ (fun r => str "Custom HTML fetch failed: " ++ f_status r)
             (fun out => out)); [|done].
    intros x mk Hp t. by apply (customAnchor_made _ _ x). }
  by intros [= _ <- _].
Qed.

End Provenance.
(** ** From the roster to the written records *)

Section Trace.
Context `{Platform}.

Lemma visit_trace c w cov jobs w' :
  visit c w = (Ok (cov, jobs), w') ->
  Forall (made (detectSource (c_careers_url c)) c) jobs
  /\ cov_open_roles_raw cov = length jobs
  /\ accounted cov.
Proof.
  unfold visit, bind at 1, attempt.
  destruct (dispatch _ c w) as [[[st js]|e] w1] eqn:Hd;
    unfold bind, now; destruct (nowISO w1) as [t w2]; intros [= <- <- _].
  - split; [by eapply dispatch_made|]. split; [done|].
    unfold accounted. cbn [cov_status cov_open_roles_raw cov_error].
    destruct (dispatch_known _ c (detectSource_known (c_careers_url c)))
      as (adapter & Ha).
    rewrite Ha in Hd. unfold bind, ret in Hd.
    destruct (adapter w) as [[o|e] w3]; [|done]. injection Hd as <- <- _.
    change (Js.eqb (str "ok") (str "ok")) with true. cbn [andb].
    destruct o as [|j o]; [right; by left|left]. simpl. repeat split. lia.
  - split; [constructor|]. split; [done|]. right. by right.
Qed.

Lemma visitAll_trace cs : forall raw cov w raw' cov' w',
  visitAll cs raw cov w = (Ok (raw', cov'), w') ->
  exists new newcov,
    raw' = raw ++ new /\ cov' = cov ++ newcov
    /\ Forall (fun j => exists c, c ∈ cs
                  /\ made (detectSource (c_careers_url c)) c j) new
    /\ sum_list (cov_open_roles_raw <$> newcov) = length new
    /\ Forall accounted newcov.
Proof.
  induction cs as [|c cs IH]; intros raw cov w raw' cov' w'; simpl.
  - intros [= <- <- _]. exists [], []. by rewrite !app_nil_r.
  - unfold bind. destruct (visit c w) as [[[cv jobs]|e] w1] eqn:Hv; [|done].
    intros Hrest. apply IH in Hrest as (new & newcov & -> & -> & Hn & Hs & Ha).
    apply visit_trace in Hv as (Hm & Hl & Hc).
    exists (jobs ++ new), (cv :: newcov). cbn [fst snd].
    rewrite <- !app_assoc. split; [done|]. split; [done|]. split; [|split].
    + apply Forall_app. split.
      * eapply Forall_impl; [exact Hm|]. intros j Hj. exists c. split; [left|done].
      * eapply Forall_impl; [exact Hn|]. intros j (c' & Hc' & Hj).
        exists c'. split; [by right|done].
    + rewrite fmap_cons, length_app, <- Hs, <- Hl. reflexivity.
    + by constructor.
Qed.

Lemma made_fields source c j :
  made source c j ->
  portfolio j = Some (str "Active Capital")
  /\ company_name j = Some (c_company_name c)
  /\ company_careers_url j = Some (c_careers_url c)
  /\ source_type j = Some source
  /\ status j = Some (str "open")
  /\ exists id, source_job_id j = Some id
       /\ (job_key j = Some (source ++ str ":" ++ id)
           \/ id = [] /\ source = str "greenhouse").
Proof.
  unfold made. destruct (Js.eqb source (str "greenhouse")) eqn:E.
  - apply eqb_eq in E. subst source. intros (g & t & -> & _). simpl.
    repeat split. exists (default [] (gh_id g)). split; [done|].
    destruct (gh_id g) as [id|]; [by left|by right].
  - intros (title & location & url & t & -> & _). simpl.
    repeat split. exists (sha1 url). split; [done|by left].
Qed.

(** X8.  Every record the scrape pass writes was made for a row of the
    roster by the adapter of the source of that row: it carries the name
    and the URL of the row, the source type the classifier gives for that
    URL, the portfolio name and the status [open]; its [job_key] is its
    source type, a colon and its [source_job_id], but for a record of the
    API adapter without an [id], whose [source_job_id] is empty. *)
Theorem written_jobs_come_from_roster (companies : list Company) (w w' : World)
    (written : Scrape.Written) :
  Scrape.main companies w = (Ok written, w') ->
  forall j, j ∈ raw_jobs_json written ->
    exists c, c ∈ companies
      /\ portfolio j = Some (str "Active Capital")
      /\ company_name j = Some (c_company_name c)
      /\ company_careers_url j = Some (c_careers_url c)
      /\ source_type j = Some (detectSource (c_careers_url c))
      /\ status j = Some (str "open")
      /\ exists id, source_job_id j = Some id
           /\ (job_key j = Some (detectSource (c_careers_url c) ++ str ":" ++ id)
               \/ id = [] /\ detectSource (c_careers_url c) = str "greenhouse").
Proof.
  unfold Scrape.main, bind.
  destruct (visitAll companies [] [] w) as [[[raw cov]|e] w1] eqn:Hv; [|done].
  intros [= <- _] j Hj. cbn [raw_jobs_json fst] in Hj.
  apply visitAll_trace in Hv as (new & newcov & -> & _ & Hn & _).
  pose proof (elem_of_sublist _ _ _ Hj (dedupe_sublist dedupKey _)) as Hj'.
  cbn [app] in Hj'.
  rewrite Forall_forall in Hn. destruct (Hn j Hj') as (c & Hc & Hm).
  exists c. split; [done|]. by apply made_fields.
Qed.

Lemma made_keyed source c j : made source c j -> keyed j.
Proof.
  unfold made, keyed. destruct (Js.eqb source (str "greenhouse")).
  - by intros (g & t & -> & _).
  - intros (title & location & url & t & -> & _). simpl. by destruct source.
Qed.

Lemma made_link_key source c j :
  made source c j ->
  source_type j <> Some (str "greenhouse") ->
  exists url, job_url j = Some url
    /\ source_type j = Some source
    /\ job_key j = Some (source ++ str ":" ++ sha1 url).
Proof.
  unfold made. destruct (Js.eqb source (str "greenhouse")).
  - by intros (g & t & -> & _) Hs.
  - intros (title & location & url & t & -> & _) _. by exists url.
Qed.

(** X9.  Among the records the scrape pass writes, no two records of a
    link-scanning adapter have the same source type and the same job URL:
    the global de-duplication removes the repeated URLs an adapter that
    does not de-duplicate returns, since the key of such a record is made
    of its source type and of the digest of its URL. *)
Theorem written_links_are_unique (companies : list Company) (w w' : World)
    (written : Scrape.Written) :
  Scrape.main companies w = (Ok written, w') ->
  forall i k a b,
    raw_jobs_json written !! i = Some a ->
    raw_jobs_json written !! k = Some b ->
    source_type a <> Some (str "greenhouse") ->
    source_type a = source_type b ->
    job_url a = job_url b ->
    i = k.
Proof.
  unfold Scrape.main, bind.
  destruct (visitAll companies [] [] w) as [[[raw cov]|e] w1] eqn:Hv; [|done].
  intros [= <- _] i k a b Ha Hb Hg Hs Hu. cbn [raw_jobs_json fst] in Ha, Hb.
  apply visitAll_trace in Hv as (new & newcov & -> & _ & Hn & _).
  cbn [app] in Ha, Hb. rewrite Forall_forall in Hn.
  assert (Hin : forall j, j ∈ dedupe dedupKey new ->
            exists c, made (detectSource (c_careers_url c)) c j).
  { intros j Hj.
    destruct (Hn j (elem_of_sublist _ _ _ Hj (dedupe_sublist dedupKey _)))
      as (c & _ & Hm). by exists c. }
  destruct (Hin a (list_elem_of_lookup_2 _ _ _ Ha)) as (ca & Hma).
  destruct (Hin b (list_elem_of_lookup_2 _ _ _ Hb)) as (cb & Hmb).
  destruct (made_link_key _ _ _ Hma Hg) as (ua & Hua & Hsa & Hka).
  rewrite Hs in Hg.
  destruct (made_link_key _ _ _ Hmb Hg) as (ub & Hub & Hsb & Hkb).
  assert (Hk : dedupKey a = dedupKey b).
  { apply (inj Some).
    rewrite <- !dedupKey_job_key by (by eapply made_keyed).
    rewrite Hka, Hkb. congruence. }
  pose proof (dedupe_NoDup dedupKey new) as Hnd.
  eapply NoDup_lookup; [exact Hnd| |].
  - rewrite list_lookup_fmap, Ha. reflexivity.
  - rewrite list_lookup_fmap, Hb. simpl. by rewrite Hk.
Qed.

(** X10.  The coverage report accounts for every record collected: the
    [open_roles_raw] of its records add up to the number of records the
    adapters returned, of which the written list, de-duplicated, holds at
    most as many; a record has the status [ok] with at least one role and
    no error, the status [empty] with no role and no error, or the status
    [failed] with no role. *)
Theorem coverage_accounts_for_raw (companies : list Company) (w : World) :
  exists raw written w',
    visitAll companies [] [] w = (Ok (raw, coverage_json written), w')
    /\ Scrape.main companies w = (Ok written, w')
    /\ sum_list (cov_open_roles_raw <$> coverage_json written) = length raw
    /\ length (raw_jobs_json written) <= length raw
    /\ Forall accounted (coverage_json written).
Proof.
  destruct (visitAll_spec companies [] [] w) as (raw & cov & w' & Hv & _).
  exists raw, (Scrape.mkWritten (dedupe dedupKey raw) cov), w'.
  cbn [app] in Hv. cbn [coverage_json raw_jobs_json].
  split; [done|]. split; [unfold Scrape.main, bind; by rewrite Hv|].
  apply visitAll_trace in Hv as (new & newcov & -> & -> & _ & Hs & Ha).
  cbn [app]. split; [done|]. split; [|done].
  apply sublist_length, dedupe_sublist.
Qed.

End Trace.

Lemma written_jobs_come_from_roster_witness :
  let P := Toy.platform [Toy.listedLink; Toy.listedLink] in
  let acme := mkCompany (str "Acme") (str "https://acme.example.com/careers") in
  exists written w',
    @Scrape.main P [acme] 0 = (Ok written, w')
    /\ length (raw_jobs_json written) = 1
    /\ forall j, j ∈ raw_jobs_json written ->
         company_name j = Some (str "Acme")
         /\ source_type j = Some (str "custom_html").
Proof.
  intros P acme. eexists _, _. split; [vm_compute; reflexivity|].
  split; [reflexivity|]. intros j Hj.
  destruct (@written_jobs_come_from_roster P [acme] 0 _ _ ltac:(vm_compute; reflexivity) j Hj)
    as (c & Hc & _ & Hn & _ & Hs & _).
  apply list_elem_of_singleton in Hc. subst c. split; [exact Hn|exact Hs].
Defined.

Lemma written_links_are_unique_witness :
  let P := Toy.platform [Toy.listedLink; Toy.listedLink] in
  let acme := mkCompany (str "Acme") (str "https://acme.example.com/careers") in
  exists jobs w1 written w',
    @scrapeCustomHtml P (str "Acme") (c_careers_url acme) 0 = (Ok jobs, w1)
    /\ length jobs = 2
    /\ @Scrape.main P [acme] 0 = (Ok written, w')
    /\ forall i k a b,
         raw_jobs_json written !! i = Some a ->
         raw_jobs_json written !! k = Some b ->
         job_url a = job_url b -> i = k.
Proof.
  intros P acme. eexists _, _, _, _. split; [vm_compute; reflexivity|].
  split; [reflexivity|]. split; [vm_compute; reflexivity|].
  intros i k a b Ha Hb Hu.
  assert (Hin : forall n j, [@record P (str "custom_html") (str "Acme")
                     (str "https://acme.example.com/careers") (str "AI Engineer")
                     (str "Not listed") (str "https://acme.example.com/jobs/ai-engineer")
                     (str "2024-01-01T00:00:00.000Z")] !! n = Some j ->
                   source_type j = Some (str "custom_html")).
  { intros [|n] j; [by intros [= <-]|done]. }
  apply (@written_links_are_unique P [acme] 0 _ _ ltac:(vm_compute; reflexivity) i k a b Ha Hb).
  - rewrite (Hin i a Ha). discriminate.
  - by rewrite (Hin i a Ha), (Hin k b Hb).
  - exact Hu.
Defined.
(** ** How an adapter fails *)

Import Failure.

Section Failing.
Context `{Platform}.

Lemma inPage_throws d a k :
  (exists e, inPage d a k = Threw e) <-> unresolvable d a.
Proof.
  unfold inPage, unresolvable.
  destruct (default [] (d_href a)) as [|c h].
  - split; [by intros [e ?]|by intros [? _]].
  - destruct (newURL (c :: h) _) as [r|].
    + destruct (newURL (href r) None) as [u|].
      * split; [|by intros [_ ?]]. intros [e He].
        by destruct (negb (Js.eqb (origin u) (location_origin d))).
      * split; [done|]. intros _. by eexists.
    + split; [done|]. intros _. by eexists.
Qed.

Lemma pageScan_throws pick xs : forall out,
  (exists e, pageScan pick xs out = Threw e)
  <-> Exists (fun x => exists e, pick x = Threw e) xs.
Proof.
  induction xs as [|x xs IH]; intros out; simpl.
  - split; [by intros [e ?]|by intros ?%Exists_nil].
  - rewrite Exists_cons. destruct (pick x) as [[h|]|e] eqn:Hp.
    + rewrite IH. split; [by right|]. by intros [[e ?]|?].
    + rewrite IH. split; [by right|]. by intros [[e ?]|?].
    + split; [intros _; left; by exists e|intros _; by exists e].
Qed.

Lemma script_throws d k xs :
  (exists e, pageScan (fun a => inPage d a (k a)) xs [] = Threw e)
  <-> Exists (unresolvable d) xs.
Proof.
  rewrite pageScan_throws. rewrite !Exists_exists.
  split; intros (a & Ha & Hx); exists a; (split; [done|]);
    by apply (inPage_throws d a (k a)).
Qed.

(** X11.  The script an adapter runs in the rendered page fails exactly
    when one of the links it looks at has an [href] that is not empty and
    does not resolve: one such link fails the whole board, with the hits
    found before it, where the adapters that scan the fetched page skip
    the link.  The script of the Ashby adapter looks at every link, those
    of the Workday and Scalis adapters at the links with [/job/] in their
    [href]. *)
Theorem unresolvable_link_fails_the_script (d : Dom) :
  ((exists e, ashbyScript d = Threw e)
     <-> Exists (unresolvable d) (dom_anchors d))
  /\ ((exists e, workdayScript d = Threw e)
        <-> Exists (unresolvable d) (jobLinks d))
  /\ ((exists e, scalisScript d = Threw e)
        <-> Exists (unresolvable d) (jobLinks d))
  /\ (forall company careersUrl a,
        absUrl careersUrl (default [] (a_href a)) = None ->
        ripplingAnchor company careersUrl a = None
        /\ breezyAnchor company careersUrl a = None
        /\ builtInAnchor company careersUrl a = None).
Proof.
  split; [apply script_throws|]. split; [apply script_throws|].
  split; [apply script_throws|].
  intros company careersUrl a Ha.
  unfold ripplingAnchor, breezyAnchor, builtInAnchor. rewrite Ha.
  repeat split; by destruct (negb _).
Qed.

Lemma scan_returns {X} (pick : X -> option (jsstring -> Job)) xs out w :
  exists jobs w', scan pick xs out w = (Ok jobs, w').
Proof.
  destruct (scan_spec pick xs out w) as (pl & w' & Hs & _). by eexists _, _.
Qed.

Lemma static_fails (pick : Anchor -> option (jsstring -> Job)) prefix
    (after : list Job -> list Job) url w e w' :
  bind (fetchText url) (fun r =>
    if negb (f_ok r) then throw (str prefix ++ f_status r)
    else bind (scan pick (anchorsOf (f_text r)) [])
              (fun out => ret (after out))) w = (Threw e, w')
  <-> fetch_failed prefix url w e w'.
Proof.
  unfold fetch_failed, bind at 1.
  destruct (fetchText url w) as [[r|e0] w0].
  - destruct (f_ok r) eqn:Hok; cbn [negb].
    + unfold bind, ret.
      destruct (scan_returns pick (anchorsOf (f_text r)) [] w0)
        as (jobs & w1 & ->).
      split; [done|]. intros [?|(r' & [= <- <-] & Hr & _)]; [done|].
      congruence.
    + unfold throw. split.
      * intros [= <- <-]. right. by exists r.
      * intros [[=]|(r' & [= <- <-] & _ & ->)]. done.
  - split.
    + intros [= <- <-]. by left.
    + intros [[= <- <-]|(r' & [=] & _)]. done.
Qed.

(** X12.  An adapter that scans the fetched page fails in two ways only:
    the request throws, or the answer is not OK, and then the message is
    the name of the board, [fetch failed:] and the status; the scan of the
    links itself never throws. *)
Theorem static_adapter_fails_on_fetch_only company careersUrl w e w' :
  (scrapeRippling company careersUrl w = (Threw e, w')
     <-> fetch_failed "Rippling fetch failed: " careersUrl w e w')
  /\ (scrapeBreezy company careersUrl w = (Threw e, w')
        <-> fetch_failed "Breezy fetch failed: " careersUrl w e w')
  /\ (scrapeBuiltIn company careersUrl w = (Threw e, w')
        <-> fetch_failed "Built In fetch failed: " careersUrl w e w')
  /\ (scrapeCustomHtml company careersUrl w = (Threw e, w')
        <-> fetch_failed "Custom HTML fetch failed: " careersUrl w e w').
Proof.
  repeat split;
    try (apply (static_fails _ _ (dedupe job_url)));
    try (eapply (static_fails _ _ (dedupe job_url)));
    try (apply (static_fails _ _ (fun out => out)));
    try (eapply (static_fails _ _ (fun out => out))).
Qed.

(** X13.  The failure of an adapter is contained: when the adapter of a
    company throws, the turn of the loop for that company still ends, with
    no job and a coverage record that has the status [failed], the message
    thrown and no role. *)
Theorem failure_is_contained (c : Company) (w w1 : World) (e : jsstring) :
  dispatch (detectSource (c_careers_url c)) c w = (Threw e, w1) ->
  exists cov w2,
    visit c w = (Ok (cov, []), w2)
    /\ failed_with c e cov
    /\ w2 = (nowISO w1).2.
Proof.
  intros Hd. unfold visit, bind at 1, attempt. rewrite Hd.
  unfold bind, now. destruct (nowISO w1) as [t w2]. cbn [andb].
  eexists _, _. split; [reflexivity|]. by split.
Qed.

Lemma rendered_session careersUrl waitUntil script mk w :
  match launch w with
  | (Threw e, w1) =>
      rendered careersUrl waitUntil script mk w = (Threw e, w1)
  | (Ok browser, w1) =>
      match newPage browser w1 with
      | (Threw e, w2) =>
          rendered careersUrl waitUntil script mk w = (Threw e, w2)
      | (Ok page, w2) =>
          exists r w3,
            rendered careersUrl waitUntil script mk w
            = (r, closeBrowser browser (closePage page w3))
      end
  end.
Proof.
  unfold rendered.
  destruct (launch w) as [[browser|e] w1] eqn:Hl.
  - destruct (newPage browser w1) as [[page|e] w2] eqn:Hp.
    + unfold bind at 1. rewrite Hl. unfold bind at 1. rewrite Hp.
      unfold finally.
      match goal with |- context [let '(r, w') := ?c in _] =>
        destruct c as [r w3] end.
      by exists r, w3.
    + unfold bind at 1. rewrite Hl. unfold bind at 1. by rewrite Hp.
  - unfold bind at 1. by rewrite Hl.
Qed.

(** X14.  An adapter that renders the page closes the page and then the
    browser whatever happens once both are open: whether the navigation,
    the wait, the script or nothing fails; when the browser cannot be
    launched nothing is to close; when the page cannot be opened the
    adapter throws and the browser is left open. *)
Theorem browser_session_is_closed adapter (company careersUrl : jsstring)
    (w : World) :
  adapter ∈ renderers ->
  match launch w with
  | (Threw e, w1) => adapter company careersUrl w = (Threw e, w1)
  | (Ok browser, w1) =>
      match newPage browser w1 with
      | (Threw e, w2) => adapter company careersUrl w = (Threw e, w2)
      | (Ok page, w2) =>
          exists r w3,
            adapter company careersUrl w
            = (r, closeBrowser browser (closePage page w3))
      end
  end.
Proof.
  unfold renderers.
  intros [->|[->|[->|[]%elem_of_nil]%elem_of_cons]%elem_of_cons]%elem_of_cons;
    apply rendered_session.
Qed.

End Failing.

Lemma failure_is_contained_witness :
  let P := Bench.platform Bench.down in
  let c := Bench.acme "https://ats.rippling.com/acme/jobs" in
  @dispatch P (detectSource (c_careers_url c)) c []
  = (Threw (str "Rippling fetch failed: 503"), Bench.log "fetch" [])
  /\ exists cov w2,
       @visit P c [] = (Ok (cov, []), w2)
       /\ failed_with c (str "Rippling fetch failed: 503") cov
       /\ w2 = Bench.log "fetch" [].
Proof.
  intros P c. split; [vm_compute; reflexivity|].
  apply (@failure_is_contained P c [] (Bench.log "fetch" [])
           (str "Rippling fetch failed: 503")).
  vm_compute. reflexivity.
Defined.

Lemma browser_session_is_closed_witness :
  let P := Bench.platform (Bench.board [Bench.jobLink; Bench.brokenLink]) in
  (exists e w3,
     @scrapeAshby P (str "Acme") (str "https://jobs.ashbyhq.com/acme") []
     = (Threw e, Bench.log "browser.close" (Bench.log "page.close" w3)))
  /\ exists r w3,
       @scrapeAshby P (str "Acme") (str "https://jobs.ashbyhq.com/acme") []
       = (r, Bench.log "browser.close" (Bench.log "page.close" w3)).
Proof.
  intros P. split; [eexists _, _; vm_compute; reflexivity|].
  apply (@browser_session_is_closed P (@scrapeAshby P) (str "Acme")
           (str "https://jobs.ashbyhq.com/acme") []).
  left.
Defined.
(** ** The roster *)

Lemma truthy_clean x : truthy (Some (cleanText x)) = negb (blank x).
Proof.
  unfold blank. destruct x as [s|]; [|done]. simpl.
  destruct (forallb is_space s) eqn:Hb.
  - apply cleanText_nil in Hb. by rewrite Hb.
  - destruct (cleanText (Some s)) as [|c t] eqn:Hc; [|done].
    apply cleanText_nil in Hc. congruence.
Qed.

Lemma filter_map_comm {A B} (f : B -> bool) (g : A -> B) (h : A -> bool) l :
  (forall x, f (g x) = h x) ->
  List.filter f (List.map g l) = List.map g (List.filter h l).
Proof.
  intros Hfg. induction l as [|x l IH]; simpl; [done|].
  rewrite Hfg. destruct (h x); simpl; by rewrite IH.
Qed.

Lemma readCompanies_kept rows :
  ScrapeRoster.readCompanies rows
  = List.map (fun r => {| c_company_name := clean (r_company_name r);
                          c_careers_url := clean (r_careers_url r) |})
      (List.filter (fun r => negb (blank (r_company_name r))
                             && negb (blank (r_careers_url r))) rows).
Proof.
  unfold ScrapeRoster.readCompanies. apply filter_map_comm.
  intros r. cbn [c_company_name c_careers_url].
  by rewrite !clean_cleanText, !truthy_clean.
Qed.

(** X15.  The two passes read the same roster from the same rows of
    [companies.csv]: the rows whose name and URL are both neither missing
    nor all white space, in the order of the file, each with its name and
    its URL cleaned; so every company of the roster has a name and a URL
    that are not empty, single-spaced and without white space at either
    end. *)
Theorem passes_read_the_same_roster (rows : list Row) :
  BuildSiteRoster.readCompanies rows = ScrapeRoster.readCompanies rows
  /\ ScrapeRoster.readCompanies rows
     = List.map (fun r => {| c_company_name := clean (r_company_name r);
                             c_careers_url := clean (r_careers_url r) |})
         (List.filter (fun r => negb (blank (r_company_name r))
                                && negb (blank (r_careers_url r))) rows)
  /\ Forall (fun c => c_company_name c <> [] /\ c_careers_url c <> []
                      /\ tidy_text (c_company_name c) = true
                      /\ tidy_text (c_careers_url c) = true)
       (ScrapeRoster.readCompanies rows).
Proof.
  split; [reflexivity|]. split; [apply readCompanies_kept|].
  rewrite readCompanies_kept. apply Forall_forall.
  intros c (r & <- & [_ Hr]%filter_In)%list_elem_of_In%in_map_iff.
  cbn [c_company_name c_careers_url].
  apply andb_true_iff in Hr as [Hn Hu].
  rewrite <- truthy_clean in Hn, Hu. rewrite !clean_cleanText.
  repeat split; try apply cleanText_tidy.
  - intros E. change (cleanText (r_company_name r) = []) in E.
    by rewrite E in Hn.
  - intros E. change (cleanText (r_careers_url r) = []) in E.
    by rewrite E in Hu.
Qed.
(** ** The two passes, one after the other *)

Section Pipeline.
Context `{Platform}.

Lemma written_made companies w written w' :
  Scrape.main companies w = (Ok written, w') ->
  NoDup (job_key <$> raw_jobs_json written)
  /\ Forall (fun j => exists c, c ∈ companies
                /\ made (detectSource (c_careers_url c)) c j)
       (raw_jobs_json written).
Proof.
  unfold Scrape.main, bind.
  destruct (visitAll companies [] [] w) as [[[raw cov]|e] w1] eqn:Hv; [|done].
  intros [= <- _]. cbn [raw_jobs_json fst].
  apply visitAll_trace in Hv as (new & newcov & -> & _ & Hn & _).
  cbn [app].
  assert (Hd : Forall (fun j => exists c, c ∈ companies
                /\ made (detectSource (c_careers_url c)) c j)
                 (dedupe dedupKey new)).
  { eapply Forall_sublist; [apply dedupe_sublist|done]. }
  split; [|done].
  assert (Hk : job_key <$> dedupe dedupKey new
               = Some <$> (dedupKey <$> dedupe dedupKey new)).
  { rewrite <- list_fmap_compose. apply Forall_fmap_ext.
    eapply Forall_impl; [exact Hd|]. intros j (c & _ & Hm). simpl.
    apply dedupKey_job_key. by eapply made_keyed. }
  rewrite Hk. apply NoDup_fmap_2; [apply _|apply dedupe_NoDup].
Qed.

(** X16.  The build pass run on what the scrape pass wrote, with the
    same roster: no [job_key] occurs twice among the clean jobs; and when
    no name is twice on the roster, the [open_roles] of the company
    summary add up to the number of clean jobs: every clean job is counted
    for exactly one company. *)
Theorem passes_compose sortJobs (companies : list Company) (w w' : World)
    (written : Scrape.Written) (stamp : jsstring) (out : BuildSite.Written) :
  Scrape.main companies w = (Ok written, w') ->
  BuildSite.main sortJobs companies (raw_jobs_json written) stamp = Some out ->
  NoDup (job_key <$> (sift (raw_jobs_json written)).1)
  /\ (NoDup (c_company_name <$> companies) ->
      sum_list (open_roles <$> companies_json out) = clean_count out).
Proof.
  intros [Hnd Hmade]%written_made. unfold BuildSite.main. rewrite sift_spec.
  destruct (sortJobs _) as [sorted|]; [|done]. intros [= <-].
  cbn [fst companies_json clean_count]. split.
  - eapply sublist_NoDup; [|exact Hnd]. apply cleaned_sublist.
    intros job o Ho.
    by destruct (normalizeJob_fields _ _ Ho) as (_&_&_&_&_&_&?&_).
  - intros Hroster. rewrite companiesOut_roles.
    rewrite count_by_key.
    + apply filter_length_all. apply Forall_forall.
      intros o (job & Hjob & Ho)%list_elem_of_omap.
      rewrite Forall_forall in Hmade.
      destruct (Hmade job Hjob) as (c & Hc & Hm).
      destruct (made_fields _ _ _ Hm) as (_ & Hname & _).
      destruct (normalizeJob_fields _ _ Ho) as (_ & -> & _). rewrite Hname.
      apply list_elem_of_fmap. by exists c.
    + rewrite (list_fmap_compose c_company_name Some).
      apply NoDup_fmap_2; [|done]. by intros a b [= ->].
Qed.

End Pipeline.

Lemma passes_compose_witness :
  let P := Toy.platform [Toy.listedLink; Toy.listedLink] in
  exists written w' out,
    @Scrape.main P roster 0 = (Ok written, w')
    /\ BuildSite.main Some roster (raw_jobs_json written)
         (str "2024-01-02T00:00:00.000Z") = Some out
    /\ NoDup (job_key <$> (sift (raw_jobs_json written)).1)
    /\ sum_list (open_roles <$> companies_json out) = clean_count out.
Proof.
  intros P. eexists _, _, _. split; [vm_compute; reflexivity|].
  split; [vm_compute; reflexivity|].
  destruct (@passes_compose P Some roster 0 _ _
              (str "2024-01-02T00:00:00.000Z") _
              ltac:(vm_compute; reflexivity) ltac:(vm_compute; reflexivity))
    as [Hk Hs].
  split; [exact Hk|]. apply Hs.
  vm_compute. apply NoDup_cons. split; [|apply NoDup_singleton].
  intros Hin. apply list_elem_of_singleton in Hin. discriminate Hin.
Defined.
(** ** What the API adapter and the rendering adapters return *)

Section Returned.
Context `{Platform}.

Lemma Forall2_filter {A B} (R : A -> B -> Prop) (p : A -> bool) (q : B -> bool)
    xs ys :
  (forall x y, R x y -> p x = q y) ->
  Forall2 R xs ys -> Forall2 R (List.filter p xs) (List.filter q ys).
Proof.
  intros Hpq. induction 1 as [|x y xs ys Hxy _ IH]; simpl; [constructor|].
  rewrite (Hpq x y Hxy). destruct (q y); [by constructor|done].
Qed.

Lemma omap_Some {A B} (f : A -> B) (l : list A) :
  omap (fun x => Some (f x)) l = f <$> l.
Proof. induction l as [|x l IH]; [done|]. cbn. by f_equal. Qed.

Lemma blank_default x : blank (Some (default [] x)) = blank x.
Proof. by destruct x. Qed.

Lemma greenhouse_kept company careersUrl g t :
  truthy (job_url (greenhouseRecord company careersUrl g t))
  = negb (blank (gh_absolute_url g)).
Proof.
  cbn [job_url greenhouseRecord]. rewrite clean_cleanText, truthy_clean.
  by rewrite blank_default.
Qed.

(** X17.  When the API adapter returns, the board slug was found in the
    careers URL and is not empty, the API answered OK, and the records
    returned are those of the entries of the answer whose [absolute_url] is
    neither missing nor all white space, one record per such entry, in the
    order of the answer; an entry without a title or an [id] is kept. *)
Theorem greenhouse_returns_the_listed_entries (company careersUrl : jsstring)
    (w w' : World) (jobs : list Job) :
  scrapeGreenhouse company careersUrl w = (Ok jobs, w') ->
  exists board res w0,
    match_group true boardRe 1 careersUrl = Some board
    /\ board <> []
    /\ fetchJobs (str "https://boards-api.greenhouse.io/v1/boards/" ++ board
                  ++ str "/jobs?content=false") w = (Ok res, w0)
    /\ g_ok res = true
    /\ Forall2 (fun g j => exists t, j = greenhouseRecord company careersUrl g t)
         (List.filter (fun g => negb (blank (gh_absolute_url g))) (g_jobs res))
         jobs.
Proof.
  unfold scrapeGreenhouse.
  destruct (match_group true boardRe 1 careersUrl) as [[|b board]|] eqn:Hb;
    [done| |done].
  unfold bind at 1. destruct (fetchJobs _ w) as [[res|e] w0] eqn:Hf; [|done].
  destruct (g_ok res) eqn:Hok; [|done]. cbn [negb]. unfold bind, ret.
  destruct (scan_spec (fun j => Some (greenhouseRecord company careersUrl j))
              (g_jobs res) [] w0) as (pl & w1 & Hs & Hpl).
  rewrite Hs. cbn [app]. intros [= <- <-].
  exists (b :: board), res, w0.
  split; [done|]. split; [done|]. split; [done|]. split; [done|].
  rewrite omap_Some in Hpl.
  rewrite Forall2_fmap_l in Hpl.
  eapply (Forall2_filter _ _ (fun j => truthy (job_url j))); [|exact Hpl].
  - intros g j [t ->]. simpl. by rewrite <- (greenhouse_kept company careersUrl g t).
Qed.

Lemma stampNew_spec mk hits : forall seen out w,
  exists pl w',
    stampNew mk hits seen out w = (Ok (out ++ pl), w')
    /\ Forall2 (fun h j => exists t, j = mk h t) (kept h_url seen hits) pl.
Proof.
  induction hits as [|h hits IH]; intros seen out w; simpl.
  - exists [], w. by rewrite app_nil_r.
  - destruct (decide (h_url h ∈ seen)); [apply IH|].
    unfold bind, now. destruct (nowISO w) as [t w1].
    destruct (IH ({[h_url h]} ∪ seen) (out ++ [mk h t]) w1)
      as (pl & w' & -> & Hpl).
    exists (mk h t :: pl), w'. rewrite <- app_assoc. split; [done|].
    constructor; [by exists t|done].
Qed.

Lemma rendered_returns careersUrl waitUntil script mk w jobs w' :
  rendered careersUrl waitUntil script mk w = (Ok jobs, w') ->
  exists page w0 d w1 hits,
    domOf page w0 = (Ok d, w1)
    /\ script d = Ok hits
    /\ Forall2 (fun h j => exists t, j = mk h t) (dedupe h_url hits) jobs.
Proof.
  unfold rendered, bind at 1.
  destruct (launch w) as [[browser|e] w1]; [|done].
  unfold bind at 1. destruct (newPage browser w1) as [[page|e] w2]; [|done].
  unfold finally, bind at 1.
  destruct (goto page careersUrl waitUntil w2) as [[[]|e] w3]; [|done].
  unfold bind at 1. destruct (waitForTimeout page 1500 w3) as [[[]|e] w4];
    [|done].
  unfold bind at 1. destruct (domOf page w4) as [[d|e] w5] eqn:Hd; [|done].
  unfold bind, lift. destruct (script d) as [hits|e] eqn:Hs; [|done].
  destruct (stampNew_spec mk hits ∅ [] w5) as (pl & w6 & -> & Hpl).
  intros [= <- _]. exists page, w4, d, w5, hits.
  rewrite dedupe_kept. done.
Qed.

Lemma rendered_links (P : Dom -> Hit -> Prop) careersUrl waitUntil script mk
    w jobs w' :
  (forall d hits, script d = Ok hits -> Forall (P d) hits) ->
  rendered careersUrl waitUntil script mk w = (Ok jobs, w') ->
  exists page w0 d w1 hits,
    domOf page w0 = (Ok d, w1)
    /\ script d = Ok hits
    /\ Forall2 (fun h j => P d h /\ exists t, j = mk h t) (dedupe h_url hits) jobs.
Proof.
  intros Hscript (page & w0 & d & w1 & hits & Hd & Hs & Hj)%rendered_returns.
  exists page, w0, d, w1, hits. split; [done|]. split; [done|].
  pose proof (Forall_sublist _ _ _ (dedupe_sublist h_url hits)
                (Hscript d hits Hs)) as Hp.
  revert Hp. induction Hj as [|h j hs js Hhj _ IH]; [constructor|].
  intros [Hh Hp]%Forall_cons. constructor; [done|by apply IH].
Qed.

Lemma stamped_hits_urls (P : Hit -> Prop) (mk : Hit -> jsstring -> Job) hs js :
  (forall h t, job_url (mk h t) = Some (h_url h)) ->
  Forall2 (fun h j => P h /\ exists t, j = mk h t) hs js ->
  job_url <$> js = Some <$> (h_url <$> hs)
  /\ Forall (fun j => exists h, P h /\ job_url j = Some (h_url h)) js.
Proof.
  intros Hmk. induction 1 as [|h j hs js [Hh [t ->]] _ [IH1 IH2]]; [done|].
  split.
  - rewrite !fmap_cons, IH1. by rewrite Hmk.
  - constructor; [|done]. exists h. by rewrite Hmk.
Qed.

(** X18.  When an adapter that renders the page returns, the page was
    rendered and its script returned; there is one record per distinct URL
    among the hits of the script, in their order, so no URL twice; and the
    URL of every record parses and is of the origin of the rendered
    document, the one the browser ended on, which need not be the origin
    of the careers URL. *)
Theorem rendered_jobs_are_links_of_the_document adapter
    (company careersUrl : jsstring) (w w' : World) (jobs : list Job) :
  adapter ∈ renderers ->
  adapter company careersUrl w = (Ok jobs, w') ->
  exists page w0 d w1 hits,
    domOf page w0 = (Ok d, w1)
    /\ (ashbyScript d = Ok hits \/ workdayScript d = Ok hits
        \/ scalisScript d = Ok hits)
    /\ job_url <$> jobs = Some <$> (h_url <$> dedupe h_url hits)
    /\ NoDup (job_url <$> jobs)
    /\ Forall (fun j => exists url u,
                 job_url j = Some url /\ newURL url None = Some u
                 /\ origin u = location_origin d) jobs.
Proof.
  unfold renderers.
  assert (Hgen : forall script mk waitUntil,
            (forall h t, job_url (mk h t) = Some (h_url h)) ->
            (forall d hits, script d = Ok hits -> Forall (same_document d) hits) ->
            rendered careersUrl waitUntil script mk w = (Ok jobs, w') ->
            exists page w0 d w1 hits,
              domOf page w0 = (Ok d, w1)
              /\ script d = Ok hits
              /\ job_url <$> jobs = Some <$> (h_url <$> dedupe h_url hits)
              /\ NoDup (job_url <$> jobs)
              /\ Forall (fun j => exists url u,
                   job_url j = Some url /\ newURL url None = Some u
                   /\ origin u = location_origin d) jobs).
  { intros script mk waitUntil Hmk Hscript Hrun.
    pose proof (rendered_NoDup _ _ _ _ _ _ _ Hmk Hrun) as Hnd.
    destruct (rendered_links _ _ _ _ _ _ _ _ Hscript Hrun)
      as (page & w0 & d & w1 & hits & Hd & Hs & Hj).
    exists page, w0, d, w1, hits.
    destruct (stamped_hits_urls _ _ _ _ Hmk Hj) as [Hu Hall].
    split; [done|]. split; [done|]. split; [done|]. split; [done|].
    eapply Forall_impl; [exact Hall|].
    intros j (h & ((u & Hp & Ho) & _) & Hj'). by exists (h_url h), u. }
  intros [->|[->|[->|[]%elem_of_nil]%elem_of_cons]%elem_of_cons]%elem_of_cons
    Hrun.
  - unfold scrapeAshby in Hrun.
    apply Hgen in Hrun as (page & w0 & d & w1 & hits & ? & ? & ?);
      [|done|apply ashbyScript_hits].
    exists page, w0, d, w1, hits. split; [done|]. split; [by left|done].
  - unfold scrapeWorkday in Hrun.
    apply Hgen in Hrun as (page & w0 & d & w1 & hits & ? & ? & ?);
      [|done|apply workdayScript_hits].
    exists page, w0, d, w1, hits. split; [done|]. split; [right; by left|done].
  - unfold scrapeScalis in Hrun.
    apply Hgen in Hrun as (page & w0 & d & w1 & hits & ? & ? & ?);
      [|done|apply scalisScript_hits].
    exists page, w0, d, w1, hits. split; [done|]. split; [right; by right|done].
Qed.

End Returned.

Lemma greenhouse_returns_the_listed_entries_witness :
  let P := Bench.platform Bench.listing in
  exists jobs w',
    @scrapeGreenhouse P (str "Globex") (str "https://boards.greenhouse.io/globex") []
    = (Ok jobs, w')
    /\ job_title <$> jobs = [Some (str "Data Engineer")]
    /\ exists board res w0,
         match_group true boardRe 1 (str "https://boards.greenhouse.io/globex")
         = Some board
         /\ board <> []
         /\ @fetchJobs P (str "https://boards-api.greenhouse.io/v1/boards/"
                          ++ board ++ str "/jobs?content=false") [] = (Ok res, w0)
         /\ g_ok res = true
         /\ Forall2 (fun g j => exists t,
                       j = @greenhouseRecord P (str "Globex")
                             (str "https://boards.greenhouse.io/globex") g t)
              (List.filter (fun g => negb (blank (gh_absolute_url g))) (g_jobs res))
              jobs.
Proof.
  intros P. eexists _, _. split; [vm_compute; reflexivity|].
  split; [vm_compute; reflexivity|].
  eapply (@greenhouse_returns_the_listed_entries P (str "Globex")
            (str "https://boards.greenhouse.io/globex") []).
  vm_compute. reflexivity.
Defined.

Lemma rendered_jobs_are_links_of_the_document_witness :
  let P := Bench.platform (Bench.board [Bench.jobLink; Bench.jobLink]) in
  exists jobs w',
    @scrapeAshby P (str "Acme") (str "https://jobs.ashbyhq.com/acme") []
    = (Ok jobs, w')
    /\ job_location <$> jobs = [Some (str "Remote")]
    /\ NoDup (job_url <$> jobs).
Proof.
  intros P. eexists _, _. split; [vm_compute; reflexivity|].
  split; [vm_compute; reflexivity|].
  destruct (@rendered_jobs_are_links_of_the_document P (@scrapeAshby P)
              (str "Acme") (str "https://jobs.ashbyhq.com/acme") [] _ _
              (list_elem_of_here _ _) ltac:(vm_compute; reflexivity))
    as (_ & _ & _ & _ & _ & _ & _ & _ & Hnd & _).
  exact Hnd.
Defined.
(** ** The titles of the generic adapter *)

Section CustomTitle.
Context `{Platform}.

Lemma indexOf_unit_free c s :
  match indexOf [c] s with
  | Some i => Forall (fun d => d <> c) (take i s)
  | None => Forall (fun d => d <> c) s
  end.
Proof.
  induction s as [|d s IH]; [by constructor|].
  cbn [indexOf startsWith]. destruct (N.eqb c d) eqn:Hcd; cbn [andb].
  - destruct s; constructor.
  - apply N.eqb_neq in Hcd.
    destruct (indexOf [c] s) as [i|]; cbn [fmap option_fmap option_map take];
      constructor; try done; by intros ->.
Qed.

Lemma splitHead_unit_free c s :
  Forall (fun d => d <> c) (Js.splitHead [c] s).
Proof.
  unfold Js.splitHead. pose proof (indexOf_unit_free c s) as Hi.
  by destruct (indexOf [c] s).
Qed.

Lemma splitHead_sublist sep s : Js.splitHead sep s `sublist_of` s.
Proof. destruct (splitHead_take sep s) as [n ->]. apply sublist_take. Qed.

Lemma re_splitHead_sublist ic r s : Re.splitHead ic r s `sublist_of` s.
Proof.
  unfold Re.splitHead. destruct (search ic r None s); [apply sublist_take|done].
Qed.

Lemma trim_sublist s : trim s `sublist_of` s.
Proof.
  unfold trim. destruct (trimEnd_take (trimStart s)) as [n ->].
  destruct (trimStart_drop s) as [k ->].
  etrans; [apply sublist_take|apply sublist_drop].
Qed.

Lemma split_from_free (Q : N -> Prop) ic r fuel : forall pv s,
  Forall Q s -> Forall (Forall Q) (split_from fuel ic r pv s).
Proof.
  induction fuel as [|fuel IH]; intros pv s Hs; cbn [split_from].
  - by repeat constructor.
  - destruct (search ic r pv s) as [f|] eqn:Hf; [|by repeat constructor].
    constructor.
    + eapply Forall_sublist; [apply sublist_take|done].
    + apply IH. apply search_forward in Hf as (Hb & He & _).
      assert (Hsuf : rest (at_end f) `suffix_of` s) by (by etrans).
      destruct Hsuf as [k Hk]. rewrite Hk in Hs.
      by apply Forall_app in Hs as [_ ?].
Qed.

Lemma join_free (Q : N -> Prop) pieces :
  Q 32%N -> Forall (Forall Q) pieces -> Forall Q (join pieces).
Proof.
  intros Hsp. induction 1 as [|x xs Hx Hxs IH]; [constructor|].
  cbn [join]. destruct xs as [|y ys]; [done|].
  apply Forall_app. split; [done|]. by constructor.
Qed.

Lemma customTitle_free (Q : N -> Prop) text s :
  Q 32%N ->
  (forall x, Forall Q (Js.splitHead s x)) ->
  s ∈ [[EM_DASH]; str "|"; [BULLET]] ->
  Forall Q (customTitle text).
Proof.
  intros Hsp Hs Hin. unfold customTitle.
  set (t0 := replaceAll false gluedAsRe _ _).
  set (t1 := trim _).
  assert (H1 : Forall Q t1).
  { unfold t1. eapply Forall_sublist; [apply trim_sublist|].
    apply elem_of_cons in Hin as [->|Hin]; [apply Hs|].
    eapply Forall_sublist; [apply splitHead_sublist|].
    apply elem_of_cons in Hin as [->|Hin]; [apply Hs|].
    eapply Forall_sublist; [apply splitHead_sublist|].
    apply list_elem_of_singleton in Hin as ->. apply Hs. }
  clearbody t1. clear t0.
  set (t2 := if 80 <? length t1 then _ else t1).
  assert (H2 : Forall Q t2).
  { unfold t2. destruct (80 <? length t1); [|done].
    eapply Forall_sublist; [apply trim_sublist|].
    eapply Forall_sublist; [apply re_splitHead_sublist|done]. }
  clearbody t2.
  destruct (80 <? length t2); [|done].
  eapply Forall_sublist; [apply trim_sublist|].
  apply join_free; [done|].
  eapply Forall_sublist; [apply sublist_take|].
  by apply split_from_free.
Qed.

Lemma customTitle_no_separator text :
  Forall (fun d => d <> EM_DASH /\ d <> 124%N /\ d <> BULLET) (customTitle text).
Proof.
  assert (Ha : Forall (fun d => d <> EM_DASH) (customTitle text)).
  { apply (customTitle_free _ _ [EM_DASH]); [done| |left].
    intros x. apply splitHead_unit_free. }
  assert (Hb : Forall (fun d => d <> 124%N) (customTitle text)).
  { apply (customTitle_free _ _ (str "|")); [done| |right; left].
    intros x. apply splitHead_unit_free. }
  assert (Hc : Forall (fun d => d <> BULLET) (customTitle text)).
  { apply (customTitle_free _ _ [BULLET]); [done| |right; right; left].
    intros x. apply splitHead_unit_free. }
  rewrite Forall_forall in Ha, Hb, Hc |- *. intros d Hd.
  split; [by apply Ha|]. split; [by apply Hb|by apply Hc].
Qed.

(** X19.  Every record the generic adapter returns has a title of at
    least six code units and two words, without white space at either end,
    that holds no em-dash, no pipe and no bullet: what follows the first of
    each is cut off, and the later cuts bring none back; its URL is of the
    origin of the careers URL and has none of the blocked words. *)
Theorem custom_titles_have_no_separator (company careersUrl : jsstring)
    (w w' : World) (jobs : list Job) :
  scrapeCustomHtml company careersUrl w = (Ok jobs, w') ->
  Forall (fun j => exists title url,
            job_title j = Some title /\ job_url j = Some url
            /\ Forall (fun d => d <> EM_DASH /\ d <> 124%N /\ d <> BULLET) title
            /\ trimmed title = true
            /\ 6 <= length title
            /\ 2 <= length (Re.split false (Plus sp) title)
            /\ sameOriginOnly careersUrl url = true
            /\ test true blockPath url = false) jobs.
Proof.
  unfold scrapeCustomHtml, bind at 1.
  destruct (fetchText careersUrl w) as [[r|e] w0]; [|done].
  destruct (negb (f_ok r)); [done|]. unfold bind, ret.
  destruct (scan _ (anchorsOf (f_text r)) [] w0) as [[o|e] w2] eqn:Hs; [|done].
  intros [= <- _]. eapply scan_all; [|exact Hs].
  intros a mk Hp t. revert Hp. unfold customAnchor.
  destruct (trim _) as [|c h]; [done|].
  destruct (startsWith _ _); [done|].
  destruct (absUrl careersUrl _) as [url|]; [|done].
  destruct (sameOriginOnly careersUrl url) eqn:Ho; [|done]. cbn [negb].
  destruct (test true blockPath url) eqn:Hb; [done|].
  destruct (newURL url None) as [u|]; [|done].
  destruct (newURL careersUrl None) as [b|]; [|done].
  destruct (negb (test _ _ _)); [done|].
  destruct (Js.eqb _ _); [done|].
  destruct (_ <? 6) eqn:Hl; [done|].
  destruct (_ <? 2) eqn:Hw; [done|].
  intros [= <-]. exists (customTitle (a_text a)), url. cbn [job_title job_url record].
  split; [done|]. split; [done|].
  split; [apply customTitle_no_separator|].
  split; [apply customTitle_trimmed|].
  apply Nat.ltb_ge in Hl, Hw. done.
Qed.

End CustomTitle.

Lemma custom_titles_have_no_separator_witness :
  let P := Toy.platform
             [mkAnchor (Some (str "/jobs/ai-engineer"))
                (str "AI Engineer | Austin" ++ [BULLET] ++ str " Full-time")] in
  exists jobs w',
    @scrapeCustomHtml P (str "Acme") (str "https://acme.example.com/careers") 0
    = (Ok jobs, w')
    /\ job_title <$> jobs = [Some (str "AI Engineer")]
    /\ Forall (fun j => exists title,
                 job_title j = Some title
                 /\ Forall (fun d => d <> EM_DASH /\ d <> 124%N /\ d <> BULLET)
                      title) jobs.
Proof.
  intros P. eexists _, _. split; [vm_compute; reflexivity|].
  split; [vm_compute; reflexivity|].
  eapply Forall_impl;
    [exact (@custom_titles_have_no_separator P (str "Acme")
              (str "https://acme.example.com/careers") 0 _ _ ltac:(vm_compute; reflexivity))|].
  intros j (title & url & Ht & _ & Hf & _). by exists title.
Defined.
(** ** A title may come out empty *)

Lemma department_title_vanishes d :
  d ∈ departments ->
  (length d <? 3) = false
  /\ looksLikeJobTitle d = true
  /\ test false placeholderRe d = false
  /\ endDept (tidy (undept (cut d))) = [].
Proof.
  unfold departments. intros Hd.
  repeat (apply elem_of_cons in Hd as [->|Hd];
          [repeat split; vm_compute; reflexivity|]).
  by apply elem_of_nil in Hd.
Qed.

(** X20.  The tests on the length and on the content of a title are made
    on the title as it comes in, not on the title as it goes out: a record
    whose cleaned title is one of the department words is accepted, when
    its URL passes, and the last strip takes the whole title, so the
    accepted record has the empty title. *)
Theorem department_title_comes_out_empty (job : Job) (d : jsstring) :
  d ∈ departments ->
  cleanText (job_title job) = d ->
  truthy (job_url job) && test true junkUrlRe (default [] (job_url job)) = false ->
  exists out, normalizeJob job = Some out /\ job_title out = Some [].
Proof.
  intros (Hl & Hj & Hp & Ht)%department_title_vanishes Hd Hu.
  rewrite normalizeJob_stages. unfold rejects. rewrite Hd, Hl, Hj, Hu, Hp.
  cbn [negb orb]. eexists. split; [reflexivity|].
  cbn [job_title retitled]. unfold titleOf. by rewrite Hd, Ht.
Qed.

Lemma department_title_comes_out_empty_witness :
  exists out, normalizeJob salesOnly = Some out /\ job_title out = Some [].
Proof.
  apply (department_title_comes_out_empty salesOnly (str "Sales")).
  - right; right; left.
  - vm_compute. reflexivity.
  - vm_compute. reflexivity.
Defined.
(** ** The key of the global de-duplication *)

Import KeySpec.



